(** * HyperSeg (models/hyperseg_v1_0_unify.py): dynamic patch-convolution core

    A shallow embedding of the construction-time and orchestration logic of
    the HyperSeg decoder: the signal-channel allocator [divide_feature], the
    weight generator [WeightLayer], the range tables of
    [HyperPatchInvertedResidual] and [MultiScaleDecoder], the coordinate
    buffers, the shape protocol of [HyperPatch.forward] and the inference
    fusion [HyperGen.gather_results].

    Conventions.  Python integers are [Z] where they can become negative and
    [nat] where they are sizes or indices.  Python exceptions are the [inl]
    side of [res].  Tensor entries are kept abstract (a type with the
    operations the code applies to it) so that no statement depends on
    floating-point rounding; where the code computes a float from integers
    ([divide_feature]) the product is a parameter of the model and the exact
    rational product is its reference instance. *)

From Stdlib Require Import ZArith QArith Qround Lia.
From stdpp Require Import base option list sorting strings pretty gmap.

Close Scope Q_scope.

(** ** Python exceptions and the result type *)

Inductive py_error : Type :=
  | AssertionError
  | ZeroDivisionError
  | ValueError
  | RuntimeError
  | UnboundLocalError
  | IndexError
  | TypeError
  | NotImplementedError.

Definition res (A : Type) : Type := (py_error + A)%type.

Definition ok {A} (a : A) : res A := inr a.
Definition raise {A} (e : py_error) : res A := inl e.

Definition rbind {A B} (m : res A) (k : A → res B) : res B :=
  match m with
  | inl e => inl e
  | inr a => k a
  end.

Notation "x ←r m ; k" := (rbind m (λ x, k))
  (at level 100, m at next level, right associativity, only parsing).

Definition raises {A} (m : res A) : Prop := ∃ e, m = inl e.

(** ** Generic list helpers *)

(** Python's [sum] over integers. *)
Definition zsum (l : list Z) : Z := foldr Z.add 0%Z l.

(** Stable insertion sort.  [ins le x l] puts [x] in front of the first [y]
    with [le x y]; folding from the right keeps elements that compare equal
    in their original order (the guarantee of [list.sort], also with
    [reverse=True]). *)
Fixpoint ins {A} (le : A → A → bool) (x : A) (l : list A) : list A :=
  match l with
  | [] => [x]
  | y :: l' => if le x y then x :: y :: l' else y :: ins le x l'
  end.

Definition stable_sort {A} (le : A → A → bool) (l : list A) : list A :=
  foldr (ins le) [] l.

(** [itertools.groupby]: maximal runs of consecutive elements with equal key. *)
Fixpoint groupby {A} (key : A → Z) (l : list A) : list (Z * list A) :=
  match l with
  | [] => []
  | x :: l' =>
      match groupby key l' with
      | (k, g) :: rest =>
          if (key x =? k)%Z then (k, x :: g) :: rest
          else (key x, [x]) :: (k, g) :: rest
      | [] => [(key x, [x])]
      end
  end.

(** Python sequence indexing.  [py_norm i len] clamps a slice bound the way
    [l[a:b]] does (a negative bound counts from the end); [py_resolve] is
    the position [l[i]] reads, or [IndexError]. *)
Definition py_norm (i : Z) (len : nat) : nat :=
  if (i <? 0)%Z then Z.to_nat (Z.max (i + Z.of_nat len) 0)
  else Z.to_nat (Z.min i (Z.of_nat len)).

Definition py_slice {A} (a b : Z) (l : list A) : list A :=
  let s := py_norm a (length l) in
  let e := py_norm b (length l) in
  take (e - s) (drop s l).

Definition py_slice_from {A} (a : Z) (l : list A) : list A :=
  drop (py_norm a (length l)) l.

Definition py_resolve (len : nat) (i : Z) : res nat :=
  let j := if (i <? 0)%Z then (i + Z.of_nat len)%Z else i in
  if ((j <? 0) || (Z.of_nat len <=? j))%Z then raise IndexError
  else ok (Z.to_nat j).

Definition py_index {A} (l : list A) (i : Z) : res A :=
  j ←r py_resolve (length l) i;
  match l !! j with
  | Some x => ok x
  | None => raise IndexError
  end.

(** ** Tensor entries

    The arithmetic of tensor entries is an interface; [Q] is the instance
    used to evaluate the model on examples. *)
Class FloatOps (F : Type) : Type := {
  fzero : F;
  fadd : F → F → F;
  fmul : F → F → F;
  fmax : F → F → F;
  fhalf : F
}.

#[export] Instance Q_FloatOps : FloatOps Q := {|
  fzero := 0%Q;
  fadd := Qplus;
  fmul := Qmult;
  fmax := λ a b, if Qle_bool a b then b else a;
  fhalf := (1 # 2)%Q
|}.

(** A tensor seen through its flattened entries; the operations below are
    applied to operands of one shape. *)
Definition tensor (F : Type) : Type := list F.

Definition tensor_add `{FloatOps F} (x y : tensor F) : tensor F :=
  zip_with fadd x y.

Definition tensor_scale `{FloatOps F} (x : tensor F) (c : F) : tensor F :=
  (λ a, fmul a c) <$> x.

Definition tensor_max `{FloatOps F} (x y : tensor F) : tensor F :=
  zip_with fmax x y.

(** ** The signal-channel allocator: [divide_feature] *)

Module Alloc.
Local Open Scope Z_scope.

(** A feature group [(k, indices)]: the consumers whose [out_features] entry
    is [k]. *)
Definition group : Type := (Z * list nat)%type.

Definition gsize (g : group) : Z := Z.of_nat (length g.2).

(** Sort key of [out_feat_groups.sort]: [x[0] * len(x[1])]. *)
Definition gweight (g : group) : Z := g.1 * gsize g.

(** [np.argsort(out_features)]: the indices ordered by value (ties in index
    order; the order inside a run of equal values does not reach the
    result). *)
Definition argsort (out_features : list Z) : list nat :=
  stable_sort (λ i j, (out_features !!! i) <=? (out_features !!! j))
              (seq 0 (length out_features)).

(** Lines 622-625: the groups, heaviest first. *)
Definition out_feat_groups (out_features : list Z) : list group :=
  let indices := argsort out_features in
  let out_features_sorted := (λ i, out_features !!! i) <$> indices in
  let groups :=
    (λ kg : Z * list nat, (kg.1, (λ i, indices !!! i) <$> kg.2))
      <$> groupby (λ i, out_features_sorted !!! i) (seq 0 (length indices)) in
  stable_sort (λ x y, gweight y <=? gweight x) groups.

(** Python's [max(a, b)] on numbers: [b] only when [b > a]. *)
Definition py_max (a b : Q) : Q := if Qle_bool b a then a else b.

Section with_float.
(** [fscale units total size] stands for the float
    [size * (float(units) / total)] of lines 626 and 635. *)
Variable fscale : Z → Z → Z → Q.

(** Lines 633-636: the units a group asks for beyond one per member. *)
Definition proposal (units total : Z) (g : group) : Z :=
  let n := gsize g in
  let curr_out_feat_size := g.1 * n in
  let curr_units := py_max (fscale units total curr_out_feat_size) (inject_Z n) in
  Qfloor (curr_units / inject_Z n) * n - n.

(** Lines 629-643: the loop over the groups.  The result is
    [out_group_units]; an entry starts at the group's size.  After the
    [break] the later entries keep that initial value. *)
Fixpoint group_units (units total : Z) (gs : list group) (remaining_units : Z)
  : list Z :=
  match gs with
  | [] => []
  | [g] => [gsize g + remaining_units]
  | g :: gs' =>
      let curr_units := Z.min (proposal units total g) remaining_units in
      let remaining_units' := remaining_units - curr_units in
      (gsize g + curr_units)
        :: (if remaining_units' =? 0 then gsize <$> gs'
            else group_units units total gs' remaining_units')
  end.

(** Lines 646-649: the final scatter into [divided_in_features].  [entry]
    is [out_group_units[i] // len(out_feat_group[1]) * min_unit]. *)
Definition entry (min_unit : Z) (gu : group * Z) : Z :=
  gu.2 `div` gsize gu.1 * min_unit.

Definition scatter_group (min_unit : Z) (arr : list Z) (gu : group * Z) : list Z :=
  foldl (λ arr j, <[j := entry min_unit gu]> arr) arr gu.1.2.

Definition scatter (min_unit : Z) (len : nat) (gus : list (group * Z)) : list Z :=
  foldl (scatter_group min_unit) (replicate len 0) gus.

Definition divide_feature_with (in_feature : Z) (out_features : list Z)
    (min_unit : Z) : res (list Z) :=
  if min_unit =? 0 then raise ZeroDivisionError
  else if negb (in_feature `mod` min_unit =? 0) then raise AssertionError
  else
    let units := in_feature `div` min_unit in
    let groups := out_feat_groups out_features in
    let total := zsum out_features in
    if total =? 0 then raise ZeroDivisionError
    else
      let remaining_units := units - zsum (gsize <$> groups) in
      let out_group_units := group_units units total groups remaining_units in
      ok (scatter min_unit (length out_features) (zip groups out_group_units)).


End with_float.

(** The float product without rounding. *)
Definition exact_scale (units total size : Z) : Q :=
  (inject_Z size * (inject_Z units / inject_Z total))%Q.

Definition divide_feature : Z → list Z → Z → res (list Z) :=
  divide_feature_with exact_scale.

End Alloc.

(** ** Inference fusion: [HyperGen.gather_results] *)

Module HyperGen.

Record hypergen : Type := {
  inference_hflip : bool;
  inference_gather : string
}.

(** Lines 64-71.  [None] is Python's [None]. *)
Definition gather_results `{FloatOps F} (self : hypergen)
    (x : option (tensor F)) (y : option (tensor F)) : res (tensor F) :=
  match x with
  | None => raise AssertionError
  | Some x =>
      match y with
      | None => ok x
      | Some y =>
          if decide (inference_gather self = "mean")
          then ok (tensor_scale (tensor_add x y) fhalf)
          else ok (tensor_max x y)
      end
  end.

End HyperGen.

(** ** The dynamic inverted-residual block: [HyperPatchInvertedResidual] *)

Module InvertedResidual.
Local Open Scope Z_scope.

(** Python's [round] on a number: to the nearest integer, ties to even. *)
Definition py_round (q : Q) : Z :=
  let f := Qfloor q in
  let r := (q - inject_Z f)%Q in
  match (r ?= 1 # 2)%Q with
  | Lt => f
  | Gt => f + 1
  | Eq => if Z.even f then f else f + 1
  end.

Record block : Type := {
  stride : Z;
  in_nc : Z;
  out_nc : Z;
  kernel_size : Z * Z;
  hidden_dim : Z;
  use_res_connect : bool;
  hyper_params : Z;
  ranges : list Z
}.

(** Lines 313-340.  [kernel_size] is the pair [_pair] has made;
    [expand_ratio] is a rational, the product with [in_nc] taken exactly. *)
Definition init (in_nc out_nc : Z) (kernel_size : Z * Z) (stride : Z)
    (expand_ratio : Q) : res block :=
  if negb (bool_decide (stride ∈ [1; 2])) then raise AssertionError
  else
    let hidden_dim := py_round (inject_Z in_nc * expand_ratio)%Q in
    let use_res_connect := (stride =? 1) && (in_nc =? out_nc) in
    let hyper_params := 0 in
    let _ranges := [0] in
    let hyper_params := hyper_params + in_nc * hidden_dim in
    let _ranges := _ranges ++ [hyper_params] in
    let hyper_params := hyper_params + hidden_dim * kernel_size.1 * kernel_size.2 in
    let _ranges := _ranges ++ [hyper_params] in
    let hyper_params := hyper_params + hidden_dim * out_nc in
    let _ranges := _ranges ++ [hyper_params] in
    ok {| stride := stride; in_nc := in_nc; out_nc := out_nc;
          kernel_size := kernel_size; hidden_dim := hidden_dim;
          use_res_connect := use_res_connect;
          hyper_params := hyper_params; ranges := _ranges |}.

(** Lines 363, 370 and 377: the three column ranges [conv] cuts out of a
    row of the generated weights, [weight[:, _ranges[i]:_ranges[i + 1]]]. *)
Definition stage_weight {A} (self : block) (i : nat) (row : list A) : res (list A) :=
  r0 ←r py_index (ranges self) (Z.of_nat i);
  r1 ←r py_index (ranges self) (Z.of_nat i + 1);
  ok (py_slice r0 r1 row).

Section forward.
Context `{FloatOps F}.
(** The three-stage patch convolution of lines 342-383, with its
    normalisation and activation layers. *)
Variable conv : block → tensor F → tensor F → tensor F.

(** Lines 385-389. *)
Definition forward (self : block) (x s : tensor F) : tensor F :=
  if use_res_connect self then tensor_add x (conv self x s)
  else conv self x s.
End forward.

End InvertedResidual.

(** ** The weight generator: [WeightLayer] *)

Module WeightLayer.
Local Open Scope Z_scope.

(** Line 464-465: [type(x)(np.ceil(x / base) * base)]. *)
Definition next_multiply (x base : Z) : res Z :=
  if base =? 0 then raise ZeroDivisionError
  else ok (- ((- x) `div` base) * base).

(** A tensor [(B, C, H, W)] as the list of its [C] channels, each channel
    the flattened [(B, H, W)] plane. *)
Definition plane (F : Type) : Type := list F.

(** [nn.Conv2d(in, out, 1, bias=False, groups=g)]: [weight] has one row of
    [in / g] entries for each output channel. *)
Record conv2d (F : Type) : Type := {
  in_channels : Z;
  out_channels : Z;
  groups : Z;
  weight : list (list F)
}.
Arguments in_channels {F} _.
Arguments out_channels {F} _.
Arguments groups {F} _.
Arguments weight {F} _.

Record weight_layer (F : Type) : Type := {
  target_params : Z;
  signal_channels : option Z;
  signal_index : option Z;
  signal2weights : option (conv2d F)
}.
Arguments target_params {F} _.
Arguments signal_channels {F} _.
Arguments signal_index {F} _.
Arguments signal2weights {F} _.

Section layer.
Context `{FloatOps F}.

(** The values the framework puts into a new convolution's weight, for
    [out] rows of [n] entries. *)
Variable initial_weight : Z → Z → list (list F).

Definition new_conv2d (in_channels out_channels groups : Z) : res (conv2d F) :=
  if groups <=? 0 then raise ValueError
  else if negb (in_channels `mod` groups =? 0) then raise ValueError
  else if negb (out_channels `mod` groups =? 0) then raise ValueError
  else ok {| in_channels := in_channels; out_channels := out_channels;
             groups := groups;
             weight := initial_weight out_channels (in_channels `div` groups) |}.

Definition plane_add (a b : plane F) : plane F := zip_with fadd a b.
Definition plane_scale (c : F) (a : plane F) : plane F := fmul c <$> a.

(** One output channel: the weighted sum of the input channels of its
    group. *)
Definition mix (pixels : nat) (row : list F) (xs : list (plane F)) : plane F :=
  foldr plane_add (replicate pixels fzero) (zip_with plane_scale row xs).

(** Applying the 1x1 grouped convolution to the channels [xs]. *)
Definition conv2d_apply (c : conv2d F) (xs : list (plane F))
    : res (list (plane F)) :=
  if negb (Z.of_nat (length xs) =? in_channels c) then raise RuntimeError
  else
    let per_in := in_channels c `div` groups c in
    let per_out := out_channels c `div` groups c in
    let pixels := length (default [] (head xs)) in
    ok ((λ o : nat,
           let g := Z.of_nat o `div` per_out in
           mix pixels (default [] (weight c !! o))
               (py_slice (g * per_in) ((g + 1) * per_in) xs))
          <$> seq 0 (Z.to_nat (out_channels c))).

(** Lines 288-293. *)
Definition new (target_params : Z) : weight_layer F :=
  {| target_params := target_params; signal_channels := None;
     signal_index := None; signal2weights := None |}.

(** Lines 295-299. *)
Definition init_signal2weights (self : weight_layer F)
    (signal_channels signal_index groups : Z) : res (weight_layer F) :=
  weight_channels ←r next_multiply (target_params self) groups;
  conv ←r new_conv2d signal_channels weight_channels groups;
  ok {| target_params := target_params self;
        signal_channels := Some signal_channels;
        signal_index := Some signal_index;
        signal2weights := Some conv |}.

(** Lines 301-306. *)
Definition apply_signal2weights (self : weight_layer F) (s : list (plane F))
    : res (list (plane F)) :=
  match signal2weights self with
  | None => ok s
  | Some conv =>
      match signal_index self, signal_channels self with
      | Some index, Some channels =>
          w ←r conv2d_apply conv (py_slice index (index + channels) s);
          ok (py_slice 0 (target_params self) w)
      | _, _ => raise TypeError
      end
  end.

(** Lines 308-309. *)
Definition forward (self : weight_layer F) (s : list (plane F))
    : res (list (plane F)) :=
  apply_signal2weights self s.

End layer.
End WeightLayer.

(** ** The decoder: [MultiScaleDecoder] *)

Module Decoder.
Local Open Scope Z_scope.

(** What the decoder does with feature tensors: reading the batch size and
    the spatial size, bilinear resizing and concatenation of channels. *)
Class TensorOps (T : Type) : Type := {
  batch : T → nat;
  spatial : T → nat * nat;
  interpolate : T → nat * nat → T;
  cat : T → T → T
}.

(** What a forward pass does with the generated weights, in order: the
    call of [weight_blocks[block]] and the call of [level_blocks[level]]
    with the weights it is given. *)
Inductive event (F : Type) : Type :=
  | EvGenerate (block : nat)
  | EvLevel (level : nat) (w : list (WeightLayer.plane F)).
Arguments EvGenerate {F} _.
Arguments EvLevel {F} _ _.

(** Computations that log events and may raise. *)
Definition M (F A : Type) : Type := list (event F) → list (event F) * res A.

Definition mret {F A} (a : A) : M F A := λ tr, (tr, ok a).

Definition mbind {F A B} (m : M F A) (k : A → M F B) : M F B :=
  λ tr, match m tr with
        | (tr', inl e) => (tr', inl e)
        | (tr', inr a) => k a tr'
        end.

Definition lift {F A} (r : res A) : M F A := λ tr, (tr, r).

Definition emit {F} (e : event F) : M F () := λ tr, (tr ++ [e], ok ()).

Notation "x ←m m ; k" := (mbind m (λ x, k))
  (at level 100, m at next level, right associativity, only parsing).

Record decoder (F : Type) : Type := {
  levels : nat;
  unify_level : Z;
  level_params : list Z;
  weight_blocks : list (WeightLayer.weight_layer F);
  _ranges : list Z;
  param_groups : list Z;
  hyper_params : Z
}.
Arguments levels {F} _.
Arguments unify_level {F} _.
Arguments level_params {F} _.
Arguments weight_blocks {F} _.
Arguments _ranges {F} _.
Arguments param_groups {F} _.
Arguments hyper_params {F} _.

(** [max] of a non-empty list of integers ([ValueError] on an empty one). *)
Definition py_max_list (l : list Z) : res Z :=
  match l with
  | [] => raise ValueError
  | x :: l' => ok (foldl Z.max x l')
  end.

(** The offsets of the levels that share a generator: the partial sums of
    [level_params] from position [k] on, [n + 1] of them. *)
Definition offsets (level_params : list Z) (k n : nat) : list Z :=
  (λ i, zsum (take i (drop k level_params))) <$> seq 0 (n + 1).

Section decoder.
Context `{FloatOps F} `{TensorOps T}.
Variable initial_weight : Z → Z → list (list F).
(** [level_blocks[level](p, w)], the stages of a level. *)
Variable level_block : nat → T → list (WeightLayer.plane F) → res T.
(** [get_image_coordinates(b, h, w, device)] as a tensor. *)
Variable image_coordinates : nat → nat * nat → T.
(** [out_fc], when the decoder has one. *)
Variable out_fc : option (T → list (WeightLayer.plane F) → res T).

(** Lines 149-178, the part of the loop that builds [weight_blocks] and
    [_ranges].  [level_params] lists [level_blocks[level].hyper_params]. *)
Definition init_level (level_params : list Z) (unify_level : Z)
    (acc : list (WeightLayer.weight_layer F) * list Z) (level : nat)
    : res (list (WeightLayer.weight_layer F) * list Z) :=
  hp ←r py_index level_params (Z.of_nat level);
  if Z.of_nat level <? unify_level - 1
  then ok (acc.1 ++ [WeightLayer.new hp], acc.2)
  else
    last ←r py_index acc.2 (-1);
    let ranges := acc.2 ++ [last + hp] in
    if Z.of_nat level =? Z.of_nat (length level_params) - 1
    then
      let hyper_params := zsum (py_slice_from (unify_level - 1) level_params) in
      ok (acc.1 ++ [WeightLayer.new hyper_params], ranges)
    else ok (acc.1, ranges).

Fixpoint init_levels (level_params : list Z) (unify_level : Z)
    (lvls : list nat) (acc : list (WeightLayer.weight_layer F) * list Z)
    : res (list (WeightLayer.weight_layer F) * list Z) :=
  match lvls with
  | [] => ok acc
  | level :: lvls' =>
      acc' ←r init_level level_params unify_level acc level;
      init_levels level_params unify_level lvls' acc'
  end.

(** Lines 275-284 on [weight_blocks]: every layer takes the next entry of
    [signal_features] and of [weight_groups]; the slices follow each
    other. *)
Fixpoint init_signal2weights (blocks : list (WeightLayer.weight_layer F))
    (signal_features weight_groups : list Z) (signal_index : Z)
    : res (list (WeightLayer.weight_layer F)) :=
  match blocks with
  | [] => ok []
  | m :: blocks' =>
      match signal_features, weight_groups with
      | curr_feature_nc :: signal_features', curr_weight_group :: weight_groups' =>
          m' ←r WeightLayer.init_signal2weights initial_weight m
                  curr_feature_nc signal_index curr_weight_group;
          rest ←r init_signal2weights blocks' signal_features' weight_groups'
                    (signal_index + curr_feature_nc);
          ok (m' :: rest)
      | _, _ => raise IndexError
      end
  end.

(** Lines 136-202, without the construction of the level blocks and of the
    coordinate buffers. *)
Definition init (level_params : list Z) (unify_level signal_channels : Z)
    (weight_groups : list Z) : res (decoder F) :=
  let levels := length level_params in
  built ←r init_levels level_params unify_level (seq 0 levels) ([], [0]);
  let param_groups := WeightLayer.target_params <$> built.1 in
  min_unit ←r py_max_list weight_groups;
  signal_features ←r Alloc.divide_feature signal_channels param_groups min_unit;
  blocks ←r init_signal2weights built.1 signal_features weight_groups 0;
  ok {| levels := levels; unify_level := unify_level;
        level_params := level_params; weight_blocks := blocks;
        _ranges := built.2; param_groups := param_groups;
        hyper_params := zsum param_groups |}.

(** [weight_block(s)], logged. *)
Definition generate (self : decoder F) (block : nat)
    (s : list (WeightLayer.plane F)) : M F (list (WeightLayer.plane F)) :=
  _ ←m emit (EvGenerate block);
  weight_block ←m lift (match weight_blocks self !! block with
                        | Some m => ok m
                        | None => raise IndexError
                        end);
  lift (WeightLayer.forward weight_block s).

(** [level_block(p, w)], logged. *)
Definition run_level (level : nat) (p : T) (w : list (WeightLayer.plane F))
    : M F T :=
  _ ←m emit (EvLevel level w);
  lift (level_block level p w).

(** Lines 226-249: one turn of the loop.  The state is [(p, w)]; a [None]
    is a local variable that has not been assigned yet. *)
Definition forward_level (self : decoder F) (x : list T)
    (s : list (WeightLayer.plane F))
    (st : option T * option (list (WeightLayer.plane F))) (level : nat)
    : M F (option T * option (list (WeightLayer.plane F))) :=
  block ←m lift (py_resolve (length (weight_blocks self))
                   (Z.min (Z.of_nat level) (unify_level self - 1)));
  x_level ←m lift (py_index x (- Z.of_nat level - 1));
  let p :=
    match st.1 with
    | None => x_level
    | Some p =>
        let p := if decide (spatial p ≠ spatial x_level)
                 then interpolate p (spatial x_level) else p in
        cat x_level p
    end in
  let p := cat (image_coordinates (batch p) (spatial p)) p in
  if Z.of_nat level <? unify_level self - 1
  then
    w ←m generate self block s;
    p ←m run_level level p w;
    mret (Some p, Some w)
  else
    w ←m (if Z.of_nat level =? unify_level self - 1
          then (w ←m generate self block s; mret (Some w))
          else mret st.2);
    let i := Z.of_nat level - unify_level self + 1 in
    w' ←m lift (match w with
                | Some w => ok w
                | None => raise UnboundLocalError
                end);
    r0 ←m lift (py_index (_ranges self) i);
    r1 ←m lift (py_index (_ranges self) (i + 1));
    p ←m run_level level p (py_slice r0 r1 w');
    mret (Some p, Some w').

Fixpoint forward_levels (self : decoder F) (x : list T)
    (s : list (WeightLayer.plane F)) (lvls : list nat)
    (st : option T * option (list (WeightLayer.plane F)))
    : M F (option T * option (list (WeightLayer.plane F))) :=
  match lvls with
  | [] => mret st
  | level :: lvls' =>
      st' ←m forward_level self x s st level;
      forward_levels self x s lvls' st'
  end.

(** Lines 222-259. *)
Definition forward (self : decoder F) (x : list T)
    (s : list (WeightLayer.plane F)) : M F T :=
  st ←m forward_levels self x s (seq 0 (levels self)) (None, None);
  p ←m lift (match st.1 with
             | Some p => ok p
             | None => raise UnboundLocalError
             end);
  p ←m lift (match out_fc with
             | Some fc => fc p s
             | None => ok p
             end);
  x0 ←m lift (py_index x 0);
  mret (if decide (spatial p ≠ spatial x0)
        then interpolate p (spatial x0) else p).

(** How often [weight_blocks[block]] is called in a log. *)
Definition is_generate (block : nat) (e : event F) : bool :=
  match e with
  | EvGenerate b => bool_decide (b = block)
  | EvLevel _ _ => false
  end.

Definition generate_count (block : nat) (tr : list (event F)) : nat :=
  length (filter (λ e, is_generate block e) tr).

(** The levels of the events of a log. *)
Definition levels_below (n : nat) (tr : list (event F)) : Prop :=
  ∀ level w, EvLevel level w ∈ tr → (level < n)%nat.

Definition levels_from (n : nat) (tr : list (event F)) : Prop :=
  ∀ level w, EvLevel level w ∈ tr → (n ≤ level)%nat.

(** [shared_slices self s k n tr]: in the log [tr] the weights [w] that
    [weight_blocks[k]] generates from [s] were generated once, after the
    levels below [k] and before the others, and every level from [k] up to
    [n] was run once, on [w[:, _ranges[i]:_ranges[i + 1]]] with
    [i = level - k]. *)
Definition shared_slices (self : decoder F) (s : list (WeightLayer.plane F))
    (k n : nat) (w : list (WeightLayer.plane F)) (tr : list (event F)) : Prop :=
  (∃ weight_block, weight_blocks self !! k = Some weight_block
                   ∧ WeightLayer.forward weight_block s = ok w)
  ∧ (∃ tr1 tr2, tr = tr1 ++ EvGenerate k :: tr2
                ∧ levels_below k tr1 ∧ levels_from k tr2)
  ∧ ∀ level : nat, (k ≤ level < n)%nat →
      ∃ r0 r1, _ranges self !! (level - k)%nat = Some r0
               ∧ _ranges self !! (level - k + 1)%nat = Some r1
               ∧ EvLevel level (py_slice r0 r1 w) ∈ tr
               ∧ ∀ w', EvLevel level w' ∈ tr → w' = py_slice r0 r1 w.

(** The state of a pass after the levels below [n]. *)
Definition pass_inv (self : decoder F) (s : list (WeightLayer.plane F))
    (k n : nat) (st : option T * option (list (WeightLayer.plane F)))
    (tr : list (event F)) : Prop :=
  generate_count k tr = (if decide (n ≤ k)%nat then 0 else 1)%nat
  ∧ levels_below n tr
  ∧ ((k < n)%nat → ∃ w, st.2 = Some w ∧ shared_slices self s k n w tr).
End decoder.

End Decoder.

(** ** The coordinate buffers of the decoder *)

Module Coords.

(** A tensor [(N, 2, H, W)] of coordinates, as nested lists. *)
Definition grid : Type := list (list (list (list Q))).

(** [torch.linspace(-1, 1, steps)], taken exactly. *)
Definition linspace (steps : nat) : list Q :=
  (λ i : nat,
     if decide (steps = 1%nat) then (-1)%Q
     else (-1 + 2 * inject_Z (Z.of_nat i) / inject_Z (Z.of_nat steps - 1))%Q)
    <$> seq 0 steps.

(** Lines 204-209.  [torch.meshgrid(y, x)] is [(Y, X)] with
    [Y[i][j] = y[i]] and [X[i][j] = x[j]]; the stack holds [X] first. *)
Definition cache_image_coordinates (h w : nat) : grid :=
  let x := linspace w in
  let y := linspace h in
  let Y := (λ yi, replicate w yi) <$> y in
  let X := replicate h x in
  [[X; Y]].

(** [t.expand(b, -1, -1, -1)]. *)
Definition expand (b : nat) (t : grid) : res grid :=
  match t with
  | [g] => ok (replicate b g)
  | _ => if decide (length t = b) then ok t else raise RuntimeError
  end.

(** The attribute name of line 194 and line 212. *)
Definition cache_name (h w : nat) : string :=
  "coord" +:+ pretty h +:+ "_" +:+ pretty w.

(** Lines 189-195: the buffers registered at construction. *)
Definition register_resolution (levels : nat) (self : gmap string grid)
    (resolution : nat * nat) : gmap string grid :=
  foldl (λ self (i : nat),
           let level_res :=
             (resolution.1 `div` 2 ^ i, resolution.2 `div` 2 ^ i)%nat in
           <[cache_name level_res.1 level_res.2 :=
               cache_image_coordinates level_res.1 level_res.2]> self)
        self (seq 0 levels).

Definition register_coords (levels : nat) (coords_res : option (list (nat * nat)))
    (self : gmap string grid) : gmap string grid :=
  match coords_res with
  | None => self
  | Some rs => foldl (register_resolution levels) self rs
  end.

(** Where a returned grid comes from. *)
Inductive source : Type := Stored | Computed.

Record lookup_result : Type := {
  buffers_after : gmap string grid;
  origin : source;
  value : res grid
}.

(** Lines 211-220.  The buffers are returned as the call leaves them. *)
Definition get_image_coordinates (self : gmap string grid) (b h w : nat)
    : lookup_result :=
  let cache := cache_name h w in
  match self !! cache with
  | Some t =>
      {| buffers_after := self; origin := Stored; value := expand b t |}
  | None =>
      let grid := cache_image_coordinates h w in
      {| buffers_after := self; origin := Computed; value := expand b grid |}
  end.

End Coords.

(** ** The patch engine: the shapes of [HyperPatch.forward] *)

Module Patch.

(** The shape [(B, C, H, W)] of a tensor. *)
Definition shape4 : Type := (nat * nat * nat * nat)%type.

(** The size a [-1] stands for in [reshape] and [view]: [numel] entries,
    [known] the product of the other sizes. *)
Definition infer_dim (numel known : nat) : res nat :=
  if decide (known = 0) then raise RuntimeError
  else if decide (numel `mod` known = 0) then ok (numel `div` known)
  else raise RuntimeError.

(** [F.pad(x, (left, right, top, bottom), mode)] on a 4-d tensor. *)
Definition pad (x : shape4) (p : nat * nat * nat * nat) (mode : string)
    : res shape4 :=
  let '(b, c, h, w) := x in
  let '(p_left, p_right, p_top, p_bottom) := p in
  let padded := (b, c, h + p_top + p_bottom, w + p_left + p_right) in
  if decide (mode = "reflect") then
    if decide (p_left < w ∧ p_right < w ∧ p_top < h ∧ p_bottom < h)
    then ok padded else raise RuntimeError
  else if decide (mode = "replicate") then
    if decide (0 < h ∧ 0 < w) then ok padded else raise RuntimeError
  else if decide (mode = "circular") then
    if decide (p_left ≤ w ∧ p_right ≤ w ∧ p_top ≤ h ∧ p_bottom ≤ h)
    then ok padded else raise RuntimeError
  else raise NotImplementedError.

(** The number of sliding blocks along one axis. *)
Definition blocks (size kernel stride : nat) : nat :=
  (size - kernel) `div` stride + 1.

(** [F.unfold(x, kernel_size, stride=stride)]: [(B, C * kh * kw, L)]. *)
Definition unfold (x : shape4) (kernel_size stride : nat * nat)
    : res (nat * nat * nat) :=
  let '(b, c, h, w) := x in
  if decide (kernel_size.1 = 0 ∨ kernel_size.2 = 0 ∨ stride.1 = 0 ∨ stride.2 = 0)
  then raise RuntimeError
  else if decide (h < kernel_size.1 ∨ w < kernel_size.2) then raise RuntimeError
  else ok (b, c * kernel_size.1 * kernel_size.2,
           blocks h kernel_size.1 stride.1 * blocks w kernel_size.2 stride.2).

(** [F.fold(x, output_size, kernel_size, stride=stride)]. *)
Definition fold (x : nat * nat * nat) (output_size kernel_size stride : nat * nat)
    : res shape4 :=
  let '(b, ck, l) := x in
  if decide (kernel_size.1 = 0 ∨ kernel_size.2 = 0 ∨ stride.1 = 0 ∨ stride.2 = 0)
  then raise RuntimeError
  else if decide (ck `mod` (kernel_size.1 * kernel_size.2) ≠ 0)
  then raise RuntimeError
  else if decide (output_size.1 < kernel_size.1 ∨ output_size.2 < kernel_size.2)
  then raise RuntimeError
  else if decide (l ≠ blocks output_size.1 kernel_size.1 stride.1
                      * blocks output_size.2 kernel_size.2 stride.2)
  then raise RuntimeError
  else ok (b, ck `div` (kernel_size.1 * kernel_size.2),
           output_size.1, output_size.2).

Record hyper_patch : Type := {
  padding : nat * nat;
  padding_mode : string
}.

(** Lines 498-508. *)
Definition new (padding : nat * nat) (padding_mode : string) : res hyper_patch :=
  if bool_decide (padding_mode ∈ ["zeros"; "reflect"; "replicate"; "circular"])
  then ok {| padding := padding; padding_mode := padding_mode |}
  else raise ValueError.

Section forward.
(** [self.hyper_module(x, weight)] on shapes: [x] is [(N, C, kh, kw)] and
    [weight] is [(rows, params)]. *)
Variable hyper_module : shape4 → nat * nat → res shape4.

(** Lines 514-527, on shapes. *)
Definition forward (self : hyper_patch) (x weight : shape4) : res shape4 :=
  let '(b, c, h, w) := x in
  let '(wb, params, fh, fw) := weight in
  if decide (fh = 0 ∨ fw = 0) then raise ZeroDivisionError
  else
    let ph := h `div` fh in
    let pw := w `div` fw in
    let kh := ph + (padding self).1 * 2 in
    let kw := pw + (padding self).2 * 2 in
    rows ←r infer_dim (wb * fh * fw * params) params;
    x ←r pad x ((padding self).1, (padding self).2,
                (padding self).1, (padding self).2) (padding_mode self);
    u ←r unfold x (kh, kw) (ph, pw);
    n ←r infer_dim (u.1.1 * u.1.2 * u.2) (c * kh * kw);
    y ←r hyper_module (n, c, kh, kw) (rows, params);
    let '(yn, yc, yh, yw) := y in
    d ←r infer_dim (yn * yc * yh * yw) (b * (fh * fw) * (ph * pw));
    cf ←r infer_dim (b * d * (ph * pw) * (fh * fw)) (b * (fh * fw));
    fold (b, cf, fh * fw) (h, w) (ph, pw) (ph, pw).
End forward.

(** Modelled from the spec: [MetaConv2d] (models/layers/meta_conv.py) is
    imported but not among the sources.  Section 4.3, steps 3 and 4: the
    weight row of each flattened-batch element is reshaped into the layout
    [(outChannels, inChannels / groups, kh', kw')] and one convolution with
    [groups = N * groups] applies to every element its own kernel (stride
    1, no padding). *)
Definition meta_conv2d (in_channels out_channels : nat) (kernel_size : nat * nat)
    (groups : nat) (x : shape4) (weight : nat * nat) : res shape4 :=
  let '(n, c, h, w) := x in
  if decide (groups = 0) then raise RuntimeError
  else if decide (c ≠ in_channels) then raise RuntimeError
  else if decide (weight.1 ≠ n) then raise RuntimeError
  else if decide (weight.2 ≠ out_channels * (in_channels `div` groups)
                               * kernel_size.1 * kernel_size.2)
  then raise RuntimeError
  else if decide (h < kernel_size.1 ∨ w < kernel_size.2) then raise RuntimeError
  else ok (n, out_channels, h - kernel_size.1 + 1, w - kernel_size.2 + 1).

End Patch.

(** Feature tensors seen through their shapes, for evaluating the decoder
    on examples. *)
#[export] Instance shape_TensorOps : Decoder.TensorOps Patch.shape4 := {|
  Decoder.batch := λ t, t.1.1.1;
  Decoder.spatial := λ t, (t.1.2, t.2);
  Decoder.interpolate := λ t size, (t.1.1.1, t.1.1.2, size.1, size.2);
  Decoder.cat := λ a b, (a.1.1.1, a.1.1.2 + b.1.1.2, a.1.2, a.2)
|}.

(** ** The order of the calls of a pass *)

Module DecoderLog.
Import Decoder.

(** A log without the weights: which generator and which level block was
    called, in order. *)
Definition calls {F} (tr : list (event F)) : list (nat + nat) :=
  (λ e, match e with
        | EvGenerate block => inl block
        | EvLevel level _ => inr level
        end) <$> tr.

(** The calls of lines 225-249 for one level: the level's generator when
    the level is not above [k = unify_level - 1], then the level block. *)
Definition level_calls (k level : nat) : list (nat + nat) :=
  (if decide (level ≤ k) then [inl level] else []) ++ [inr level].

Definition schedule (k levels : nat) : list (nat + nat) :=
  mjoin (level_calls k <$> seq 0 levels).

End DecoderLog.

(** ** The names of the coordinate buffers *)

Module CoordsNames.

(** A string that does not hold the separator ["_"] of [Coords.cache_name]. *)
Fixpoint no_separator (s : string) : Prop :=
  match s with
  | EmptyString => True
  | String c s' => String c "" ≠ "_" ∧ no_separator s'
  end.

(** The resolutions [__init__] registers a buffer for (lines 190-195). *)
Definition registered (levels : nat) (coords_res : option (list (nat * nat)))
    (h w : nat) : Prop :=
  ∃ rs r i, coords_res = Some rs ∧ r ∈ rs ∧ i < levels
            ∧ h = r.1 `div` 2 ^ i ∧ w = r.2 `div` 2 ^ i.

(** What the buffers hold after construction: grids of registered
    resolutions, each under the name of its resolution. *)
Definition well_named (levels : nat) (coords_res : option (list (nat * nat)))
    (self : gmap string Coords.grid) : Prop :=
  ∀ name t, self !! name = Some t →
    ∃ h w, name = Coords.cache_name h w
           ∧ t = Coords.cache_image_coordinates h w
           ∧ registered levels coords_res h w.

End CoordsNames.

(** ** The patch convolution without padding: [HyperPatchNoPadding] *)

Module NoPadding.
Import Patch.

(** [F.conv2d(x, weight, bias=None, stride=stride, dilation=dilation,
    groups=groups)] on shapes: [x] is [(N, C, H, W)], [weight] is
    [(out, C / groups, kh, kw)], no padding. *)
Definition conv2d (x weight : shape4) (stride dilation : nat * nat)
    (groups : nat) : res shape4 :=
  let '(n, c, h, w) := x in
  let '(oc, ic, kh, kw) := weight in
  if decide (groups = 0 ∨ stride.1 = 0 ∨ stride.2 = 0
             ∨ dilation.1 = 0 ∨ dilation.2 = 0 ∨ kh = 0 ∨ kw = 0)
  then raise RuntimeError
  else if decide (c ≠ ic * groups) then raise RuntimeError
  else if decide (oc `mod` groups ≠ 0) then raise RuntimeError
  else if decide (h < dilation.1 * (kh - 1) + 1 ∨ w < dilation.2 * (kw - 1) + 1)
  then raise RuntimeError
  else ok (n, oc,
           (h - dilation.1 * (kh - 1) - 1) `div` stride.1 + 1,
           (w - dilation.2 * (kw - 1) - 1) `div` stride.2 + 1).

Record hyper_patch_no_padding : Type := {
  in_channels : nat;
  out_channels : nat;
  kernel_size : nat * nat;
  stride : nat * nat;
  dilation : nat * nat;
  groups : nat;
  hyper_params : nat
}.

(** Lines 469-481, with the pairs [_pair] has made. *)
Definition new (in_channels out_channels : nat) (kernel_size stride dilation : nat * nat)
    (groups : nat) : res hyper_patch_no_padding :=
  if decide (groups = 0) then raise ZeroDivisionError
  else if decide (in_channels `mod` groups ≠ 0) then raise ValueError
  else if decide (out_channels `mod` groups ≠ 0) then raise ValueError
  else ok {| in_channels := in_channels; out_channels := out_channels;
             kernel_size := kernel_size; stride := stride;
             dilation := dilation; groups := groups;
             hyper_params := out_channels * (in_channels `div` groups)
                             * kernel_size.1 * kernel_size.2 |}.

(** Lines 483-494, on shapes.  A [reshape] or [view] to given sizes needs
    as many entries as the tensor has. *)
Definition forward (self : hyper_patch_no_padding) (x weight : shape4)
    : res shape4 :=
  let '(b, c, h, w) := x in
  let '(wb, wc, fh, fw) := weight in
  if decide (fh = 0 ∨ fw = 0) then raise ZeroDivisionError
  else
    let ph := h `div` fh in
    let pw := w `div` fw in
    let weight_shape :=
      (b * fh * fw * out_channels self, in_channels self `div` groups self,
       (kernel_size self).1, (kernel_size self).2) in
    if decide (wb * fh * fw * wc
               ≠ b * fh * fw * out_channels self
                 * (in_channels self `div` groups self)
                 * (kernel_size self).1 * (kernel_size self).2)
    then raise RuntimeError
    else if decide (b * c * h * w ≠ b * c * fh * ph * fw * pw)
    then raise RuntimeError
    else
      cx ←r infer_dim (b * c * fh * ph * fw * pw) (1 * ph * pw);
      y ←r conv2d (1, cx, ph, pw) weight_shape (stride self) (dilation self)
             (b * fh * fw * groups self);
      let '(yn, yc, yh, yw) := y in
      d ←r infer_dim (yn * yc * yh * yw) (b * fh * fw * ph * pw);
      oc ←r infer_dim (b * fh * fw * d * ph * pw) (b * h * w);
      ok (b, oc, h, w).

End NoPadding.

(** ** The model tree: [get_hyper_params] and [init_signal2weights] *)

Module ModuleTree.
Local Open Scope Z_scope.

Section tree.
Context `{FloatOps F}.
Variable initial_weight : Z → Z → list (list F).

(** A module as the two functions see it: a [WeightLayer], or any other
    module with its [named_children] in order. *)
#[local] Unset Elimination Schemes.
Inductive module : Type :=
  | Layer (m : WeightLayer.weight_layer F)
  | Children (ms : list module).
#[local] Set Elimination Schemes.

(** The loop of lines 266-270 over the children [ms], [recurse] being the
    function itself. *)
Fixpoint hyper_params_of_children (recurse : module → list Z)
    (ms : list module) : list Z :=
  match ms with
  | [] => []
  | Layer m :: ms' =>
      WeightLayer.target_params m :: hyper_params_of_children recurse ms'
  | (Children _ as m) :: ms' =>
      recurse m ++ hyper_params_of_children recurse ms'
  end.

(** Lines 262-272. *)
Fixpoint get_hyper_params (model : module) : list Z :=
  match model with
  | Layer _ => []
  | Children ms => hyper_params_of_children get_hyper_params ms
  end.

(** The weight layers below a model, in the order of [named_children]. *)
Fixpoint layers_of_children (recurse : module → list (WeightLayer.weight_layer F))
    (ms : list module) : list (WeightLayer.weight_layer F) :=
  match ms with
  | [] => []
  | Layer m :: ms' => m :: layers_of_children recurse ms'
  | (Children _ as m) :: ms' => recurse m ++ layers_of_children recurse ms'
  end.

Fixpoint layers (model : module) : list (WeightLayer.weight_layer F) :=
  match model with
  | Layer _ => []
  | Children ms => layers_of_children layers ms
  end.

(** The loop of lines 277-284 over the children [ms], with
    [weight_groups] a list.  The two lists are objects that every call
    pops from, so they are threaded through the calls and returned as the
    call leaves them; [signal_index] is a number, and what a call adds to
    it is not seen by its caller. *)
Fixpoint init_children
    (recurse : module → list Z → Z → list Z → res (module * (list Z * list Z)))
    (ms : list module) (signal_features : list Z) (signal_index : Z)
    (weight_groups : list Z) : res (list module * (list Z * list Z)) :=
  match ms with
  | [] => ok ([], (signal_features, weight_groups))
  | Layer m :: ms' =>
      match signal_features, weight_groups with
      | curr_feature_nc :: signal_features', curr_weight_group :: weight_groups' =>
          m' ←r WeightLayer.init_signal2weights initial_weight m
                  curr_feature_nc signal_index curr_weight_group;
          r ←r init_children recurse ms' signal_features'
                 (signal_index + curr_feature_nc) weight_groups';
          ok (Layer m' :: r.1, r.2)
      | _, _ => raise IndexError
      end
  | (Children _ as m) :: ms' =>
      r1 ←r recurse m signal_features signal_index weight_groups;
      r ←r init_children recurse ms' r1.2.1 signal_index r1.2.2;
      ok (r1.1 :: r.1, r.2)
  end.

(** Lines 275-284. *)
Fixpoint init_signal2weights (model : module) (signal_features : list Z)
    (signal_index : Z) (weight_groups : list Z)
    : res (module * (list Z * list Z)) :=
  match model with
  | Layer m => ok (Layer m, (signal_features, weight_groups))
  | Children ms =>
      r ←r init_children init_signal2weights ms signal_features signal_index
             weight_groups;
      ok (Children r.1, r.2)
  end.

(** What a call has done when it returns: the layers below the model took the
    first entries of the two lists, in the order of [get_hyper_params]. *)
Definition served (model model' : module) (sf wg sf' wg' : list Z) : Prop :=
  let n := length (get_hyper_params model) in
  get_hyper_params model' = get_hyper_params model
  ∧ sf' = drop n sf ∧ wg' = drop n wg
  ∧ (n ≤ length sf)%nat ∧ (n ≤ length wg)%nat
  ∧ WeightLayer.target_params <$> layers model' = get_hyper_params model
  ∧ WeightLayer.signal_channels <$> layers model' = Some <$> take n sf.

End tree.
End ModuleTree.

(** ** The decoder's constructor with the arguments as the caller passes them *)

Module DecoderArgs.
Import Decoder.
Local Open Scope Z_scope.

(** [weight_groups] as it is passed: a number (the default is 1) or a
    list. *)
Inductive weight_groups_arg : Type :=
  | GroupsNumber (g : Z)
  | GroupsList (l : list Z).

Section init.
Context `{FloatOps F}.
Variable initial_weight : Z → Z → list (list F).

(** The children of the decoder when line 198 and line 201 walk over them:
    [level_blocks], which hold no weight layer, and [weight_blocks]. *)
Definition tree (blocks : list (WeightLayer.weight_layer F))
    : ModuleTree.module :=
  ModuleTree.Children
    [ModuleTree.Children []; ModuleTree.Children (ModuleTree.Layer <$> blocks)].

(** Lines 136-202, without the construction of the level blocks and of the
    coordinate buffers.  [unify_level] may be [None] (the default);
    the result holds the list object [weight_groups] as the constructor
    leaves it. *)
Definition init (level_params : list Z) (unify_level : option Z)
    (signal_channels : Z) (weight_groups : weight_groups_arg)
    : res (decoder F * weight_groups_arg) :=
  let levels := length level_params in
  built ←r match unify_level with
           | Some unify_level =>
               init_levels level_params unify_level (seq 0 levels) ([], [0])
           | None =>
               if decide (levels = 0%nat) then ok ([], [0]) else raise TypeError
           end;
  let param_groups := ModuleTree.get_hyper_params (tree built.1) in
  min_unit ←r match weight_groups with
              | GroupsNumber _ => raise TypeError
              | GroupsList l => py_max_list l
              end;
  signal_features ←r Alloc.divide_feature signal_channels param_groups min_unit;
  match weight_groups with
  | GroupsNumber _ => raise TypeError
  | GroupsList l =>
      r ←r ModuleTree.init_signal2weights initial_weight (tree built.1)
             signal_features 0 l;
      ok ({| levels := levels; unify_level := default 0 unify_level;
             level_params := level_params;
             weight_blocks := ModuleTree.layers r.1;
             _ranges := built.2; param_groups := param_groups;
             hyper_params := zsum param_groups |},
          GroupsList r.2.2)
  end.

End init.
End DecoderArgs.

(** ** Inference over an image pyramid: [HyperGen.forward] *)

Module Inference.
Import HyperGen.

(** What is passed as [x]: a tensor, a list or tuple of tensors, or
    anything else. *)
Inductive input (F : Type) : Type :=
  | Tensor (x : tensor F)
  | Pyramid (xs : list (tensor F))
  | Other.
Arguments Tensor {F} _.
Arguments Pyramid {F} _.
Arguments Other {F}.

Section forward.
Context `{FloatOps F}.
(** [t.shape[2:]] and [F.interpolate(t, size, mode='bilinear')]. *)
Variable spatial : tensor F → nat * nat.
Variable interpolate : tensor F → nat * nat → tensor F.
(** [process_single_tensor(x, hflip)], lines 54-62: the backbone, the
    weight mapper and the decoder. *)
Variable process_single_tensor : tensor F → bool → res (tensor F).

(** Lines 82-89: the prediction for one pyramid, at the output
    resolution. *)
Definition prediction (self : hypergen) (out_res : nat * nat) (p : tensor F)
    : res (tensor F) :=
  p ←r (if inference_hflip self
        then a ←r process_single_tensor p false;
             b ←r process_single_tensor p true;
             ok (tensor_max a b)
        else process_single_tensor p false);
  ok (if decide (spatial p ≠ out_res) then interpolate p out_res else p).

(** Lines 81-91: the loop, [out] being [None] before the first turn. *)
Fixpoint forward_loop (self : hypergen) (out_res : nat * nat)
    (out : option (tensor F)) (x : list (tensor F)) : res (option (tensor F)) :=
  match x with
  | [] => ok out
  | p :: x' =>
      p ←r prediction self out_res p;
      out ←r gather_results self (Some p) out;
      forward_loop self out_res (Some out) x'
  end.

(** Lines 73-93. *)
Definition forward (self : hypergen) (x : input F) : res (option (tensor F)) :=
  match x with
  | Other => raise AssertionError
  | Tensor x => r ←r process_single_tensor x false; ok (Some r)
  | Pyramid xs =>
      x0 ←r py_index xs 0;
      forward_loop self (spatial x0) None xs
  end.

End forward.

(** The share of the [i]-th of [n] predictions in the result of the
    ['mean'] fusion: [1 / 2 ^ (n - i)], and [1 / 2 ^ (n - 1)] for the
    first. *)
Definition mean_weight (n i : nat) : Q :=
  1 # Z.to_pos (2 ^ Z.of_nat (n - Nat.max i 1)).

Definition qsum (l : list Q) : Q := foldr Qplus 0%Q l.

End Inference.

(** ** The shapes of [HyperPatchInvertedResidual.conv] *)

Module InvertedResidualConv.
Import Patch InvertedResidual.

(** [t.unfold(dimension, size, step)]: the number of windows along a
    dimension of [len] entries. *)
Definition windows (len size step : nat) : res nat :=
  if decide (step = 0) then raise RuntimeError
  else if decide (len < size) then raise RuntimeError
  else ok ((len - size) `div` step + 1).

(** [t.reshape(sizes)] and [t.view(sizes)] with all sizes given: the tensor
    must have as many entries. *)
Definition same_numel (numel sizes : nat) : res () :=
  if decide (numel = sizes) then ok () else raise RuntimeError.

Definition numel (x : shape4) : nat := x.1.1.1 * x.1.1.2 * x.1.2 * x.2.

(** [norm_layer(num_features)] applied to [x]: the check of the channel
    dimension that [nn.BatchNorm2d] makes. *)
Definition norm (num_features : nat) (x : shape4) : res shape4 :=
  if decide (x.1.1.2 = num_features) then ok x else raise RuntimeError.

(** Lines 342-383, on shapes.  The sizes of the block are natural numbers;
    the columns [weight[:, _ranges[i]:_ranges[i + 1]]] are counted on a row
    of [weight.shape[1]] entries. *)
Definition conv (self : block) (padding_mode : string) (x weight : shape4)
    : res shape4 :=
  let '(b, c, h, w) := x in
  let '(wb, wc, fh, fw) := weight in
  let hidden_dim := Z.to_nat (hidden_dim self) in
  let in_nc := Z.to_nat (in_nc self) in
  let out_nc := Z.to_nat (out_nc self) in
  let kernel_size :=
    (Z.to_nat (kernel_size self).1, Z.to_nat (kernel_size self).2) in
  let stride := Z.to_nat (stride self) in
  if decide (fh = 0 ∨ fw = 0) then raise ZeroDivisionError
  else
    let ph := h `div` fh in
    let pw := w `div` fw in
    let kh := ph + 1 * 2 in
    let kw := pw + 1 * 2 in
    x ←r (if decide (padding_mode ≠ "zeros")
          then pad x (1, 1, 1, 1) padding_mode else ok x);
    nh ←r windows x.1.2 kh ph;
    nw ←r windows x.2 kw pw;
    cx ←r infer_dim (b * nh * nw * c * kh * kw) (1 * kh * kw);
    rows ←r infer_dim (wb * fh * fw * wc) wc;
    (* Conv1 *)
    weight1 ←r stage_weight self 0 (replicate wc ());
    _ ←r same_numel (rows * length weight1)
           (b * fh * fw * hidden_dim * in_nc * 1 * 1);
    y ←r NoPadding.conv2d (1, cx, kh, kw)
           (b * fh * fw * hidden_dim, in_nc, 1, 1) (1, 1) (1, 1) (b * fh * fw);
    c1 ←r infer_dim (numel y) (b * fh * fw * kh * kw);
    y ←r norm hidden_dim (b * fh * fw, c1, kh, kw);
    cx ←r infer_dim (numel y) (1 * kh * kw);
    (* Conv2 *)
    weight2 ←r stage_weight self 1 (replicate wc ());
    _ ←r same_numel (rows * length weight2)
           (b * fh * fw * hidden_dim * 1 * kernel_size.1 * kernel_size.2);
    y ←r NoPadding.conv2d (1, cx, kh, kw)
           (b * fh * fw * hidden_dim, 1, kernel_size.1, kernel_size.2)
           (stride, stride) (1, 1) (b * fh * fw * hidden_dim);
    c2 ←r infer_dim (numel y) (b * fh * fw * ph * pw);
    y ←r norm hidden_dim (b * fh * fw, c2, ph, pw);
    cx ←r infer_dim (numel y) (1 * ph * pw);
    (* Conv3 *)
    weight3 ←r stage_weight self 2 (replicate wc ());
    _ ←r same_numel (rows * length weight3)
           (b * fh * fw * out_nc * hidden_dim * 1 * 1);
    y ←r NoPadding.conv2d (1, cx, ph, pw)
           (b * fh * fw * out_nc, hidden_dim, 1, 1) (1, 1) (1, 1) (b * fh * fw);
    c3 ←r infer_dim (numel y) (b * fh * fw * ph * pw);
    y ←r norm out_nc (b * fh * fw, c3, ph, pw);
    d ←r infer_dim (numel y) (b * fh * fw * ph * pw);
    oc ←r infer_dim (b * fh * fw * d * ph * pw) (b * h * w);
    ok (b, oc, h, w).

End InvertedResidualConv.

(** ** The weight mapper: the shapes of [WeightMapper.forward] *)

Module WeightMapper.
Import Patch.

Record weight_mapper : Type := {
  in_channels : nat;
  out_channels : list Z;
  levels : nat;
  training : bool
}.

(** Lines 403-436: the checks of the constructor.  [levels] is the number
    the caller gives; [weight_groups] is [None] for a number.  A new
    [nn.Module] is in training mode. *)
Definition new (in_channels : nat) (out_channels : list Z) (levels : Z)
    (weight_groups : option (list Z)) : res weight_mapper :=
  if negb (0 <? levels)%Z then raise AssertionError
  else if negb ((in_channels `mod` 2) =? 0) then raise AssertionError
  else if negb (match weight_groups with
                | Some l => length l =? length out_channels
                | None => true
                end)
  then raise AssertionError
  else ok {| in_channels := in_channels; out_channels := out_channels;
             levels := Z.to_nat levels; training := true |}.

(** [nn.Module.train(mode)]; [eval()] is [train(False)]. *)
Definition train (mode : bool) (self : weight_mapper) : weight_mapper :=
  {| in_channels := in_channels self; out_channels := out_channels self;
     levels := levels self; training := mode |}.

(** [nn.BatchNorm2d(num_features)] applied to [x]: in training mode a batch
    with one value per channel is refused, then the channel dimension is
    checked. *)
Definition batch_norm (training : bool) (num_features : nat) (x : shape4)
    : res shape4 :=
  if training && ((x.1.1.1 * x.1.2 * x.2) =? 1) then raise ValueError
  else InvertedResidualConv.norm num_features x.

(** [torch.cat((a, b), dim=1)]. *)
Definition cat (a b : shape4) : res shape4 :=
  if decide (a.1.1.1 = b.1.1.1 ∧ a.1.2 = b.1.2 ∧ a.2 = b.2)
  then ok (a.1.1.1, a.1.1.2 + b.1.1.2, a.1.2, a.2)
  else raise RuntimeError.

(** [nn.UpsamplingNearest2d(scale_factor=2)]. *)
Definition upsample (x : shape4) : shape4 :=
  (x.1.1.1, x.1.1.2, 2 * x.1.2, 2 * x.2).

(** [feat.pop(-1)]. *)
Definition pop {A} (feat : list A) : res (A * list A) :=
  match last feat with
  | Some x => ok (x, take (length feat - 1) feat)
  | None => raise IndexError
  end.

Section forward.
Variable self : weight_mapper.

(** [nn.Sequential(nn.Conv2d(c_in, c_out, kernel_size=k, stride=s),
    nn.BatchNorm2d(c_out), nn.ReLU())] on shapes. *)
Definition conv_block (c_in c_out k s : nat) (x : shape4) : res shape4 :=
  y ←r NoPadding.conv2d x (c_out, c_in, k, k) (s, s) (1, 1) 1;
  batch_norm (training self) c_out y.

Definition in_conv : shape4 → res shape4 :=
  conv_block (in_channels self) (in_channels self `div` 2) 1 1.

Definition down_block : shape4 → res shape4 :=
  conv_block (in_channels self `div` 2) (in_channels self `div` 2) 2 2.

Definition up_block : shape4 → res shape4 :=
  conv_block (in_channels self) (in_channels self `div` 2) 1 1.

(** Lines 443-444: [n] turns of the loop. *)
Fixpoint down_stream (n : nat) (feat : list shape4) : res (list shape4) :=
  match n with
  | 0 => ok feat
  | S n' =>
      top ←r py_index feat (-1);
      y ←r down_block top;
      down_stream n' (feat ++ [y])
  end.

(** Lines 453-456: [n] turns of the loop. *)
Fixpoint up_stream (n : nat) (x : shape4) (feat : list shape4)
    : res (shape4 * list shape4) :=
  match n with
  | 0 => ok (x, feat)
  | S n' =>
      p ←r pop feat;
      x ←r cat p.1 x;
      x ←r up_block x;
      up_stream n' (upsample x) p.2
  end.

(** Lines 438-461, on shapes.  Pooling the last feature map to one pixel
    and resizing it back gives a tensor of the shape of that map. *)
Definition forward (x : shape4) : res shape4 :=
  x ←r in_conv x;
  feat ←r down_stream (levels self - 1) [x];
  orig ←r py_index feat (-1);
  let x := if decide ((orig.1.2, orig.2) ≠ (1, 1)) then orig else x in
  r ←r up_stream (levels self - 1) x feat;
  p ←r pop r.2;
  cat p.1 r.1.

End forward.
End WeightMapper.

(** The feature maps that the down stream of the weight mapper lists for
    an input of [h] by [w] pixels: map [k] has half the size of map
    [k - 1], rounded down. *)
Definition pyramid (b c h w n : nat) : list Patch.shape4 :=
  (λ k, (b, c, h `div` 2 ^ k, w `div` 2 ^ k)) <$> seq 0 n.

(* ================================================================== *)
(** * Theorems *)
(* ================================================================== *)

(** ** Sorting, grouping and summation *)

Section list_facts.
Context {A : Type}.
Implicit Types l : list A.

Lemma ins_perm (le : A → A → bool) x l : ins le x l ≡ₚ x :: l.
Proof.
  induction l as [|y l IH]; simpl; [done|].
  destruct (le x y); [done|]. rewrite IH. apply Permutation_swap.
Qed.

Lemma stable_sort_perm (le : A → A → bool) l : stable_sort le l ≡ₚ l.
Proof.
  induction l as [|x l IH]; simpl; [done|].
  rewrite ins_perm. by f_equiv.
Qed.

Lemma stable_sort_length (le : A → A → bool) l :
  length (stable_sort le l) = length l.
Proof. by rewrite stable_sort_perm. Qed.

Section sorted.
Variable le : A → A → bool.
Hypothesis le_total : ∀ x y, le x y = false → le y x = true.
Hypothesis le_trans : ∀ x y z, le x y = true → le y z = true → le x z = true.

Lemma ins_sorted x l :
    StronglySorted (λ a b, le a b = true) l →
    StronglySorted (λ a b, le a b = true) (ins le x l).
Proof.
    induction 1 as [|y l Hs IH Hy]; simpl.
    - repeat constructor.
    - destruct (le x y) eqn:Hxy.
      + constructor; [by constructor|].
        constructor; [done|]. eapply Forall_impl; [exact Hy|].
        intros z Hz. by eapply le_trans.
      + constructor; [done|].
        rewrite ins_perm. constructor; [by apply le_total|done].
Qed.

Lemma stable_sort_sorted l :
    StronglySorted (λ a b, le a b = true) (stable_sort le l).
Proof.
    induction l as [|x l IH]; simpl; [constructor|]. by apply ins_sorted.
Qed.
End sorted.

Lemma groupby_mjoin (key : A → Z) l : mjoin (groupby key l).*2 = l.
Proof.
  induction l as [|x l IH]; simpl; [done|].
  destruct (groupby key l) as [|[k g] rest]; simpl in *.
  - by rewrite <-IH.
  - destruct (key x =? k)%Z; simpl; by rewrite <-IH.
Qed.

Lemma groupby_member (key : A → Z) l k g :
  (k, g) ∈ groupby key l → g ≠ [] ∧ ∀ x, x ∈ g → key x = k.
Proof.
  revert k g. induction l as [|x l IH]; simpl; intros k g Hin.
  { by apply elem_of_nil in Hin. }
  destruct (groupby key l) as [|[k0 g0] rest].
  - apply list_elem_of_singleton in Hin. simplify_eq. split; [done|].
    intros y Hy. apply list_elem_of_singleton in Hy. by subst.
  - destruct (Z.eqb_spec (key x) k0) as [Heq|Hne].
    + apply elem_of_cons in Hin as [Hin|Hin].
      * simplify_eq. split; [done|]. intros y Hy.
        apply elem_of_cons in Hy as [->|Hy]; [done|].
        destruct (IH (key x) g0) as [_ H]; [left|]. by apply H.
      * apply IH. by right.
    + apply elem_of_cons in Hin as [Hin|Hin].
      * simplify_eq. split; [done|]. intros y Hy.
        apply list_elem_of_singleton in Hy. by subst.
      * by apply IH.
Qed.

Lemma groupby_head_key (key : A → Z) x l :
  ∃ g rest, groupby key (x :: l) = (key x, g) :: rest.
Proof.
  simpl. destruct (groupby key l) as [|[k0 g0] rest]; [by eauto|].
  destruct (Z.eqb_spec (key x) k0) as [->|Hne]; eauto.
Qed.

Lemma groupby_keys_sorted (key : A → Z) l :
  StronglySorted (λ a b, (key a ≤ key b)%Z) l →
  StronglySorted Z.lt (groupby key l).*1.
Proof.
  induction 1 as [|x l Hs IH Hx]; simpl; [constructor|].
  destruct l as [|y l]; [repeat constructor|].
  destruct (groupby_head_key key y l) as (g & rest & Hg).
  rewrite Hg in IH |- *. simpl in IH.
  apply StronglySorted_inv in IH as [IH1 IH2].
  destruct (Z.eqb_spec (key x) (key y)) as [Heq|Hne]; simpl.
  - by constructor.
  - apply Forall_cons in Hx as [Hxy _].
    assert (key x < key y)%Z by lia.
    constructor; [by constructor|].
    constructor; [done|]. eapply Forall_impl; [exact IH2|].
    simpl. intros; lia.
Qed.

Lemma groupby_fmap {B} (key : A → Z) (h : B → A) (l : list B) :
  groupby key (h <$> l)
  = (λ kg : Z * list B, (kg.1, h <$> kg.2)) <$> groupby (key ∘ h) l.
Proof.
  induction l as [|x l IH]; csimpl; [done|]. rewrite IH.
  destruct (groupby (key ∘ h) l) as [|[k g] rest]; csimpl; [done|].
  by destruct (key (h x) =? k)%Z.
Qed.

Lemma groupby_ext (key1 key2 : A → Z) l :
  (∀ x, x ∈ l → key1 x = key2 x) → groupby key1 l = groupby key2 l.
Proof.
  induction l as [|x l IH]; simpl; intros Hk; [done|].
  rewrite IH by (intros; apply Hk; by right).
  rewrite (Hk x) by left. done.
Qed.
End list_facts.

Lemma strongly_sorted_impl {A} (R1 R2 : A → A → Prop) (l : list A) :
  (∀ x y, R1 x y → R2 x y) → StronglySorted R1 l → StronglySorted R2 l.
Proof.
  intros HR. induction 1 as [|x l Hs IH Hx]; constructor; [done|].
  eapply Forall_impl; [exact Hx|]. auto.
Qed.

Lemma strongly_sorted_lt_NoDup (l : list Z) : StronglySorted Z.lt l → NoDup l.
Proof.
  induction 1 as [|x l Hs IH Hx]; constructor; [|done].
  intros Hin. rewrite Forall_forall in Hx. specialize (Hx _ Hin). lia.
Qed.

Lemma fmap_lookup_total_seq `{!Inhabited A} (l : list A) :
  (λ i, l !!! i) <$> seq 0 (length l) = l.
Proof.
  apply list_eq. intros i. rewrite list_lookup_fmap.
  destruct (decide (i < length l)) as [Hi|Hi].
  - rewrite (proj2 (lookup_seq 0 (length l) i i)) by done. simpl.
    by rewrite list_lookup_lookup_total_lt.
  - rewrite !lookup_ge_None_2; [done| lia |rewrite length_seq; lia].
Qed.

Lemma zsum_app (l k : list Z) : zsum (l ++ k) = (zsum l + zsum k)%Z.
Proof. induction l as [|x l IH]; simpl; [done|]. rewrite IH. lia. Qed.

Lemma zsum_perm (l k : list Z) : l ≡ₚ k → zsum l = zsum k.
Proof. induction 1; simpl; lia. Qed.

Lemma zsum_insert (l : list Z) (j : nat) (x v : Z) :
  l !! j = Some x → zsum (<[j:=v]> l) = (zsum l - x + v)%Z.
Proof.
  revert j. induction l as [|y l IH]; intros [|j] Hj; simplify_eq/=; [lia|].
  rewrite (IH _ Hj). lia.
Qed.

(** ** Facts about the allocator *)

Module AllocFacts.
Import Alloc.
Local Open Scope Z_scope.

(** *** The groups *)

Lemma argsort_perm (l : list Z) : argsort l ≡ₚ seq 0 (length l).
Proof. apply stable_sort_perm. Qed.

Lemma argsort_sorted (l : list Z) :
  StronglySorted (λ i j, l !!! i ≤ l !!! j) (argsort l).
Proof.
  eapply strongly_sorted_impl; last (apply stable_sort_sorted).
  - intros i j Hij. by apply Z.leb_le in Hij.
  - intros i j Hij. apply Z.leb_gt in Hij. apply Z.leb_le. lia.
  - intros i j k Hij Hjk. apply Z.leb_le in Hij, Hjk. apply Z.leb_le. lia.
Qed.

(** The groups before the sort by weight are the runs of equal value in the
    sorted index list. *)
Lemma out_feat_groups_perm (l : list Z) :
  out_feat_groups l ≡ₚ groupby (λ j, l !!! j) (argsort l).
Proof.
  unfold out_feat_groups. rewrite stable_sort_perm.
  set (indices := argsort l).
  assert (groupby (λ j, l !!! j) indices
          = groupby (λ j, l !!! j) ((λ i, indices !!! i) <$> seq 0 (length indices)))
    as -> by (by rewrite fmap_lookup_total_seq).
  rewrite groupby_fmap.
  erewrite (groupby_ext _ ((λ j, l !!! j) ∘ (λ i, indices !!! i))); [done|].
  intros i Hi. apply elem_of_seq in Hi. simpl.
  by rewrite (list_lookup_total_fmap (λ i, l !!! i) indices i) by lia.
Qed.

Lemma groups_indices (l : list Z) :
  mjoin (out_feat_groups l).*2 ≡ₚ seq 0 (length l).
Proof.
  by rewrite out_feat_groups_perm, groupby_mjoin, argsort_perm.
Qed.

Lemma groups_member (l : list Z) k g :
  (k, g) ∈ out_feat_groups l →
  g ≠ [] ∧ ∀ j, j ∈ g → l !! j = Some k.
Proof.
  intros Hin. pose proof Hin as Hin'.
  rewrite out_feat_groups_perm in Hin.
  apply groupby_member in Hin as [Hne Hkey]. split; [done|].
  intros j Hj. specialize (Hkey _ Hj). simpl in Hkey.
  assert (j ∈ seq 0 (length l)) as Hjs.
  { rewrite <-groups_indices. apply list_elem_of_join. exists g. split; [done|].
    apply list_elem_of_fmap. by exists (k, g). }
  apply elem_of_seq in Hjs. rewrite <-Hkey.
  apply list_lookup_lookup_total_lt. lia.
Qed.

Lemma groups_keys_NoDup (l : list Z) : NoDup (out_feat_groups l).*1.
Proof.
  rewrite out_feat_groups_perm.
  apply strongly_sorted_lt_NoDup, groupby_keys_sorted, argsort_sorted.
Qed.

Lemma groups_indices_NoDup (l : list Z) : NoDup (mjoin (out_feat_groups l).*2).
Proof. rewrite groups_indices. apply NoDup_seq. Qed.

Lemma groups_gsize_pos (l : list Z) g : g ∈ out_feat_groups l → 0 < gsize g.
Proof.
  destruct g as [k g]. intros [Hne _]%groups_member.
  unfold gsize. simpl. destruct g; [done|]. simpl. lia.
Qed.

(** Every consumer sits in the group of its own value. *)
Lemma groups_find (l : list Z) j t :
  l !! j = Some t →
  ∃ p g, out_feat_groups l !! p = Some (t, g) ∧ j ∈ g.
Proof.
  intros Hj.
  assert (j ∈ mjoin (out_feat_groups l).*2) as Hin.
  { rewrite groups_indices. apply elem_of_seq.
    apply lookup_lt_Some in Hj. lia. }
  apply list_elem_of_join in Hin as (g & Hjg & Hg).
  apply list_elem_of_fmap in Hg as ([k g'] & -> & Hg). simpl in *.
  destruct (groups_member _ _ _ Hg) as [_ Hkey].
  specialize (Hkey _ Hjg). simplify_eq.
  apply list_elem_of_lookup in Hg as [p Hp]. eauto.
Qed.

(** *** The scatter *)

Lemma fill_length (v : Z) (js : list nat) (arr : list Z) :
  length (foldl (λ a j, <[j:=v]> a) arr js) = length arr.
Proof.
  revert arr. induction js as [|j js IH]; intros arr; simpl; [done|].
  by rewrite IH, length_insert.
Qed.

Lemma fill_lookup_notin (v : Z) (js : list nat) (arr : list Z) (j : nat) :
  j ∉ js → foldl (λ a j, <[j:=v]> a) arr js !! j = arr !! j.
Proof.
  revert arr. induction js as [|j0 js IH]; intros arr Hj; simpl; [done|].
  apply not_elem_of_cons in Hj as [Hne Hj].
  rewrite IH by done. by apply list_lookup_insert_ne.
Qed.

Lemma fill_lookup_in (v : Z) (js : list nat) (arr : list Z) (j : nat) :
  j ∈ js → (j < length arr)%nat →
  foldl (λ a j, <[j:=v]> a) arr js !! j = Some v.
Proof.
  revert arr. induction js as [|j0 js IH]; intros arr Hj Hlen; simpl.
  { by apply elem_of_nil in Hj. }
  destruct (decide (j ∈ js)) as [Hin|Hnin].
  - apply IH; [done|]. by rewrite length_insert.
  - apply elem_of_cons in Hj as [->|Hj]; [|done].
    rewrite fill_lookup_notin by done. by apply list_lookup_insert_eq.
Qed.

Lemma fill_sum (v : Z) (js : list nat) (arr : list Z) :
  NoDup js → (∀ j, j ∈ js → arr !! j = Some 0) →
  zsum (foldl (λ a j, <[j:=v]> a) arr js) = zsum arr + Z.of_nat (length js) * v.
Proof.
  revert arr. induction js as [|j0 js IH]; intros arr Hnd Hz; simpl; [lia|].
  apply NoDup_cons in Hnd as [Hnin Hnd].
  rewrite IH; [|done|].
  - rewrite (zsum_insert arr j0 0) by (apply Hz; left). lia.
  - intros j Hj. rewrite list_lookup_insert_ne by (intros ->; done).
    apply Hz. by right.
Qed.

Lemma fill_Forall (P : Z → Prop) (v : Z) (js : list nat) (arr : list Z) :
  P v → Forall P arr → Forall P (foldl (λ a j, <[j:=v]> a) arr js).
Proof.
  intros Hv. revert arr. induction js as [|j0 js IH]; intros arr Harr; simpl; [done|].
  apply IH. by apply Forall_insert.
Qed.

Lemma scatter_length mu (gus : list (group * Z)) (arr : list Z) :
  length (foldl (scatter_group mu) arr gus) = length arr.
Proof.
  revert arr. induction gus as [|gu gus IH]; intros arr; csimpl; [done|].
  rewrite IH. apply fill_length.
Qed.

Lemma scatter_lookup_notin mu (gus : list (group * Z)) (arr : list Z) (j : nat) :
  j ∉ mjoin gus.*1.*2 → foldl (scatter_group mu) arr gus !! j = arr !! j.
Proof.
  revert arr. induction gus as [|gu gus IH]; intros arr Hj; csimpl in *; [done|].
  apply not_elem_of_app in Hj as [Hj1 Hj2].
  rewrite IH by done. by apply fill_lookup_notin.
Qed.

Lemma scatter_lookup mu (gus : list (group * Z)) (arr : list Z) p gu (j : nat) :
  NoDup (mjoin gus.*1.*2) → gus !! p = Some gu → j ∈ gu.1.2 →
  (j < length arr)%nat →
  foldl (scatter_group mu) arr gus !! j = Some (entry mu gu).
Proof.
  revert arr p. induction gus as [|gu0 gus IH]; intros arr p Hnd Hp Hj Hlen.
  { done. }
  csimpl in Hnd. apply NoDup_app in Hnd as (Hnd0 & Hdisj & Hnd).
  destruct p as [|p]; csimpl in *.
  - simplify_eq. rewrite scatter_lookup_notin by auto.
    by apply fill_lookup_in.
  - eapply IH; [done..|]. unfold scatter_group. by rewrite fill_length.
Qed.

Lemma scatter_sum mu (gus : list (group * Z)) (arr : list Z) :
  NoDup (mjoin gus.*1.*2) →
  (∀ j, j ∈ mjoin gus.*1.*2 → arr !! j = Some 0) →
  zsum (foldl (scatter_group mu) arr gus)
  = zsum arr + zsum ((λ gu, gsize gu.1 * entry mu gu) <$> gus).
Proof.
  revert arr. induction gus as [|gu gus IH]; intros arr Hnd Hz; csimpl in *; [lia|].
  apply NoDup_app in Hnd as (Hnd0 & Hdisj & Hnd).
  rewrite IH; [|done|].
  - unfold scatter_group at 1. rewrite fill_sum; [unfold gsize; lia|done|].
    intros j Hj. apply Hz, elem_of_app. by left.
  - intros j Hj. unfold scatter_group. rewrite fill_lookup_notin.
    + apply Hz, elem_of_app. by right.
    + intros Hj'. by apply (Hdisj j).
Qed.

Lemma scatter_Forall (P : Z → Prop) mu (gus : list (group * Z)) (arr : list Z) :
  (∀ gu, gu ∈ gus → P (entry mu gu)) → Forall P arr →
  Forall P (foldl (scatter_group mu) arr gus).
Proof.
  revert arr. induction gus as [|gu gus IH]; intros arr Hv Harr; csimpl; [done|].
  apply IH; [intros; apply Hv; by right|].
  apply fill_Forall; [apply Hv; by left|done].
Qed.

(** What the groups take in total never exceeds their units, and is all of
    them when every group has one member. *)
Lemma entries_le mu (gus : list (group * Z)) :
  0 < mu → (∀ gu, gu ∈ gus → 0 < gsize gu.1) →
  zsum ((λ gu, gsize gu.1 * entry mu gu) <$> gus) ≤ zsum gus.*2 * mu.
Proof.
  intros Hmu. induction gus as [|[g u] gus IH]; intros Hpos; csimpl; [lia|].
  assert (0 < gsize g) as Hg by (apply (Hpos (g, u)); left).
  specialize (IH (λ gu H, Hpos gu (list_elem_of_further _ _ _ H))).
  unfold entry at 1; simpl.
  pose proof (Z.mul_div_le u (gsize g) Hg). nia.
Qed.

Lemma entries_eq mu (gus : list (group * Z)) :
  (∀ gu, gu ∈ gus → gsize gu.1 = 1) →
  zsum ((λ gu, gsize gu.1 * entry mu gu) <$> gus) = zsum gus.*2 * mu.
Proof.
  induction gus as [|[g u] gus IH]; intros Hone; csimpl; [lia|].
  assert (gsize g = 1) as Hg by (apply (Hone (g, u)); left).
  specialize (IH (λ gu H, Hone gu (list_elem_of_further _ _ _ H))).
  unfold entry at 1; simpl. rewrite Hg, Z.div_1_r. lia.
Qed.

(** *** The loop *)

Section with_float.
Variable fscale : Z → Z → Z → Q.

Lemma group_units_cons2 units total g g' gs rem :
  group_units fscale units total (g :: g' :: gs) rem
  = (gsize g + Z.min (proposal fscale units total g) rem)
      :: (if rem - Z.min (proposal fscale units total g) rem =? 0
          then gsize <$> (g' :: gs)
          else group_units fscale units total (g' :: gs)
                 (rem - Z.min (proposal fscale units total g) rem)).
Proof. reflexivity. Qed.

Lemma group_units_length units total gs rem :
  length (group_units fscale units total gs rem) = length gs.
Proof.
  revert rem. induction gs as [|g gs IH]; intros rem; [done|].
  destruct gs as [|g' gs]; [done|].
  rewrite group_units_cons2.
  destruct (_ =? 0); cbn [length]; [by rewrite length_fmap|by rewrite IH].
Qed.

(** The loop hands out the units it was given, no more and no less. *)
Lemma group_units_sum units total gs rem :
  gs ≠ [] →
  zsum (group_units fscale units total gs rem) = zsum (gsize <$> gs) + rem.
Proof.
  revert rem. induction gs as [|g gs IH]; intros rem Hne; [done|].
  destruct gs as [|g' gs]; [simpl; lia|].
  rewrite group_units_cons2.
  set (c := Z.min _ rem). change (zsum (?x :: ?l)) with (x + zsum l).
  destruct (Z.eqb_spec (rem - c) 0) as [Hz|Hz].
  - rewrite (fmap_cons gsize g).
    change (zsum (?x :: ?l)) with (x + zsum l). lia.
  - rewrite IH by done. rewrite (fmap_cons gsize g).
    change (zsum (?x :: ?l)) with (x + zsum l). lia.
Qed.

(** *** The whole function *)

Lemma divide_feature_inv in_feature out_features min_unit alloc :
  divide_feature_with fscale in_feature out_features min_unit = inr alloc →
  min_unit ≠ 0 ∧ in_feature `mod` min_unit = 0 ∧ zsum out_features ≠ 0 ∧
  alloc = scatter min_unit (length out_features)
            (zip (out_feat_groups out_features)
                 (group_units fscale (in_feature `div` min_unit)
                    (zsum out_features) (out_feat_groups out_features)
                    (in_feature `div` min_unit
                     - zsum (gsize <$> out_feat_groups out_features)))).
Proof.
  unfold divide_feature_with.
  destruct (Z.eqb_spec min_unit 0); [done|].
  destruct (Z.eqb_spec (in_feature `mod` min_unit) 0); [|done].
  destruct (Z.eqb_spec (zsum out_features) 0); [done|].
  simpl. intros [= <-]. done.
Qed.

Lemma zip_groups_fst units total out_features rem :
  (zip (out_feat_groups out_features)
       (group_units fscale units total (out_feat_groups out_features) rem)).*1
  = out_feat_groups out_features.
Proof. apply fst_zip. by rewrite group_units_length. Qed.

Lemma zip_groups_snd units total out_features rem :
  (zip (out_feat_groups out_features)
       (group_units fscale units total (out_feat_groups out_features) rem)).*2
  = group_units fscale units total (out_feat_groups out_features) rem.
Proof. apply snd_zip. by rewrite group_units_length. Qed.

(** The entry of a consumer is the entry of the group of its value. *)
Lemma divide_feature_lookup in_feature out_features min_unit alloc j p g :
  divide_feature_with fscale in_feature out_features min_unit = inr alloc →
  out_feat_groups out_features !! p = Some g → j ∈ g.2 →
  ∃ u, group_units fscale (in_feature `div` min_unit) (zsum out_features)
         (out_feat_groups out_features)
         (in_feature `div` min_unit
          - zsum (gsize <$> out_feat_groups out_features)) !! p = Some u
       ∧ alloc !! j = Some (entry min_unit (g, u)).
Proof.
  intros (_ & _ & _ & ->)%divide_feature_inv Hp Hj.
  set (us := group_units _ _ _ _ _).
  destruct (lookup_lt_is_Some_2 us p) as [u Hu].
  { unfold us. rewrite group_units_length. by eapply lookup_lt_Some. }
  exists u. split; [done|]. unfold scatter.
  apply (scatter_lookup _ _ _ p (g, u)); simpl.
  - unfold us. rewrite zip_groups_fst. apply groups_indices_NoDup.
  - apply lookup_zip_with_Some. by exists g, u.
  - done.
  - rewrite length_replicate.
    assert (j ∈ seq 0 (length out_features)) as Hs.
    { rewrite <-groups_indices. apply list_elem_of_join. exists g.2.
      split; [done|]. apply list_elem_of_fmap. exists g. split; [done|].
      by eapply list_elem_of_lookup_2. }
    apply elem_of_seq in Hs. lia.
Qed.

End with_float.

Lemma zsum_replicate_0 (n : nat) : zsum (replicate n 0) = 0.
Proof. induction n as [|n IH]; simpl; [done|]. by rewrite IH. Qed.

Lemma zsum_pos (l : list Z) : l ≠ [] → Forall (λ t, 0 < t) l → 0 < zsum l.
Proof.
  intros Hne Hpos. destruct l as [|x l]; [done|].
  apply Forall_cons in Hpos as [Hx Hl]. simpl.
  assert (0 ≤ zsum l); [|lia].
  clear -Hl. induction Hl; simpl; lia.
Qed.

Lemma NoDup_mjoin_elem {A} (ls : list (list A)) (l : list A) :
  NoDup (mjoin ls) → l ∈ ls → NoDup l.
Proof.
  induction ls as [|l0 ls IH]; csimpl; intros Hnd Hin.
  { by apply elem_of_nil in Hin. }
  apply NoDup_app in Hnd as (Hnd0 & _ & Hnd).
  apply elem_of_cons in Hin as [->|Hin]; auto.
Qed.

(** With pairwise distinct values every group is a singleton. *)
Lemma groups_singleton (l : list Z) g :
  NoDup l → g ∈ out_feat_groups l → gsize g = 1.
Proof.
  intros Hnd Hg. destruct g as [k g].
  destruct (groups_member _ _ _ Hg) as [Hne Hkey].
  assert (NoDup g) as Hg'.
  { apply (NoDup_mjoin_elem (out_feat_groups l).*2); [apply groups_indices_NoDup|].
    apply list_elem_of_fmap. by exists (k, g). }
  unfold gsize; simpl. destruct g as [|j1 [|j2 g]]; [done|done|].
  exfalso. apply NoDup_cons in Hg' as [Hnin _]. apply Hnin.
  assert (j1 = j2) as ->; [|left].
  eapply NoDup_lookup; [exact Hnd|apply Hkey..].
  - left.
  - right; left.
Qed.

Lemma groups_nonempty (l : list Z) : l ≠ [] → out_feat_groups l ≠ [].
Proof.
  intros Hne Hnil. pose proof (groups_indices l) as Hperm.
  rewrite Hnil in Hperm. csimpl in Hperm.
  apply Permutation_length in Hperm. rewrite length_seq in Hperm.
  destruct l; simplify_eq/=.
Qed.

(** C1 (as amended): for every valid input ([min_unit] positive, [in_feature]
    divisible by it, a non-empty list of positive [out_features]) the
    allocator returns an array of the length of [out_features], every entry
    of which is a multiple of [min_unit]; the entries sum to at most
    [in_feature], and to exactly [in_feature] when the [out_features] are
    pairwise distinct.  This holds whatever the rounding of the float
    product. *)
Theorem divide_feature_alloc_bounds fscale in_feature out_features min_unit :
  0 < min_unit → in_feature `mod` min_unit = 0 →
  out_features ≠ [] → Forall (λ t, 0 < t) out_features →
  ∃ alloc,
    divide_feature_with fscale in_feature out_features min_unit = inr alloc
    ∧ length alloc = length out_features
    ∧ Forall (λ a, (min_unit | a)) alloc
    ∧ zsum alloc ≤ in_feature
    ∧ (NoDup out_features → zsum alloc = in_feature).
Proof.
  intros Hmu Hmod Hne Hpos.
  pose proof (zsum_pos _ Hne Hpos) as Htot.
  set (units := in_feature `div` min_unit).
  set (gs := out_feat_groups out_features).
  set (us := group_units fscale units (zsum out_features) gs
               (units - zsum (gsize <$> gs))).
  exists (scatter min_unit (length out_features) (zip gs us)).
  assert (zsum (scatter min_unit (length out_features) (zip gs us))
          = zsum ((λ gu, gsize gu.1 * entry min_unit gu) <$> zip gs us)) as Hsum.
  { unfold scatter. rewrite scatter_sum.
    - by rewrite zsum_replicate_0.
    - unfold us, gs. rewrite zip_groups_fst. apply groups_indices_NoDup.
    - unfold us, gs. rewrite zip_groups_fst. intros j Hj.
      rewrite groups_indices in Hj. apply elem_of_seq in Hj.
      apply lookup_replicate_2. lia. }
  assert (zsum (zip gs us).*2 * min_unit = in_feature) as Hunits.
  { unfold us, gs. rewrite zip_groups_snd.
    rewrite group_units_sum by (by apply groups_nonempty).
    pose proof (Z.div_mod in_feature min_unit) as Hdm.
    rewrite Hmod in Hdm. fold units in Hdm. lia. }
  split_and!.
  - unfold divide_feature_with.
    destruct (Z.eqb_spec min_unit 0); [lia|].
    destruct (Z.eqb_spec (in_feature `mod` min_unit) 0); [|done].
    destruct (Z.eqb_spec (zsum out_features) 0); [lia|]. done.
  - unfold scatter. by rewrite scatter_length, length_replicate.
  - unfold scatter. apply scatter_Forall.
    + intros gu _. unfold entry. apply Z.divide_factor_r.
    + apply Forall_replicate. apply Z.divide_0_r.
  - rewrite Hsum, <-Hunits. apply entries_le; [done|].
    intros gu Hgu. apply (groups_gsize_pos out_features).
    rewrite <-(zip_groups_fst fscale units (zsum out_features) out_features
                 (units - zsum (gsize <$> gs))).
    apply list_elem_of_fmap. by exists gu.
  - intros Hnd. rewrite Hsum, <-Hunits. apply entries_eq.
    intros gu Hgu. apply (groups_singleton out_features); [done|].
    rewrite <-(zip_groups_fst fscale units (zsum out_features) out_features
                 (units - zsum (gsize <$> gs))).
    apply list_elem_of_fmap. by exists gu.
Qed.

Lemma divide_feature_alloc_bounds_witness :
  ∃ alloc,
    divide_feature 80 [1; 2; 4] 8 = inr alloc
    ∧ length alloc = 3%nat
    ∧ Forall (λ a, (8 | a)) alloc
    ∧ zsum alloc ≤ 80
    ∧ (NoDup [1; 2; 4] → zsum alloc = 80).
Proof.
  apply (divide_feature_alloc_bounds exact_scale 80 [1; 2; 4] 8).
  - lia.
  - reflexivity.
  - discriminate.
  - repeat constructor.
Defined.

(** C1 (as stated) fails: 24 channels in units of 8 for two consumers that
    both ask for 5 parameters yield [8; 8], which sums to 16. *)
Lemma divide_feature_sum_counterexample :
  ¬ (∀ in_feature out_features min_unit alloc,
       0 < min_unit → in_feature `mod` min_unit = 0 →
       out_features ≠ [] → Forall (λ t, 0 < t) out_features →
       divide_feature in_feature out_features min_unit = inr alloc →
       zsum alloc = in_feature ∧ Forall (λ a, (min_unit | a)) alloc).
Proof.
  intros H.
  destruct (H 24 [5; 5] 8 [8; 8]) as [Hsum _].
  - lia.
  - reflexivity.
  - discriminate.
  - repeat constructor.
  - vm_compute. reflexivity.
  - vm_compute in Hsum. discriminate.
Qed.

(** C8: any two consumers with equal [out_features] values receive equal
    entries of the returned array, whatever the rounding of the float
    product. *)
Theorem divide_feature_equal_targets fscale in_feature out_features min_unit
    alloc (i j : nat) t :
  divide_feature_with fscale in_feature out_features min_unit = inr alloc →
  out_features !! i = Some t → out_features !! j = Some t →
  is_Some (alloc !! i) ∧ alloc !! i = alloc !! j.
Proof.
  intros Hdf Hi Hj.
  destruct (groups_find _ _ _ Hi) as (p1 & g1 & Hp1 & Hg1).
  destruct (groups_find _ _ _ Hj) as (p2 & g2 & Hp2 & Hg2).
  assert (p1 = p2) as <-.
  { apply (NoDup_lookup _ p1 p2 t (groups_keys_NoDup out_features)).
    - apply list_lookup_fmap_Some. by exists (t, g1).
    - apply list_lookup_fmap_Some. by exists (t, g2). }
  simplify_eq.
  destruct (divide_feature_lookup _ _ _ _ _ i _ _ Hdf Hp1 Hg1) as (u1 & Hu1 & ->).
  destruct (divide_feature_lookup _ _ _ _ _ j _ _ Hdf Hp1 Hg2) as (u2 & Hu2 & ->).
  split; [by eexists|]. congruence.
Qed.

Lemma divide_feature_equal_targets_witness :
  is_Some ([16; 16; 32] !! 0%nat) ∧ [16; 16; 32] !! 0%nat = [16; 16; 32] !! 1%nat.
Proof.
  apply (divide_feature_equal_targets exact_scale 64 [10; 10; 20] 8
           [16; 16; 32] 0 1 10).
  - vm_compute. reflexivity.
  - reflexivity.
  - reflexivity.
Defined.

(** *** The proportional share *)

Lemma py_max_ge (a b : Q) : (b <= py_max a b)%Q.
Proof.
  unfold py_max. destruct (Qle_bool b a) eqn:H.
  - by apply Qle_bool_iff.
  - apply Qle_refl.
Qed.

Lemma inject_Z_pos (n : Z) : 0 < n → (0 < inject_Z n)%Q.
Proof. intros. change 0%Q with (inject_Z 0). by rewrite <-Zlt_Qlt. Qed.

Lemma share_ge_1 (v : Q) (n : Z) :
  0 < n → (inject_Z n <= v)%Q → 1 ≤ Qfloor (v / inject_Z n).
Proof.
  intros Hn Hv. change 1 with (Qfloor 1). apply Qfloor_resp_le.
  apply Qle_shift_div_l; [by apply inject_Z_pos|].
  by rewrite Qmult_1_l.
Qed.

Lemma proposal_nonneg fscale units total g :
  0 < gsize g → 0 ≤ proposal fscale units total g.
Proof.
  intros Hn. unfold proposal.
  pose proof (share_ge_1 _ _ Hn (py_max_ge (fscale units total (g.1 * gsize g)) (inject_Z (gsize g)))).
  nia.
Qed.


(** *** The groups served in full *)

Section funded_facts.
Variable fscale : Z → Z → Z → Q.




End funded_facts.






End AllocFacts.

Example divide_feature_spec_example :
  Alloc.divide_feature 64 [10; 10; 20]%Z 8 = inr [16; 16; 32]%Z.
Proof. vm_compute. reflexivity. Qed.

Example divide_feature_single :
  Alloc.divide_feature 64 [5]%Z 8 = inr [64]%Z.
Proof. vm_compute. reflexivity. Qed.

Example divide_feature_pair :
  Alloc.divide_feature 24 [5; 5]%Z 8 = inr [8; 8]%Z.
Proof. vm_compute. reflexivity. Qed.

Example divide_feature_34 :
  Alloc.divide_feature 24 [3; 4]%Z 8 = inr [16; 8]%Z.
Proof. vm_compute. reflexivity. Qed.

(** ** Python slices *)

Lemma py_norm_nonneg (i : Z) (len : nat) :
  (0 ≤ i)%Z → (i ≤ Z.of_nat len)%Z → py_norm i len = Z.to_nat i.
Proof.
  intros H0 Hlen. unfold py_norm.
  destruct (Z.ltb_spec i 0); [lia|]. by rewrite Z.min_l.
Qed.




(** ** Facts about the inference fusion *)

Module HyperGenFacts.
Import HyperGen.


Example gather_results_mean :
  gather_results {| inference_hflip := false; inference_gather := "mean" |}
    (Some [1; 4]%Q) (Some [3; 0]%Q) = ok [(1 + 3) * (1 # 2); (4 + 0) * (1 # 2)]%Q.
Proof. reflexivity. Qed.

Example gather_results_other_name :
  gather_results {| inference_hflip := false; inference_gather := "median" |}
    (Some [1; 4]%Q) (Some [3; 0]%Q) = ok [3; 4]%Q.
Proof. reflexivity. Qed.

Example gather_results_x_none :
  gather_results {| inference_hflip := false; inference_gather := "mean" |}
    None (Some [3; 0]%Q) = raise AssertionError.
Proof. reflexivity. Qed.

End HyperGenFacts.

(** ** Facts about the dynamic inverted-residual block *)

Module InvertedResidualFacts.
Import InvertedResidual.
Local Open Scope Z_scope.

Lemma init_inv in_nc out_nc ks stride expand_ratio blk :
  init in_nc out_nc ks stride expand_ratio = ok blk →
  (stride = 1 ∨ stride = 2)
  ∧ InvertedResidual.in_nc blk = in_nc
  ∧ InvertedResidual.out_nc blk = out_nc
  ∧ hidden_dim blk = py_round (inject_Z in_nc * expand_ratio)%Q
  ∧ use_res_connect blk = (stride =? 1) && (in_nc =? out_nc)
  ∧ ranges blk
    = [0; in_nc * hidden_dim blk;
       in_nc * hidden_dim blk + hidden_dim blk * ks.1 * ks.2;
       in_nc * hidden_dim blk + hidden_dim blk * ks.1 * ks.2
       + hidden_dim blk * out_nc]
  ∧ hyper_params blk
    = in_nc * hidden_dim blk + hidden_dim blk * ks.1 * ks.2
      + hidden_dim blk * out_nc.
Proof.
  unfold init. case_bool_decide as Hs; [|done]. simpl.
  intros [= <-]. simpl. split_and!; try done.
  apply elem_of_cons in Hs as [?|Hs]; [by left|right].
  by apply list_elem_of_singleton in Hs.
Qed.

(** C5: the block returns [x + conv(x, s)] when [stride == 1] and
    [in_nc == out_nc], and [conv(x, s)] unchanged otherwise; the residual
    is added exactly in the first case. *)
Theorem forward_residual_gating `{FloatOps F}
    (conv : block → tensor F → tensor F → tensor F)
    in_nc out_nc ks stride expand_ratio blk (x s : tensor F) :
  init in_nc out_nc ks stride expand_ratio = ok blk →
  (use_res_connect blk = true ↔ stride = 1 ∧ in_nc = out_nc)
  ∧ (stride = 1 ∧ in_nc = out_nc →
     forward conv blk x s = tensor_add x (conv blk x s))
  ∧ (¬ (stride = 1 ∧ in_nc = out_nc) →
     forward conv blk x s = conv blk x s).
Proof.
  intros (_ & _ & _ & _ & Hres & _)%init_inv.
  assert (use_res_connect blk = true ↔ stride = 1 ∧ in_nc = out_nc) as Hiff.
  { rewrite Hres, andb_true_iff, !Z.eqb_eq. done. }
  split_and!; [done|..]; unfold forward.
  - intros Hc. apply Hiff in Hc. by rewrite Hc.
  - intros Hc. destruct (use_res_connect blk); [|done].
    exfalso. by apply Hc, Hiff.
Qed.

Lemma forward_residual_gating_witness :
  ∃ blk, init 8 8 (3, 3) 1 1%Q = ok blk
  ∧ (use_res_connect blk = true ↔ 1 = 1 ∧ 8 = 8)
  ∧ (1 = 1 ∧ 8 = 8 →
     forward (λ _ x _, x) blk [1; 2]%Q [] = tensor_add [1; 2]%Q [1; 2]%Q)
  ∧ (¬ (1 = 1 ∧ 8 = 8) → forward (λ _ x _, x) blk [1; 2]%Q [] = [1; 2]%Q).
Proof.
  eexists. split; [reflexivity|].
  apply (forward_residual_gating (λ _ x _, x) 8 8 (3, 3) 1 1%Q).
  reflexivity.
Defined.

Example forward_no_residual :
  ∀ blk, init 8 4 (3, 3) 1 1%Q = ok blk →
  forward (λ _ x _, x) blk [1; 2]%Q [] = [1; 2]%Q.
Proof. intros blk [= <-]. reflexivity. Qed.

(** *** The range table *)




Example ranges_example :
  ∀ blk, init 4 2 (3, 3) 1 (3 # 2)%Q = ok blk →
  hidden_dim blk = 6 ∧ ranges blk = [0; 24; 78; 90] ∧ hyper_params blk = 90.
Proof. intros blk [= <-]. done. Qed.

Example ranges_zero_hidden :
  ∀ blk, init 1 4 (3, 3) 1 (2 # 5)%Q = ok blk → ranges blk = [0; 0; 0; 0].
Proof. intros blk [= <-]. reflexivity. Qed.

End InvertedResidualFacts.

(** ** Facts about the weight generator *)

Module WeightLayerFacts.
Import WeightLayer.
Local Open Scope Z_scope.


Section layer.
Context `{FloatOps F}.
Variable initial_weight : Z → Z → list (list F).


Lemma init_signal2weights_inv (self layer : weight_layer F) channels index g :
  init_signal2weights initial_weight self channels index g = ok layer →
  0 < g ∧ channels `mod` g = 0
  ∧ target_params layer = target_params self
  ∧ signal_channels layer = Some channels
  ∧ signal_index layer = Some index
  ∧ ∃ conv, signal2weights layer = Some conv
      ∧ in_channels conv = channels
      ∧ groups conv = g
      ∧ next_multiply (target_params self) g = ok (out_channels conv).
Proof.
  unfold init_signal2weights.
  destruct (next_multiply (target_params self) g) as [e|m] eqn:Hnm; [done|].
  simpl. unfold new_conv2d.
  destruct (Z.leb_spec g 0); [done|].
  destruct (Z.eqb_spec (channels `mod` g) 0); [|done].
  destruct (Z.eqb_spec (m `mod` g) 0); [|done].
  simpl. intros [= <-]. simpl. split_and!; try done.
  eexists. split_and!; try done.
Qed.


(** The generated weights read the signal only through the configured
    channel slice. *)
Lemma generate_reads_slice (layer : weight_layer F) (s s' : list (plane F))
    conv index channels :
  signal2weights layer = Some conv →
  signal_index layer = Some index → signal_channels layer = Some channels →
  py_slice index (index + channels) s = py_slice index (index + channels) s' →
  forward layer s = forward layer s'.
Proof.
  intros Hc Hi Hch Heq. unfold forward, apply_signal2weights.
  by rewrite Hc, Hi, Hch, Heq.
Qed.

End layer.


Example next_multiply_5_2 : next_multiply 5 2 = ok 6.
Proof. reflexivity. Qed.

Example generate_example :
  ∀ layer,
    init_signal2weights (λ out n, replicate (Z.to_nat out) (replicate (Z.to_nat n) 1%Q))
      (new 5) 4 2 2 = ok layer →
    forward layer [[1]; [2]; [3]; [4]; [5]; [6]; [7]]%Q
    = ok [[0 + 1 * 4 + 1 * 3]; [0 + 1 * 4 + 1 * 3]; [0 + 1 * 4 + 1 * 3];
          [0 + 1 * 6 + 1 * 5]; [0 + 1 * 6 + 1 * 5]]%Q.
Proof. intros layer [= <-]. vm_compute. reflexivity. Qed.

End WeightLayerFacts.

(** ** Facts about the coordinate buffers *)

Module CoordsFacts.
Import Coords.

Lemma expand_cached (b h w : nat) :
  ∃ g, cache_image_coordinates h w = [g]
       ∧ expand b (cache_image_coordinates h w) = ok (replicate b g).
Proof. by eexists. Qed.

(** C3 (as amended): [get_image_coordinates] leaves the buffers as they
    are, so no grid is ever evicted and none is added.  A grid registered
    under the name of [(h, w)] is returned, broadcast to the batch size,
    without being computed again; when there is none, the grid is computed
    and returned but not stored, and the next call for the same [(h, w)]
    computes it again. *)
Theorem get_image_coordinates_lookup (self : gmap string grid) (b h w : nat) :
  buffers_after (get_image_coordinates self b h w) = self
  ∧ (∀ t, self !! cache_name h w = Some t →
       origin (get_image_coordinates self b h w) = Stored
       ∧ value (get_image_coordinates self b h w) = expand b t)
  ∧ (self !! cache_name h w = None →
       origin (get_image_coordinates self b h w) = Computed
       ∧ value (get_image_coordinates self b h w)
         = expand b (cache_image_coordinates h w)
       ∧ origin (get_image_coordinates
                   (buffers_after (get_image_coordinates self b h w)) b h w)
         = Computed).
Proof.
  unfold get_image_coordinates.
  destruct (self !! cache_name h w) as [t|] eqn:Hc; simpl.
  - split_and!; [done| |done]. intros t' [= <-]. done.
  - split_and!; [done|done|]. intros _. by rewrite Hc.
Qed.

(** C3 (as stated) fails: on a decoder without registered resolutions the
    first call for [(2, 2)] stores nothing, and the second call computes the
    grid again. *)
Lemma get_image_coordinates_counterexample :
  ¬ (∀ (self : gmap string grid) (b h w : nat),
       self !! cache_name h w = None →
       buffers_after (get_image_coordinates self b h w) !! cache_name h w
       = Some (cache_image_coordinates h w)
       ∧ origin (get_image_coordinates
                   (buffers_after (get_image_coordinates self b h w)) b h w)
         = Stored).
Proof.
  intros Hall. destruct (Hall ∅ 1 2 2) as [Hstored _]; [done|].
  unfold get_image_coordinates in Hstored.
  rewrite lookup_empty in Hstored. simpl in Hstored.
  by rewrite lookup_empty in Hstored.
Qed.

(** The resolutions given at construction are registered, each with its
    halvings. *)
Lemma register_fold_keeps (r : nat * nat) (js : list nat)
    (self : gmap string grid) name :
  is_Some (self !! name) →
  is_Some (foldl (λ self (i : nat),
                    <[cache_name (r.1 `div` 2 ^ i) (r.2 `div` 2 ^ i) :=
                        cache_image_coordinates (r.1 `div` 2 ^ i)
                          (r.2 `div` 2 ^ i)]> self)
             self js !! name).
Proof.
  revert self. induction js as [|j js IH]; intros self Hs; simpl; [done|].
  apply IH. rewrite lookup_insert. case_decide; [by eexists|done].
Qed.

Lemma register_resolution_lookup_other levels (self : gmap string grid) r name :
  is_Some (self !! name) →
  is_Some (register_resolution levels self r !! name).
Proof. apply register_fold_keeps. Qed.

Lemma register_resolution_lookup levels (self : gmap string grid) r (i : nat) :
  i < levels →
  is_Some (register_resolution levels self r
             !! cache_name (r.1 `div` 2 ^ i) (r.2 `div` 2 ^ i)).
Proof.
  intros Hi. unfold register_resolution.
  assert (i ∈ seq 0 levels) as Hin by (apply elem_of_seq; lia).
  revert self. induction (seq 0 levels) as [|j js IH]; intros self.
  { by apply elem_of_nil in Hin. }
  simpl. destruct (decide (i ∈ js)) as [Hjs|Hjs]; [by apply IH|].
  apply elem_of_cons in Hin as [->|Hin]; [|done].
  apply (register_fold_keeps r). rewrite lookup_insert_eq. by eexists.
Qed.

Lemma register_coords_lookup levels rs (self : gmap string grid) r (i : nat) :
  r ∈ rs → i < levels →
  is_Some (register_coords levels (Some rs) self
             !! cache_name (r.1 `div` 2 ^ i) (r.2 `div` 2 ^ i)).
Proof.
  intros Hr Hi. simpl. revert self.
  induction rs as [|r0 rs IH]; intros self; [by apply elem_of_nil in Hr|].
  simpl. destruct (decide (r ∈ rs)) as [Hin|Hnin]; [by apply IH|].
  apply elem_of_cons in Hr as [->|Hr]; [|done].
  pose proof (register_resolution_lookup levels self r0 i Hi) as Hs.
  revert Hs. generalize (register_resolution levels self r0).
  clear IH Hnin. induction rs as [|r1 rs IH]; intros m Hm; simpl; [done|].
  apply IH. by apply register_resolution_lookup_other.
Qed.

Example registered_hit :
  origin (get_image_coordinates (register_coords 2 (Some [(4, 4)]) ∅) 3 2 2)
  = Stored.
Proof. vm_compute. reflexivity. Qed.

Example unregistered_miss :
  origin (get_image_coordinates (register_coords 2 (Some [(4, 4)]) ∅) 3 1 1)
  = Computed.
Proof. vm_compute. reflexivity. Qed.

Example linspace_3 : Forall2 Qeq (linspace 3) [-1; 0; 1]%Q.
Proof. repeat constructor. Qed.

Example linspace_1 : linspace 1 = [(-1)%Q].
Proof. reflexivity. Qed.

End CoordsFacts.

(** ** Facts about the patch engine *)

Module PatchFacts.
Import Patch.

Lemma blocks_div (size k : nat) :
  0 < k → k ≤ size → blocks size k k = size `div` k.
Proof.
  intros Hk Hle. unfold blocks.
  replace size with (1 * k + (size - k)) at 2 by lia.
  rewrite Nat.div_add_l by lia. lia.
Qed.

Lemma blocks_padded (size k p : nat) :
  0 < k → k ≤ size → blocks (size + p + p) (k + p * 2) k = size `div` k.
Proof.
  intros Hk Hle. rewrite <-(blocks_div size k) by done. unfold blocks.
  do 2 f_equal. lia.
Qed.

Lemma pad_larger (b c h0 w0 h w p : nat) (mode : string) s0 :
  pad (b, c, h0, w0) (p, p, p, p) mode = ok s0 →
  h0 ≤ h → w0 ≤ w →
  s0 = (b, c, h0 + p + p, w0 + p + p)
  ∧ pad (b, c, h, w) (p, p, p, p) mode = ok (b, c, h + p + p, w + p + p).
Proof.
  unfold pad. intros Hpad Hh Hw.
  repeat case_decide; simplify_eq; try done; exfalso; lia.
Qed.

Lemma unfold_patches (b c h w ph pw p : nat) :
  0 < ph → 0 < pw → ph ≤ h → pw ≤ w →
  unfold (b, c, h + p + p, w + p + p) (ph + p * 2, pw + p * 2) (ph, pw)
  = ok (b, c * (ph + p * 2) * (pw + p * 2), (h `div` ph) * (w `div` pw)).
Proof.
  intros Hph Hpw Hh Hw. unfold unfold. simpl.
  rewrite decide_False by lia. rewrite decide_False by lia.
  by rewrite !blocks_padded by done.
Qed.

Lemma fold_patches (b cf l h w ph pw : nat) :
  0 < ph → 0 < pw → ph ≤ h → pw ≤ w →
  cf `mod` (ph * pw) = 0 → l = (h `div` ph) * (w `div` pw) →
  fold (b, cf, l) (h, w) (ph, pw) (ph, pw) = ok (b, cf `div` (ph * pw), h, w).
Proof.
  intros Hph Hpw Hh Hw Hcf Hl. unfold fold. simpl.
  rewrite decide_False by lia. rewrite decide_False by lia.
  rewrite decide_False by lia.
  rewrite !blocks_div by done. by rewrite decide_False by lia.
Qed.

Lemma fold_inv (b cf l h w ph pw : nat) s :
  fold (b, cf, l) (h, w) (ph, pw) (ph, pw) = ok s →
  cf `mod` (ph * pw) = 0 ∧ s = (b, cf `div` (ph * pw), h, w).
Proof.
  unfold fold. simpl. repeat case_decide; try done.
  intros [= <-]. split; [lia|done].
Qed.

Section forward.
Variable hyper_module : shape4 → nat * nat → res shape4.

(** C2 (as amended): [HyperPatch.forward] has no divisibility check.  With
    [ph = H // fh] and [pw = W // fw] positive, whenever [H // ph = fh] and
    [W // pw = fw] - which does not need [H] or [W] to be multiples - the
    call runs exactly as on the tensor cropped to [(fh * ph, fw * pw)]: if
    that call returns, so does this one, with a result of the full size
    [(H, W)]. *)
Theorem forward_ignores_remainder (self : hyper_patch)
    (b c h w wb params fh fw oc : nat) :
  (padding self).1 = (padding self).2 →
  0 < h `div` fh → 0 < w `div` fw →
  h `div` (h `div` fh) = fh → w `div` (w `div` fw) = fw →
  forward hyper_module self
    (b, c, fh * (h `div` fh), fw * (w `div` fw)) (wb, params, fh, fw)
  = ok (b, oc, fh * (h `div` fh), fw * (w `div` fw)) →
  forward hyper_module self (b, c, h, w) (wb, params, fh, fw)
  = ok (b, oc, h, w).
Proof.
  intros Hpad Hph Hpw Hfh Hfw.
  set (ph := h `div` fh) in *. set (pw := w `div` fw) in *.
  assert (fh ≠ 0) as Hfh0 by (intros ->; unfold ph in Hph; simpl in Hph; lia).
  assert (fw ≠ 0) as Hfw0 by (intros ->; unfold pw in Hpw; simpl in Hpw; lia).
  assert (fh * ph ≤ h) as Hhc by (apply Nat.Div0.mul_div_le).
  assert (fw * pw ≤ w) as Hwc by (apply Nat.Div0.mul_div_le).
  assert (ph ≤ fh * ph) as Hphc by nia.
  assert (pw ≤ fw * pw) as Hpwc by nia.
  assert ((fh * ph) `div` fh = ph) as Hdh
    by (rewrite Nat.mul_comm; apply Nat.div_mul; lia).
  assert ((fw * pw) `div` fw = pw) as Hdw
    by (rewrite Nat.mul_comm; apply Nat.div_mul; lia).
  assert ((fh * ph) `div` ph = fh) as Hbh by (apply Nat.div_mul; lia).
  assert ((fw * pw) `div` pw = fw) as Hbw by (apply Nat.div_mul; lia).
  intros Hcrop. unfold forward in *. rewrite <-Hpad in *.
  set (p := (padding self).1) in *. fold ph pw.
  rewrite Hdh, Hdw in Hcrop.
  rewrite decide_False in Hcrop by lia. rewrite decide_False by lia.
  destruct (infer_dim (wb * fh * fw * params) params) as [e|rows]; [done|].
  cbn [rbind] in *.
  destruct (pad (b, c, fh * ph, fw * pw) (p, p, p, p) (padding_mode self))
    as [e|s0] eqn:Hp0; [done|].
  destruct (pad_larger _ _ _ _ h w _ _ _ Hp0 Hhc Hwc) as [-> ->].
  cbn [rbind] in *. unfold ok at 1. cbn [rbind].
  rewrite unfold_patches in Hcrop by lia.
  rewrite unfold_patches by lia.
  rewrite Hbh, Hbw in Hcrop. rewrite Hfh, Hfw.
  unfold ok in Hcrop at 1. unfold ok at 1. cbn [rbind fst snd] in *.
  destruct (infer_dim _ _) as [e|n]; [done|]. cbn [rbind] in *.
  destruct (hyper_module _ _) as [e|[[[yn yc] yh] yw]]; [done|].
  cbn [rbind] in *.
  destruct (infer_dim _ _) as [e|d]; [done|]. cbn [rbind] in *.
  destruct (infer_dim _ _) as [e|cf]; [done|]. cbn [rbind] in *.
  apply fold_inv in Hcrop as [Hcf [= Hoc]].
  rewrite fold_patches; [by rewrite Hoc|lia..|done|by rewrite Hfh, Hfw].
Qed.

End forward.

Lemma forward_ignores_remainder_witness :
  forward (meta_conv2d 4 5 (3, 3) 1)
    {| padding := (1, 1); padding_mode := "reflect" |}
    (1, 4, 10, 6) (1, 180, 3, 2)
  = ok (1, 5, 10, 6).
Proof.
  apply (forward_ignores_remainder (meta_conv2d 4 5 (3, 3) 1)
           {| padding := (1, 1); padding_mode := "reflect" |}
           1 4 10 6 1 180 3 2 5).
  - reflexivity.
  - simpl. lia.
  - simpl. lia.
  - reflexivity.
  - reflexivity.
  - vm_compute. reflexivity.
Defined.

(** C2 (as stated) fails: a feature tensor of height 10 with a weight grid
    of [fh = 3] is processed without an exception; three rows of patches
    of height 3 are taken and the result has height 10. *)
Lemma forward_shape_counterexample :
  ¬ (∀ hyper_module self (b c h w wb params fh fw : nat),
       0 < fh → 0 < fw →
       h `mod` fh ≠ 0 ∨ w `mod` fw ≠ 0 →
       raises (forward hyper_module self (b, c, h, w) (wb, params, fh, fw))).
Proof.
  intros Hall.
  destruct (Hall (meta_conv2d 4 5 (3, 3) 1)
              {| padding := (1, 1); padding_mode := "reflect" |}
              1 4 10 6 1 180 3 2) as [e He].
  - lia.
  - lia.
  - left. vm_compute. discriminate.
  - vm_compute in He. discriminate.
Qed.

(** When the patches cut from the tensor are not as many as the weight
    grid has entries, the generated kernels do not fit and the call
    raises. *)
Example forward_patch_count_mismatch :
  forward (meta_conv2d 4 5 (3, 3) 1)
    {| padding := (1, 1); padding_mode := "reflect" |}
    (1, 4, 10, 6) (1, 180, 4, 2)
  = raise RuntimeError.
Proof. vm_compute. reflexivity. Qed.

Example forward_divisible :
  forward (meta_conv2d 4 5 (3, 3) 1)
    {| padding := (1, 1); padding_mode := "reflect" |}
    (1, 4, 9, 6) (1, 180, 3, 2)
  = ok (1, 5, 9, 6).
Proof. vm_compute. reflexivity. Qed.

End PatchFacts.

(** ** Facts about the decoder *)

Module DecoderFacts.
Import Decoder.

Lemma py_resolve_nonneg (len : nat) (i : Z) (j : nat) :
  (0 ≤ i)%Z → py_resolve len i = ok j → j = Z.to_nat i ∧ j < len.
Proof.
  intros Hi. unfold py_resolve.
  destruct (Z.ltb_spec i 0); [lia|].
  destruct (Z.ltb_spec i 0); [lia|]. simpl.
  destruct (Z.leb_spec (Z.of_nat len) i); [done|].
  intros [= <-]. lia.
Qed.

Lemma py_index_nonneg {A} (l : list A) (i : Z) (x : A) :
  (0 ≤ i)%Z → py_index l i = ok x → l !! Z.to_nat i = Some x.
Proof.
  intros Hi. unfold py_index.
  destruct (py_resolve (length l) i) as [e|j] eqn:Hj; [done|].
  apply py_resolve_nonneg in Hj as [-> _]; [|done]. simpl.
  destruct (l !! Z.to_nat i); [by intros [= ->]|done].
Qed.

Lemma py_index_last {A} (l : list A) (x : A) : py_index (l ++ [x]) (-1) = ok x.
Proof.
  unfold py_index, py_resolve. rewrite length_app. simpl.
  destruct (Z.ltb_spec (-1 + Z.of_nat (length l + 1)) 0); [lia|].
  destruct (Z.leb_spec (Z.of_nat (length l + 1))
              (-1 + Z.of_nat (length l + 1))); [lia|].
  simpl. replace (Z.to_nat (-1 + Z.of_nat (length l + 1))) with (length l) by lia.
  by rewrite list_lookup_middle.
Qed.

Lemma py_index_lookup {A} (l : list A) (i : nat) (x : A) :
  l !! i = Some x → py_index l (Z.of_nat i) = ok x.
Proof.
  intros Hi. pose proof (lookup_lt_Some _ _ _ Hi) as Hlt.
  unfold py_index, py_resolve.
  destruct (Z.ltb_spec (Z.of_nat i) 0); [lia|].
  destruct (Z.ltb_spec (Z.of_nat i) 0); [lia|].
  destruct (Z.leb_spec (Z.of_nat (length l)) (Z.of_nat i)); [lia|].
  simpl. by rewrite Nat2Z.id, Hi.
Qed.

Lemma py_slice_from_nonneg {A} (a : Z) (l : list A) :
  (0 ≤ a)%Z → (a ≤ Z.of_nat (length l))%Z →
  py_slice_from a l = drop (Z.to_nat a) l.
Proof. intros. unfold py_slice_from. by rewrite py_norm_nonneg. Qed.

(** *** Construction *)

Section construction.
Context `{FloatOps F}.
Variable initial_weight : Z → Z → list (list F).

Lemma offsets_S level_params k n hp :
  drop k level_params !! n = Some hp →
  offsets level_params k (S n)
  = offsets level_params k n
    ++ [zsum (take n (drop k level_params)) + hp]%Z.
Proof.
  intros Hhp. unfold offsets.
  replace (S n + 1) with (S (n + 1)) by lia.
  rewrite seq_S, fmap_app. simpl. do 2 f_equal.
  replace (n + 1) with (S n) by lia.
  rewrite (take_S_r _ _ _ Hhp), zsum_app. simpl. lia.
Qed.

Lemma offsets_last level_params k n :
  py_index (offsets level_params k n) (-1)
  = ok (zsum (take n (drop k level_params))).
Proof.
  unfold offsets. replace (n + 1) with (S n) by lia.
  rewrite seq_S, fmap_app. apply py_index_last.
Qed.

Lemma init_levels_built level_params unify_level (n a : nat)
    (acc built : list (WeightLayer.weight_layer F) * list Z) :
  (1 ≤ unify_level)%Z → (unify_level ≤ Z.of_nat (length level_params))%Z →
  a + n = length level_params →
  init_levels level_params unify_level (seq a n) acc = ok built →
  acc = (WeightLayer.new <$> take (a `min` Z.to_nat (unify_level - 1)) level_params,
         offsets level_params (Z.to_nat (unify_level - 1))
           (a - Z.to_nat (unify_level - 1))) →
  0 < n →
  built = ((WeightLayer.new <$> take (Z.to_nat (unify_level - 1)) level_params)
             ++ [WeightLayer.new
                   (zsum (drop (Z.to_nat (unify_level - 1)) level_params))],
           offsets level_params (Z.to_nat (unify_level - 1))
             (length level_params - Z.to_nat (unify_level - 1))).
Proof.
  intros Hu Hul. set (k := Z.to_nat (unify_level - 1)). revert a acc.
  induction n as [|n IH]; intros a acc Han Hrun Hacc Hn; [lia|].
  simpl in Hrun. unfold init_level in Hrun at 1.
  destruct (lookup_lt_is_Some_2 level_params a ltac:(lia)) as [hp Hhp].
  rewrite (py_index_lookup _ _ _ Hhp) in Hrun. simpl in Hrun.
  destruct (Z.ltb_spec (Z.of_nat a) (unify_level - 1)) as [Hlt|Hge].
  - simpl in Hrun. destruct n as [|n]; [lia|].
    eapply (IH (S a)); [lia|exact Hrun| |lia]. subst acc. cbn [fst snd].
    replace (S a `min` k) with (S a) by lia.
    replace (a `min` k) with a by lia.
    rewrite (take_S_r _ _ _ Hhp), fmap_app.
    f_equal. f_equal; lia.
  - subst acc. simpl in Hrun.
    assert (drop k level_params !! (a - k) = Some hp) as Hhp'.
    { rewrite lookup_drop. by replace (k + (a - k)) with a by lia. }
    rewrite offsets_last in Hrun. simpl in Hrun.
    rewrite <-(offsets_S _ _ _ _ Hhp') in Hrun.
    replace (a `min` k) with k in Hrun by lia.
    destruct (Z.eqb_spec (Z.of_nat a) (Z.of_nat (length level_params) - 1))
      as [Hlast|Hmore].
    + simpl in Hrun. destruct n as [|n]; [|lia]. simpl in Hrun.
      injection Hrun as <-.
      rewrite py_slice_from_nonneg by lia. fold k.
      do 2 f_equal. lia.
    + simpl in Hrun. destruct n as [|n]; [lia|].
      eapply (IH (S a)); [lia|exact Hrun| |lia].
      replace (S a `min` k) with k by lia. do 2 f_equal. lia.
Qed.

Lemma init_signal2weights_targets (blocks blocks' : list (WeightLayer.weight_layer F))
    signal_features weight_groups signal_index :
  init_signal2weights initial_weight blocks signal_features weight_groups
    signal_index = ok blocks' →
  WeightLayer.target_params <$> blocks' = WeightLayer.target_params <$> blocks.
Proof.
  revert blocks' signal_features weight_groups signal_index.
  induction blocks as [|m blocks IH];
    intros blocks' feats groups index Hinit; simpl in Hinit.
  { by injection Hinit as <-. }
  destruct feats as [|nc feats]; [done|].
  destruct groups as [|g groups]; [done|].
  destruct (WeightLayer.init_signal2weights _ _ _ _ _) as [e|m'] eqn:Hm; [done|].
  simpl in Hinit.
  destruct (init_signal2weights _ _ _ _ _) as [e|rest] eqn:Hrest; [done|].
  injection Hinit as <-. csimpl. f_equal; [|by eapply IH].
  by apply WeightLayerFacts.init_signal2weights_inv in Hm as (_ & _ & ? & _).
Qed.

(** The range table of a decoder is fixed at construction: it holds the
    partial sums of the [hyper_params] of the levels from
    [unify_level - 1] on, and the shared generator is asked for their
    total. *)
Lemma init_ranges level_params unify_level signal_channels weight_groups
    (self : decoder F) :
  (1 ≤ unify_level)%Z → (unify_level ≤ Z.of_nat (length level_params))%Z →
  init initial_weight level_params unify_level signal_channels weight_groups
  = ok self →
  levels self = length level_params
  ∧ Decoder.unify_level self = unify_level
  ∧ _ranges self
    = offsets level_params (Z.to_nat (unify_level - 1))
        (length level_params - Z.to_nat (unify_level - 1))
  ∧ length (weight_blocks self) = S (Z.to_nat (unify_level - 1))
  ∧ ∃ m, weight_blocks self !! Z.to_nat (unify_level - 1) = Some m
         ∧ WeightLayer.target_params m
           = zsum (drop (Z.to_nat (unify_level - 1)) level_params).
Proof.
  intros Hu Hul. unfold init. set (k := Z.to_nat (unify_level - 1)).
  destruct (init_levels _ _ _ _) as [e|built] eqn:Hbuilt; [done|].
  apply init_levels_built in Hbuilt; [|done|done|lia| |lia].
  2:{ done. }
  fold k in Hbuilt. subst built. cbn [rbind fst snd].
  destruct (py_max_list weight_groups) as [e|min_unit]; [done|]. cbn [rbind].
  destruct (Alloc.divide_feature _ _ _) as [e|feats]; [done|]. cbn [rbind].
  destruct (init_signal2weights _ _ _ _ _) as [e|blocks] eqn:Hblocks; [done|].
  cbn [rbind]. intros [= <-]. cbn.
  apply init_signal2weights_targets in Hblocks.
  assert (length blocks = S k) as Hlen.
  { rewrite <-(length_fmap WeightLayer.target_params), Hblocks.
    rewrite length_fmap, length_app, length_fmap, length_take. simpl. lia. }
  split_and!; try done.
  destruct (lookup_lt_is_Some_2 blocks k ltac:(lia)) as [m Hm].
  exists m. split; [done|].
  assert ((WeightLayer.target_params <$> blocks) !! k
          = Some (WeightLayer.target_params m)) as Hk
    by (by rewrite list_lookup_fmap, Hm).
  rewrite Hblocks, fmap_app in Hk.
  rewrite lookup_app_r in Hk by (rewrite !length_fmap, length_take; lia).
  rewrite !length_fmap, length_take in Hk.
  replace (k - k `min` length level_params) with 0 in Hk by lia.
  by injection Hk as <-.
Qed.

End construction.

Section decoder.
Context `{FloatOps F} `{TensorOps T}.
Variable level_block : nat → T → list (WeightLayer.plane F) → res T.
Variable image_coordinates : nat → nat * nat → T.
Variable out_fc : option (T → list (WeightLayer.plane F) → res T).

Implicit Types (self : decoder F) (s w : list (WeightLayer.plane F))
  (tr : list (event F)) (st : option T * option (list (WeightLayer.plane F))).

Lemma mbind_lift {A B} (r : res A) (k : A → M F B) tr :
  mbind (lift r) k tr
  = match r with inl e => (tr, inl e) | inr a => k a tr end.
Proof. by destruct r. Qed.

Lemma generate_run self block s tr :
  generate self block s tr
  = (tr ++ [EvGenerate block],
     match weight_blocks self !! block with
     | Some m => WeightLayer.forward m s
     | None => raise IndexError
     end).
Proof.
  unfold generate, mbind, emit, lift. by destruct (weight_blocks self !! block).
Qed.

Lemma run_level_run level p w tr :
  run_level level_block level p w tr
  = (tr ++ [EvLevel level w], level_block level p w).
Proof. reflexivity. Qed.

Lemma generate_count_app k tr1 tr2 :
  generate_count k (tr1 ++ tr2)
  = generate_count (F:=F) k tr1 + generate_count k tr2.
Proof. unfold generate_count. by rewrite filter_app, length_app. Qed.

Lemma generate_count_generate k b :
  generate_count (F:=F) k [EvGenerate b] = if decide (b = k) then 1 else 0.
Proof.
  unfold generate_count. rewrite filter_cons, filter_nil. simpl.
  destruct (decide (b = k)) as [Heq|Hne].
  - by rewrite decide_True by (by apply bool_decide_pack).
  - rewrite decide_False; [done|]. by intros ?%bool_decide_unpack.
Qed.

Lemma generate_count_level k level w :
  generate_count (F:=F) k [EvLevel level w] = 0.
Proof. done. Qed.

Lemma generate_count_cons_generate k b tr :
  generate_count (F:=F) k (EvGenerate b :: tr)
  = (if decide (b = k) then 1 else 0) + generate_count k tr.
Proof.
  change (EvGenerate b :: tr) with ([EvGenerate b] ++ tr).
  by rewrite generate_count_app, generate_count_generate.
Qed.

Lemma generate_count_cons_level k level w tr :
  generate_count (F:=F) k (EvLevel level w :: tr) = generate_count k tr.
Proof. reflexivity. Qed.

Lemma generate_count_nil k : generate_count (F:=F) k [] = 0.
Proof. reflexivity. Qed.

Lemma mbind_run {A B} (m : M F A) (k : A → M F B) tr tr1 (r : res A) :
  m tr = (tr1, r) →
  mbind m k tr = match r with inl e => (tr1, inl e) | inr a => k a tr1 end.
Proof. unfold mbind. intros ->. by destruct r. Qed.

Ltac count_events :=
  rewrite ?generate_count_cons_generate, ?generate_count_cons_level,
    ?generate_count_nil;
  repeat case_decide; simpl; try done; try lia;
  try (intros ?? Hin; repeat (apply elem_of_cons in Hin as [Hin|Hin]);
       simplify_eq; try lia; by apply elem_of_nil in Hin).

(** One turn of the loop: what it appends to the log. *)
Lemma forward_level_run self x s st (level : nat) tr tr' r :
  (1 ≤ unify_level self)%Z →
  forward_level level_block image_coordinates self x s st level tr = (tr', r) →
  let k := Z.to_nat (unify_level self - 1) in
  ∃ evs, tr' = tr ++ evs
    ∧ generate_count k evs ≤ (if decide (level = k) then 1 else 0)
    ∧ levels_below (S level) evs ∧ levels_from level evs
    ∧ ∀ st', r = ok st' →
        ∃ w, st'.2 = Some w
          ∧ generate_count k evs = (if decide (level = k) then 1 else 0)
          ∧ (level < k → evs = [EvGenerate level; EvLevel level w])
          ∧ (k ≤ level →
             ∃ r0 r1, _ranges self !! (level - k) = Some r0
               ∧ _ranges self !! (level - k + 1) = Some r1
               ∧ evs = (if decide (level = k) then [EvGenerate k] else [])
                        ++ [EvLevel level (py_slice r0 r1 w)]
               ∧ if decide (level = k)
                 then ∃ m, weight_blocks self !! k = Some m
                           ∧ WeightLayer.forward m s = ok w
                 else st.2 = Some w).
Proof.
  intros Hu Hrun k. unfold forward_level in Hrun.
  rewrite mbind_lift in Hrun.
  destruct (py_resolve _ _) as [e|block] eqn:Hblock.
  { injection Hrun as <- <-. exists []. rewrite app_nil_r.
    split_and!; [done|rewrite generate_count_nil; case_decide; lia|..];
      [by intros ?? ?%elem_of_nil..|done]. }
  apply py_resolve_nonneg in Hblock as [Hblock _]; [|lia].
  rewrite mbind_lift in Hrun.
  destruct (py_index x _) as [e|x_level].
  { injection Hrun as <- <-. exists []. rewrite app_nil_r.
    split_and!; [done|rewrite generate_count_nil; case_decide; lia|..];
      [by intros ?? ?%elem_of_nil..|done]. }
  cbv zeta in Hrun.
  set (p := cat (image_coordinates _ _) _) in Hrun. clearbody p.
  destruct (Z.ltb_spec (Z.of_nat level) (unify_level self - 1)) as [Hlt|Hge].
  - (* a level with its own generator *)
    assert (block = level) as -> by lia.
    rewrite (mbind_run _ _ _ _ _ (generate_run self level s tr)) in Hrun.
    destruct (match weight_blocks self !! level with
              | Some m => WeightLayer.forward m s
              | None => raise IndexError
              end) as [e|w].
    { injection Hrun as <- <-. exists [EvGenerate level]. split_and!; by count_events. }
    rewrite (mbind_run _ _ _ _ _ (run_level_run level p w _)) in Hrun.
    destruct (level_block level p w) as [e|p'].
    { injection Hrun as <- <-. exists [EvGenerate level; EvLevel level w].
      rewrite <-(assoc_L (++)). split_and!; by count_events. }
    injection Hrun as <- <-. exists [EvGenerate level; EvLevel level w].
    rewrite <-(assoc_L (++)). split_and!; try by count_events.
    intros st' [= <-]. exists w. split_and!; try by count_events.
  - (* a level on the shared generator *)
    assert (block = k) as -> by lia.
    destruct (Z.eqb_spec (Z.of_nat level) (unify_level self - 1)) as [Heq|Hne].
    + assert (level = k) as Hk by lia.
      rewrite (mbind_run _ _ tr (tr ++ [EvGenerate k])
                 (rbind (match weight_blocks self !! k with
                         | Some m => WeightLayer.forward m s
                         | None => raise IndexError
                         end) (λ w, ok (Some w)))) in Hrun.
      2:{ rewrite (mbind_run _ _ _ _ _ (generate_run self k s tr)).
          by destruct (match weight_blocks self !! k with
                       | Some m => WeightLayer.forward m s
                       | None => raise IndexError
                       end). }
      destruct (weight_blocks self !! k) as [m|] eqn:Hm; simpl in Hrun.
      2:{ injection Hrun as <- <-. exists [EvGenerate k]. split_and!; by count_events. }
      destruct (WeightLayer.forward m s) as [e|w] eqn:Hw; simpl in Hrun.
      { injection Hrun as <- <-. exists [EvGenerate k]. split_and!; by count_events. }
      cbv beta iota delta [ok] in Hrun. rewrite !mbind_lift in Hrun.
      destruct (py_index (_ranges self) _) as [e|r0] eqn:Hr0 in Hrun.
      { injection Hrun as <- <-. exists [EvGenerate k]. split_and!; by count_events. }
      rewrite mbind_lift in Hrun.
      destruct (py_index (_ranges self) _) as [e|r1] eqn:Hr1 in Hrun.
      { injection Hrun as <- <-. exists [EvGenerate k]. split_and!; by count_events. }
      apply py_index_nonneg in Hr0; [|lia]. apply py_index_nonneg in Hr1; [|lia].
      rewrite (mbind_run _ _ _ _ _ (run_level_run level p _ _)) in Hrun.
      exists [EvGenerate k; EvLevel level (py_slice r0 r1 w)].
      rewrite <-(assoc_L (++)) in Hrun.
      destruct (level_block level p _) as [e|p']; injection Hrun as <- <-;
        (split_and!; try by count_events).
      intros st' [= <-]. exists w. split_and!; try by count_events.
      intros _. exists r0, r1.
      replace (level - k) with (Z.to_nat (Z.of_nat level - unify_level self + 1)) by lia.
      replace (Z.to_nat (Z.of_nat level - unify_level self + 1) + 1)
        with (Z.to_nat (Z.of_nat level - unify_level self + 1 + 1)) by lia.
      split_and!; try done; rewrite ?decide_True by done; eauto.
    + assert (k < level) as Hk by lia.
      rewrite (mbind_run _ _ tr tr (ok st.2)) in Hrun by done.
      cbv beta iota delta [ok] in Hrun. rewrite !mbind_lift in Hrun.
      destruct st.2 as [w|] eqn:Hst.
      2:{ injection Hrun as <- <-. exists []. rewrite app_nil_r. split_and!; by count_events. }
      destruct (py_index (_ranges self) _) as [e|r0] eqn:Hr0 in Hrun.
      { injection Hrun as <- <-. exists []. rewrite app_nil_r. split_and!; by count_events. }
      rewrite mbind_lift in Hrun.
      destruct (py_index (_ranges self) _) as [e|r1] eqn:Hr1 in Hrun.
      { injection Hrun as <- <-. exists []. rewrite app_nil_r. split_and!; by count_events. }
      apply py_index_nonneg in Hr0; [|lia]. apply py_index_nonneg in Hr1; [|lia].
      rewrite ?mbind_lift in Hrun.
      rewrite (mbind_run _ _ _ _ _ (run_level_run level p _ _)) in Hrun.
      exists [EvLevel level (py_slice r0 r1 w)].
      destruct (level_block level p _) as [e|p']; injection Hrun as <- <-;
        (split_and!; try by count_events).
      intros st' [= <-]. exists w. split_and!; try by count_events.
      intros _. exists r0, r1.
      replace (level - k) with (Z.to_nat (Z.of_nat level - unify_level self + 1)) by lia.
      replace (Z.to_nat (Z.of_nat level - unify_level self + 1) + 1)
        with (Z.to_nat (Z.of_nat level - unify_level self + 1 + 1)) by lia.
      split_and!; try done; rewrite ?decide_False by lia; eauto.
Qed.

Lemma levels_below_app n tr1 tr2 :
  levels_below (F:=F) n tr1 → levels_below n tr2 → levels_below n (tr1 ++ tr2).
Proof. intros H1 H2 l w [?|?]%elem_of_app; eauto. Qed.

Lemma levels_from_app n tr1 tr2 :
  levels_from (F:=F) n tr1 → levels_from n tr2 → levels_from n (tr1 ++ tr2).
Proof. intros H1 H2 l w [?|?]%elem_of_app; eauto. Qed.

Lemma levels_below_mono n m tr :
  n ≤ m → levels_below (F:=F) n tr → levels_below m tr.
Proof. intros Hnm Hb l w Hin. specialize (Hb l w Hin). lia. Qed.

Lemma levels_from_mono n m tr :
  m ≤ n → levels_from (F:=F) n tr → levels_from m tr.
Proof. intros Hnm Hb l w Hin. specialize (Hb l w Hin). lia. Qed.

(** A successful turn of the loop keeps the invariant of the pass. *)
Lemma forward_level_inv self x s st st' (level : nat) tr tr' :
  (1 ≤ unify_level self)%Z →
  forward_level level_block image_coordinates self x s st level tr
  = (tr', ok st') →
  pass_inv self s (Z.to_nat (unify_level self - 1)) level st tr →
  pass_inv self s (Z.to_nat (unify_level self - 1)) (S level) st' tr'.
Proof.
  intros Hu Hrun (Hcount & Hbelow & Hshared).
  destruct (forward_level_run _ _ _ _ _ _ _ _ Hu Hrun)
    as (evs & -> & _ & Hevb & Hevf & Hok).
  destruct (Hok st' eq_refl) as (w & Hst' & Hc & Hded & Hsh). clear Hok.
  set (k := Z.to_nat (unify_level self - 1)) in *.
  split_and!.
  - rewrite generate_count_app, Hcount, Hc. repeat case_decide; lia.
  - apply levels_below_app; [|done]. by eapply levels_below_mono; [|done]; lia.
  - intros Hk. exists w. split; [done|].
    destruct (Hsh ltac:(lia)) as (r0 & r1 & Hr0 & Hr1 & Hevs & Hgen).
    destruct (decide (level = k)) as [->|Hne].
    + destruct Hgen as (m & Hm & Hw). simpl in Hevs. subst evs.
      split_and!.
      * eauto.
      * exists tr, [EvLevel k (py_slice r0 r1 w)]. split_and!; [done|done|].
        by count_events.
      * intros l Hl. assert (l = k) as -> by lia. exists r0, r1.
        split_and!; [done|done|..].
        -- apply elem_of_app. right. apply elem_of_cons. right.
           by apply list_elem_of_singleton.
        -- intros w' [Hin|Hin]%elem_of_app.
           ++ specialize (Hbelow _ _ Hin). lia.
           ++ apply elem_of_cons in Hin as [?|Hin]; [done|].
              apply list_elem_of_singleton in Hin. by simplify_eq.
    + destruct (Hshared ltac:(lia)) as (w0 & Hw0 & Hblock & Hsplit & Hlv).
      assert (w0 = w) as -> by congruence. simpl in Hevs. subst evs.
      split_and!.
      * done.
      * destruct Hsplit as (tr1 & tr2 & -> & Hb1 & Hf2).
        exists tr1, (tr2 ++ [EvLevel level (py_slice r0 r1 w)]).
        rewrite <-(assoc_L (++)). split_and!; [done|done|].
        apply levels_from_app; [done|]. eapply levels_from_mono; [|done]. lia.
      * intros l Hl. destruct (decide (l = level)) as [->|Hll].
        -- exists r0, r1. split_and!; [done|done|..].
           ++ apply elem_of_app. right. by apply list_elem_of_singleton.
           ++ intros w' [Hin|Hin]%elem_of_app.
              ** specialize (Hbelow _ _ Hin). lia.
              ** apply list_elem_of_singleton in Hin. by simplify_eq.
        -- destruct (Hlv l ltac:(lia)) as (q0 & q1 & Hq0 & Hq1 & Hin & Huniq).
           exists q0, q1. split_and!; [done|done|..].
           ++ apply elem_of_app. by left.
           ++ intros w' [Hin'|Hin']%elem_of_app; [by apply Huniq|].
              apply list_elem_of_singleton in Hin'. by simplify_eq.
Qed.

Lemma forward_levels_inv self x s (n a : nat) st st' tr tr' :
  (1 ≤ unify_level self)%Z →
  forward_levels level_block image_coordinates self x s (seq a n) st tr
  = (tr', ok st') →
  pass_inv self s (Z.to_nat (unify_level self - 1)) a st tr →
  pass_inv self s (Z.to_nat (unify_level self - 1)) (a + n) st' tr'.
Proof.
  intros Hu. revert a st tr.
  induction n as [|n IH]; intros a st tr Hrun Hinv.
  { injection Hrun as <- <-. by rewrite Nat.add_0_r. }
  simpl in Hrun. unfold mbind in Hrun at 1.
  destruct (forward_level _ _ _ _ _ _ _ _) as [tr1 [e|st1]] eqn:Hstep; [done|].
  replace (a + S n) with (S a + n) by lia.
  eapply IH; [done|]. by eapply forward_level_inv.
Qed.

(** However a pass ends, the shared generator is not called twice. *)
Lemma forward_levels_count self x s (n a : nat) st tr tr' r :
  (1 ≤ unify_level self)%Z →
  forward_levels level_block image_coordinates self x s (seq a n) st tr
  = (tr', r) →
  ∃ evs, tr' = tr ++ evs
    ∧ generate_count (Z.to_nat (unify_level self - 1)) evs
      ≤ (if decide (a ≤ Z.to_nat (unify_level self - 1) < a + n) then 1 else 0).
Proof.
  intros Hu. revert a st tr.
  induction n as [|n IH]; intros a st tr Hrun.
  { injection Hrun as <- <-. exists []. rewrite app_nil_r. split; [done|].
    rewrite generate_count_nil. lia. }
  simpl in Hrun. unfold mbind in Hrun at 1.
  destruct (forward_level _ _ _ _ _ _ _ _) as [tr1 r1] eqn:Hstep.
  destruct (forward_level_run _ _ _ _ _ _ _ _ Hu Hstep)
    as (evs1 & -> & Hc1 & _).
  destruct r1 as [e|st1].
  - injection Hrun as <- <-. exists evs1. split; [done|].
    repeat case_decide; lia.
  - destruct (IH _ _ _ Hrun) as (evs2 & -> & Hc2).
    exists (evs1 ++ evs2). rewrite (assoc_L (++)). split; [done|].
    rewrite generate_count_app. repeat case_decide; lia.
Qed.

(** C6: in a forward pass of a decoder with [1 <= unify_level <= levels]
    the shared generator [weight_blocks[unify_level - 1]] is called at most
    once, and exactly once when the pass returns: at level
    [unify_level - 1], after the levels below it have run and before any
    other; every level from there on runs once, on the slice
    [[_ranges[i], _ranges[i + 1])] of that one result, with
    [i = level - unify_level + 1]. *)
Theorem shared_generator_once self x s tr r :
  (1 ≤ unify_level self)%Z → (unify_level self ≤ Z.of_nat (levels self))%Z →
  forward level_block image_coordinates out_fc self x s [] = (tr, r) →
  generate_count (Z.to_nat (unify_level self - 1)) tr ≤ 1
  ∧ ∀ p, r = ok p →
      generate_count (Z.to_nat (unify_level self - 1)) tr = 1
      ∧ ∃ w, shared_slices self s (Z.to_nat (unify_level self - 1))
               (levels self) w tr.
Proof.
  intros Hu Hul Hrun. set (k := Z.to_nat (unify_level self - 1)).
  unfold forward in Hrun. unfold mbind in Hrun at 1.
  destruct (forward_levels _ _ _ _ _ _ _ _) as [tr0 r0] eqn:Hloop.
  destruct (forward_levels_count _ _ _ _ _ _ _ _ _ Hu Hloop)
    as (evs & Htr0 & Hcount).
  simpl in Htr0. subst tr0.
  assert (tr = evs ∧ ∀ p, r = ok p → ∃ st', r0 = ok st') as [-> Hok].
  { destruct r0 as [e|st']; [by injection Hrun as <- <-|].
    rewrite mbind_lift in Hrun.
    destruct st'.1; [|by injection Hrun as <- <-].
    cbv beta iota delta [ok] in Hrun. rewrite mbind_lift in Hrun.
    destruct out_fc as [fc|]; [destruct (fc t s); [by injection Hrun as <- <-|]|];
      rewrite mbind_lift in Hrun;
      destruct (py_index x 0); injection Hrun as <- <-; eauto. }
  split; [fold k in Hcount; case_decide; lia|].
  intros p Hp. destruct (Hok p Hp) as [st' ->].
  pose proof (forward_levels_inv _ _ _ _ _ _ _ _ _ Hu Hloop) as Hinv.
  destruct Hinv as (Hc & _ & Hsh).
  { split_and!; [by rewrite generate_count_nil, decide_True by lia| |simpl; lia].
    by intros ?? ?%elem_of_nil. }
  fold k in Hc, Hsh. simpl in Hc, Hsh.
  rewrite decide_False in Hc by lia. split; [done|].
  destruct Hsh as (w & _ & Hsl); [lia|]. by exists w.
Qed.

End decoder.

(** A decoder of three levels, the last two on one generator, run on
    shapes. *)
Lemma shared_generator_once_witness :
  ∃ self : decoder Q,
    init (λ out n, replicate (Z.to_nat out) (replicate (Z.to_nat n) 1%Q))
      [8; 6; 4]%Z 2 16 [2; 2]%Z = ok self
    ∧ generate_count (Z.to_nat (unify_level self - 1))
        (forward (λ _ p _, ok (p.1.1.1, 7, p.1.2, p.2))
           (λ b size, (b, 2, size.1, size.2))
           None self [(1, 3, 8, 8); (1, 4, 4, 4); (1, 5, 2, 2)]
           (replicate 16 [1%Q]) []).1 ≤ 1
    ∧ ∀ p,
        (forward (λ _ p _, ok (p.1.1.1, 7, p.1.2, p.2))
           (λ b size, (b, 2, size.1, size.2))
           None self [(1, 3, 8, 8); (1, 4, 4, 4); (1, 5, 2, 2)]
           (replicate 16 [1%Q]) []).2 = ok p →
        generate_count (Z.to_nat (unify_level self - 1))
          (forward (λ _ p _, ok (p.1.1.1, 7, p.1.2, p.2))
             (λ b size, (b, 2, size.1, size.2))
             None self [(1, 3, 8, 8); (1, 4, 4, 4); (1, 5, 2, 2)]
             (replicate 16 [1%Q]) []).1 = 1
        ∧ ∃ w, shared_slices self (replicate 16 [1%Q])
                 (Z.to_nat (unify_level self - 1)) (levels self) w
                 (forward (λ _ p _, ok (p.1.1.1, 7, p.1.2, p.2))
                    (λ b size, (b, 2, size.1, size.2))
                    None self [(1, 3, 8, 8); (1, 4, 4, 4); (1, 5, 2, 2)]
                    (replicate 16 [1%Q]) []).1.
Proof.
  eexists. split; [vm_compute; reflexivity|].
  apply (shared_generator_once
           (λ _ p _, ok (p.1.1.1, 7, p.1.2, p.2)) (λ b size, (b, 2, size.1, size.2))
           None _ [(1, 3, 8, 8); (1, 4, 4, 4); (1, 5, 2, 2)]
           (replicate 16 [1%Q])).
  - simpl. lia.
  - simpl. lia.
  - apply surjective_pairing.
Defined.

(** The log of that pass: the generator of level 0, then the shared
    generator once, its 10 channels cut into 6 for level 1 and 4 for
    level 2. *)
Example forward_log :
  ∀ self : decoder Q,
    init (λ out n, replicate (Z.to_nat out) (replicate (Z.to_nat n) 1%Q))
      [8; 6; 4]%Z 2 16 [2; 2]%Z = ok self →
    _ranges self = [0; 6; 10]%Z
    ∧ (λ e, match e with
            | EvGenerate block => inl block
            | EvLevel level w => inr (level, length w)
            end)
        <$> (forward (λ _ p _, ok (p.1.1.1, 7, p.1.2, p.2))
               (λ b size, (b, 2, size.1, size.2))
               None self [(1, 3, 8, 8); (1, 4, 4, 4); (1, 5, 2, 2)]
               (replicate 16 [1%Q]) []).1
      = [inl 0; inr (0, 8); inl 1; inr (1, 6); inr (2, 4)]
    ∧ (forward (λ _ p _, ok (p.1.1.1, 7, p.1.2, p.2))
         (λ b size, (b, 2, size.1, size.2))
         None self [(1, 3, 8, 8); (1, 4, 4, 4); (1, 5, 2, 2)]
         (replicate 16 [1%Q]) []).2
      = ok (1, 7, 8, 8).
Proof. intros self [= <-]. vm_compute. done. Qed.

(** With [unify_level = 0] no level assigns [w] before it is read. *)
Example forward_unify_level_0 :
  ∀ self : decoder Q,
    init (λ out n, replicate (Z.to_nat out) (replicate (Z.to_nat n) 1%Q))
      [8; 6; 4]%Z 0 16 [2; 2]%Z = ok self →
    forward (λ _ p _, ok (p.1.1.1, 7, p.1.2, p.2))
      (λ b size, (b, 2, size.1, size.2))
      None self [(1, 3, 8, 8); (1, 4, 4, 4); (1, 5, 2, 2)]
      (replicate 16 [1%Q]) []
    = ([], raise UnboundLocalError).
Proof. intros self [= <-]. vm_compute. done. Qed.

End DecoderFacts.

Module AllocMore.
Import Alloc AllocFacts.
Local Open Scope Z_scope.

Lemma groups_gsize_sum (l : list Z) :
  zsum (gsize <$> out_feat_groups l) = Z.of_nat (length l).
Proof.
  pose proof (groups_indices l) as Hperm.
  apply Permutation_length in Hperm. rewrite length_seq in Hperm.
  rewrite <-Hperm. generalize (out_feat_groups l) as gs. clear.
  induction gs as [|g gs IH]; csimpl; [done|].
  rewrite IH, length_app. unfold gsize. lia.
Qed.

Lemma groups_keys (l : list Z) k : k ∈ (out_feat_groups l).*1 ↔ k ∈ l.
Proof.
  split.
  - intros ([k' g] & -> & Hg)%list_elem_of_fmap. simpl.
    destruct (groups_member _ _ _ Hg) as [Hne Hkey].
    destruct g as [|j g]; [done|].
    eapply list_elem_of_lookup_2, Hkey. left.
  - intros (j & Hj)%list_elem_of_lookup_1.
    destruct (groups_find _ _ _ Hj) as (p & g & Hp & _).
    apply list_elem_of_fmap. exists (k, g). split; [done|].
    by eapply list_elem_of_lookup_2.
Qed.

Lemma groups_count (l : list Z) :
  length (out_feat_groups l) = length (remove_dups l).
Proof.
  transitivity (length (out_feat_groups l).*1); [by rewrite length_fmap|].
  apply Permutation_length.
  apply NoDup_Permutation; [apply groups_keys_NoDup|apply NoDup_remove_dups|].
  intros k. rewrite groups_keys. by rewrite elem_of_remove_dups.
Qed.

Lemma divide_feature_length fscale in_feature out_features min_unit alloc :
  divide_feature_with fscale in_feature out_features min_unit = inr alloc →
  length alloc = length out_features.
Proof.
  intros (_ & _ & _ & ->)%divide_feature_inv.
  unfold scatter. by rewrite scatter_length, length_replicate.
Qed.

Lemma divide_feature_ok fscale in_feature out_features min_unit :
  min_unit ≠ 0 → in_feature `mod` min_unit = 0 → zsum out_features ≠ 0 →
  ∃ alloc, divide_feature_with fscale in_feature out_features min_unit = inr alloc.
Proof.
  intros Hmu Hmod Htot. unfold divide_feature_with.
  destruct (Z.eqb_spec min_unit 0); [done|].
  destruct (Z.eqb_spec (in_feature `mod` min_unit) 0); [|done].
  destruct (Z.eqb_spec (zsum out_features) 0); [done|]. by eexists.
Qed.

(** Every index of [out_features] lies in one group. *)
Lemma divide_feature_entry fscale in_feature out_features min_unit alloc j a :
  divide_feature_with fscale in_feature out_features min_unit = inr alloc →
  alloc !! j = Some a →
  ∃ p g u, out_feat_groups out_features !! p = Some g ∧ j ∈ g.2
    ∧ group_units fscale (in_feature `div` min_unit) (zsum out_features)
         (out_feat_groups out_features)
         (in_feature `div` min_unit - Z.of_nat (length out_features)) !! p = Some u
    ∧ a = entry min_unit (g, u).
Proof.
  intros Hdf Ha.
  assert (j < length out_features)%nat as Hj.
  { rewrite <-(divide_feature_length _ _ _ _ _ Hdf). by eapply lookup_lt_Some. }
  destruct (lookup_lt_is_Some_2 _ _ Hj) as [t Ht].
  destruct (groups_find _ _ _ Ht) as (p & g & Hp & Hg).
  destruct (divide_feature_lookup _ _ _ _ _ j _ _ Hdf Hp Hg) as (u & Hu & Hl).
  rewrite groups_gsize_sum in Hu.
  exists p, (t, g), u. split_and!; [done..|congruence].
Qed.

Section with_float.
Variable fscale : Z → Z → Z → Q.

Lemma group_units_ge units total gs rem :
  0 ≤ rem → (∀ g, g ∈ gs → 0 < gsize g) →
  Forall2 (λ g u, gsize g ≤ u) gs (group_units fscale units total gs rem).
Proof.
  revert rem. induction gs as [|g gs IH]; intros rem Hrem Hpos; [constructor|].
  destruct gs as [|g' gs]; [simpl; constructor; [lia|constructor]|].
  rewrite group_units_cons2.
  pose proof (proposal_nonneg fscale units total g (Hpos g ltac:(left))) as Hp.
  constructor; [lia|].
  destruct (Z.eqb_spec (rem - Z.min (proposal fscale units total g) rem) 0).
  - apply Forall2_fmap_r, Forall_Forall2_diag, Forall_forall. intros; unfold compose; lia.
  - apply IH; [lia|]. intros h Hh. apply Hpos. by right.
Qed.

Lemma group_units_head units total g gs rem :
  rem < 0 →
  ∃ u us, group_units fscale units total (g :: gs) rem = u :: us ∧ u < gsize g.
Proof.
  intros Hrem. destruct gs as [|g' gs].
  - eexists _, _. split; [reflexivity|]. lia.
  - rewrite group_units_cons2. eexists _, _. split; [reflexivity|]. lia.
Qed.
End with_float.

(** With at least one unit per consumer every entry is at least one unit. *)
Lemma divide_feature_min_entries fscale in_feature out_features min_unit alloc :
  0 < min_unit →
  Z.of_nat (length out_features) ≤ in_feature `div` min_unit →
  divide_feature_with fscale in_feature out_features min_unit = inr alloc →
  Forall (λ a, min_unit ≤ a) alloc.
Proof.
  intros Hmu Hle Hdf. apply Forall_forall. intros a Ha.
  apply list_elem_of_lookup_1 in Ha as [j Hj].
  destruct (divide_feature_entry _ _ _ _ _ _ _ Hdf Hj)
    as (p & g & u & Hp & Hg & Hu & ->).
  pose proof (group_units_ge fscale (in_feature `div` min_unit)
                (zsum out_features) (out_feat_groups out_features)
                (in_feature `div` min_unit - Z.of_nat (length out_features))
                ltac:(lia) (groups_gsize_pos out_features)) as Hge.
  destruct (Forall2_lookup_l _ _ _ _ _ Hge Hp) as (u' & Hu' & Hgu).
  simplify_eq. unfold entry; simpl.
  pose proof (groups_gsize_pos _ _ (list_elem_of_lookup_2 _ _ _ Hp)) as Hn.
  assert (1 ≤ u `div` gsize g); [|nia].
  apply Z.div_le_lower_bound; lia.
Qed.

(** X1: [divide_feature] gives every consumer at least [min_unit] channels
    exactly when [in_feature] holds at least one unit of [min_unit] channels
    for each consumer; with fewer units some consumer is left with no
    channel at all (an entry that is zero or negative). *)
Theorem divide_feature_starvation fscale in_feature out_features min_unit alloc :
  0 < min_unit →
  divide_feature_with fscale in_feature out_features min_unit = inr alloc →
  Forall (λ a, min_unit ≤ a) alloc
  ↔ Z.of_nat (length out_features) ≤ in_feature `div` min_unit.
Proof.
  intros Hmu Hdf. split; [|intros; by eapply divide_feature_min_entries].
  intros Hall.
  destruct (Z.le_gt_cases (Z.of_nat (length out_features))
              (in_feature `div` min_unit)) as [|Hlt]; [done|exfalso].
  destruct (out_feat_groups out_features) as [|g gs] eqn:Hgs.
  { pose proof (groups_gsize_sum out_features) as Hs. rewrite Hgs in Hs.
    apply divide_feature_inv in Hdf as (_ & _ & Htot & _).
    destruct out_features; simplify_eq/=. }
  assert (g ∈ out_feat_groups out_features) as Hg by (rewrite Hgs; left).
  destruct g as [k js].
  destruct (groups_member _ _ _ Hg) as [Hne _].
  destruct js as [|j js]; [done|].
  destruct (divide_feature_lookup fscale _ _ _ _ j 0%nat (k, j :: js) Hdf)
    as (u & Hu & Ha); [by rewrite Hgs|left|].
  rewrite groups_gsize_sum, Hgs in Hu.
  destruct (group_units_head fscale (in_feature `div` min_unit)
              (zsum out_features) (k, j :: js) gs
              (in_feature `div` min_unit - Z.of_nat (length out_features)))
    as (u' & us & Hus & Hlt'); [lia|].
  rewrite Hus in Hu. simplify_eq/=.
  rewrite Forall_forall in Hall.
  specialize (Hall _ (list_elem_of_lookup_2 _ _ _ Ha)).
  unfold entry in Hall. simpl in Hall.
  pose proof (groups_gsize_pos _ _ Hg) as Hn.
  assert (u `div` gsize (k, j :: js) ≤ 0); [|nia].
  apply Z.lt_succ_r. apply Z.div_lt_upper_bound; lia.
Qed.

Lemma entries_ge mu (gus : list (group * Z)) :
  0 < mu → (∀ gu, gu ∈ gus → 0 < gsize gu.1) →
  (zsum gus.*2 - zsum (gsize <$> gus.*1) + Z.of_nat (length gus)) * mu
  ≤ zsum ((λ gu, gsize gu.1 * entry mu gu) <$> gus).
Proof.
  intros Hmu. induction gus as [|[g u] gus IH]; intros Hpos; csimpl; [lia|].
  assert (0 < gsize g) as Hg by (apply (Hpos (g, u)); left).
  specialize (IH (λ gu H, Hpos gu (list_elem_of_further _ _ _ H))).
  unfold entry at 1; simpl.
  pose proof (Z.div_mod u (gsize g) ltac:(lia)).
  pose proof (Z.mod_pos_bound u (gsize g) Hg). nia.
Qed.

(** The sum of the result, group by group. *)
Lemma divide_feature_sum fscale in_feature out_features min_unit alloc :
  divide_feature_with fscale in_feature out_features min_unit = inr alloc →
  ∃ gus : list (group * Z),
    gus.*1 = out_feat_groups out_features
    ∧ zsum gus.*2 * min_unit = in_feature
    ∧ zsum alloc = zsum ((λ gu, gsize gu.1 * entry min_unit gu) <$> gus).
Proof.
  intros Hdf.
  destruct (divide_feature_inv _ _ _ _ _ Hdf) as (Hmu & Hmod & Htot & ->).
  set (units := in_feature `div` min_unit).
  set (gs := out_feat_groups out_features).
  set (us := group_units fscale units (zsum out_features) gs
               (units - zsum (gsize <$> gs))).
  exists (zip gs us). split_and!.
  - apply zip_groups_fst.
  - unfold us, gs. rewrite zip_groups_snd.
    rewrite group_units_sum.
    + pose proof (Z.div_mod in_feature min_unit Hmu) as Hdm.
      rewrite Hmod in Hdm. fold units in Hdm. lia.
    + apply groups_nonempty. intros ->. done.
  - unfold scatter. rewrite scatter_sum.
    + by rewrite zsum_replicate_0.
    + unfold us, gs. rewrite zip_groups_fst. apply groups_indices_NoDup.
    + unfold us, gs. rewrite zip_groups_fst. intros j Hj.
      rewrite groups_indices in Hj. apply elem_of_seq in Hj.
      apply lookup_replicate_2. lia.
Qed.

Lemma divide_feature_sum_le fscale in_feature out_features min_unit alloc :
  0 < min_unit →
  divide_feature_with fscale in_feature out_features min_unit = inr alloc →
  zsum alloc ≤ in_feature.
Proof.
  intros Hmu Hdf.
  destruct (divide_feature_sum _ _ _ _ _ Hdf) as (gus & Hgs & Hunits & ->).
  rewrite <-Hunits. apply entries_le; [done|].
  intros gu Hgu. apply (groups_gsize_pos out_features).
  rewrite <-Hgs. apply list_elem_of_fmap. by exists gu.
Qed.

(** X2: the channels [divide_feature] hands out fall short of [in_feature]
    by at most [min_unit] for every consumer whose [out_features] value
    repeats an earlier one: the sum of the result lies between
    [in_feature - (len(out_features) - #distinct values) * min_unit] and
    [in_feature]. *)
Theorem divide_feature_loss_bound fscale in_feature out_features min_unit alloc :
  0 < min_unit →
  divide_feature_with fscale in_feature out_features min_unit = inr alloc →
  in_feature
  - (Z.of_nat (length out_features)
     - Z.of_nat (length (remove_dups out_features))) * min_unit
  ≤ zsum alloc
  ∧ zsum alloc ≤ in_feature.
Proof.
  intros Hmu Hdf.
  destruct (divide_feature_sum _ _ _ _ _ Hdf) as (gus & Hgs & Hunits & ->).
  assert (∀ gu, gu ∈ gus → 0 < gsize gu.1) as Hpos.
  { intros gu Hgu. apply (groups_gsize_pos out_features).
    rewrite <-Hgs. apply list_elem_of_fmap. by exists gu. }
  split.
  - pose proof (entries_ge min_unit gus Hmu Hpos) as Hge.
    rewrite Hgs, groups_gsize_sum in Hge.
    rewrite <-groups_count, <-Hgs, length_fmap. lia.
  - rewrite <-Hunits. by apply entries_le.
Qed.

Lemma divide_feature_loss_bound_witness :
  24 - (Z.of_nat (length [5; 5]) - Z.of_nat (length (remove_dups [5; 5]))) * 8
  ≤ zsum [8; 8]
  ∧ zsum [8; 8] ≤ 24.
Proof.
  apply (divide_feature_loss_bound exact_scale 24 [5; 5] 8 [8; 8]).
  - lia.
  - vm_compute. reflexivity.
Defined.

Lemma divide_feature_starvation_witness :
  Forall (λ a, 8 ≤ a) [16; 16; 32]
  ↔ Z.of_nat (length [10; 10; 20]) ≤ 64 `div` 8.
Proof.
  apply (divide_feature_starvation exact_scale 64 [10; 10; 20] 8 [16; 16; 32]).
  - lia.
  - vm_compute. reflexivity.
Defined.

Lemma groups_replicate (n : nat) (t : Z) :
  (0 < n)%nat →
  ∃ js, out_feat_groups (replicate n t) = [(t, js)] ∧ length js = n.
Proof.
  intros Hn.
  pose proof (groups_keys_NoDup (replicate n t)) as Hnd.
  pose proof (groups_gsize_sum (replicate n t)) as Hsum.
  assert (∀ g, g ∈ out_feat_groups (replicate n t) → g.1 = t) as Hkey.
  { intros g Hg. assert (g.1 ∈ replicate n t) as Hin.
    { apply groups_keys. apply list_elem_of_fmap. by exists g. }
    by apply elem_of_replicate in Hin as [-> _]. }
  destruct (out_feat_groups (replicate n t)) as [|[k js] [|h gs]].
  - rewrite length_replicate in Hsum. simpl in Hsum. lia.
  - pose proof (Hkey (k, js) ltac:(left)) as Hk. simpl in Hk. subst k.
    exists js. split; [done|].
    rewrite length_replicate in Hsum. unfold gsize in Hsum. simpl in Hsum. lia.
  - exfalso. csimpl in Hnd. apply NoDup_cons in Hnd as [Hnin _]. apply Hnin.
    pose proof (Hkey (k, js) ltac:(left)) as Hk.
    pose proof (Hkey h ltac:(right; left)) as Hh.
    simpl in Hk. rewrite Hk, <-Hh. left.
Qed.

(** X3: consumers that all ask for the same number of parameters split the
    units evenly, each rounded down to whole units:
    [divide_feature(c, [t] * n, u)] is [n] times [(c // u) // n * u]; the
    [(c // u) mod n] left-over units are given to nobody.  A single
    consumer receives all of [in_feature]. *)
Theorem divide_feature_identical fscale in_feature (n : nat) t min_unit :
  min_unit ≠ 0 → in_feature `mod` min_unit = 0 → (0 < n)%nat → t ≠ 0 →
  divide_feature_with fscale in_feature (replicate n t) min_unit
  = inr (replicate n ((in_feature `div` min_unit) `div` Z.of_nat n * min_unit)).
Proof.
  intros Hmu Hmod Hn Ht.
  destruct (divide_feature_ok fscale in_feature (replicate n t) min_unit)
    as [alloc Hdf]; [done|done| |].
  { assert (zsum (replicate n t) = Z.of_nat n * t) as ->; [|nia].
    clear. induction n as [|n IH]; [done|].
    change (zsum (replicate (S n) t)) with (t + zsum (replicate n t)). lia. }
  rewrite Hdf. f_equal. apply list_eq. intros j.
  pose proof (divide_feature_length _ _ _ _ _ Hdf) as Hlen.
  rewrite length_replicate in Hlen.
  destruct (decide (j < n)%nat) as [Hj|Hj].
  - destruct (lookup_lt_is_Some_2 alloc j ltac:(lia)) as [a Ha].
    rewrite Ha, (lookup_replicate_2 _ _ _ Hj). f_equal.
    destruct (divide_feature_entry _ _ _ _ _ _ _ Hdf Ha)
      as (p & g & u & Hp & Hg & Hu & ->).
    destruct (groups_replicate n t Hn) as (js & Hgs & Hjs).
    rewrite Hgs in Hp, Hu. rewrite length_replicate in Hu.
    destruct p as [|p]; [|done]. simplify_eq/=.
    unfold entry, gsize; simpl. rewrite Hjs. do 2 f_equal. lia.
  - rewrite !lookup_ge_None_2; [done|rewrite length_replicate; lia|lia].
Qed.

Lemma divide_feature_identical_witness :
  divide_feature 24 (replicate 2 5) 8
  = inr (replicate 2 ((24 `div` 8) `div` Z.of_nat 2 * 8)).
Proof.
  apply (divide_feature_identical exact_scale 24 2 5 8); [lia|reflexivity|lia|lia].
Defined.

End AllocMore.

Module DecoderMore.
Import Decoder DecoderFacts.

Section construction.
Context `{FloatOps F}.
Variable initial_weight : Z → Z → list (list F).

(** What [init] has computed when it returns. *)
Lemma decoder_init_inv level_params unify_level signal_channels weight_groups
    (self : decoder F) :
  (1 ≤ unify_level)%Z → (unify_level ≤ Z.of_nat (length level_params))%Z →
  init initial_weight level_params unify_level signal_channels weight_groups
  = ok self →
  let k := Z.to_nat (unify_level - 1) in
  levels self = length level_params
  ∧ Decoder.unify_level self = unify_level
  ∧ Decoder.level_params self = level_params
  ∧ _ranges self = offsets level_params k (length level_params - k)
  ∧ param_groups self = take k level_params ++ [zsum (drop k level_params)]
  ∧ hyper_params self = zsum (param_groups self)
  ∧ ∃ min_unit signal_features,
      py_max_list weight_groups = ok min_unit
      ∧ Alloc.divide_feature signal_channels (param_groups self) min_unit
        = ok signal_features
      ∧ init_signal2weights initial_weight
          (WeightLayer.new <$> param_groups self) signal_features
          weight_groups 0 = ok (weight_blocks self).
Proof.
  intros Hu Hul Hinit k. unfold init in Hinit.
  destruct (init_levels _ _ _ _) as [e|built] eqn:Hbuilt; [done|].
  apply init_levels_built in Hbuilt; [|done|done|lia| |lia].
  2:{ done. }
  fold k in Hbuilt. subst built. cbn [rbind fst snd] in Hinit.
  assert (WeightLayer.target_params <$>
            (WeightLayer.new (F:=F) <$> take k level_params)
            ++ [WeightLayer.new (zsum (drop k level_params))]
          = take k level_params ++ [zsum (drop k level_params)]) as Hpg.
  { rewrite fmap_app, <-list_fmap_compose. csimpl. f_equal.
    apply list_fmap_id. }
  assert ((WeightLayer.new (F:=F) <$> take k level_params)
            ++ [WeightLayer.new (zsum (drop k level_params))]
          = WeightLayer.new <$> (take k level_params ++ [zsum (drop k level_params)]))
    as Hnew by (by rewrite fmap_app).
  rewrite Hpg in Hinit.
  destruct (py_max_list weight_groups) as [e|min_unit]; [done|].
  cbn [rbind] in Hinit.
  destruct (Alloc.divide_feature _ _ _) as [e|feats] eqn:Hfeats; [done|].
  cbn [rbind] in Hinit.
  destruct (init_signal2weights _ _ _ _ _) as [e|blocks] eqn:Hblocks; [done|].
  cbn [rbind] in Hinit. injection Hinit as <-. cbn.
  split_and!; try done.
  exists min_unit, feats. split_and!; try done. by rewrite <-Hnew.
Qed.

Lemma offsets_lookup level_params k n i :
  i ≤ n → offsets level_params k n !! i = Some (zsum (take i (drop k level_params))).
Proof.
  intros Hi. unfold offsets. rewrite list_lookup_fmap.
  by rewrite (proj2 (lookup_seq 0 (n + 1) i i)) by lia.
Qed.

Lemma offsets_length level_params k n : length (offsets level_params k n) = n + 1.
Proof. unfold offsets. by rewrite length_fmap, length_seq. Qed.

(** X4: the range table built by [MultiScaleDecoder.__init__] (with
    [1 <= unify_level <= levels]) starts at 0, has one entry more than there
    are levels from [unify_level - 1] on, and the entries of consecutive
    positions differ by the [hyper_params] of the level they belong to:
    [_ranges[i + 1] = _ranges[i] + level_blocks[unify_level - 1 + i].hyper_params]. *)
Theorem init_range_widths level_params unify_level signal_channels
    weight_groups (self : decoder F) :
  (1 ≤ unify_level)%Z → (unify_level ≤ Z.of_nat (length level_params))%Z →
  init initial_weight level_params unify_level signal_channels weight_groups
  = ok self →
  let k := Z.to_nat (unify_level - 1) in
  _ranges self !! 0 = Some 0%Z
  ∧ length (_ranges self) = length level_params - k + 1
  ∧ ∀ level hp, k ≤ level → level_params !! level = Some hp →
      ∃ r0, _ranges self !! (level - k) = Some r0
            ∧ _ranges self !! (level - k + 1) = Some (r0 + hp)%Z.
Proof.
  intros Hu Hul Hinit k.
  destruct (decoder_init_inv _ _ _ _ _ Hu Hul Hinit) as (_ & _ & _ & -> & _).
  fold k. split_and!.
  - by rewrite offsets_lookup by lia.
  - apply offsets_length.
  - intros level hp Hk Hhp. pose proof (lookup_lt_Some _ _ _ Hhp) as Hlt.
    eexists. split; [apply offsets_lookup; lia|].
    rewrite offsets_lookup by lia. f_equal.
    replace (level - k + 1) with (S (level - k)) by lia.
    assert (drop k level_params !! (level - k) = Some hp) as Hd.
    { rewrite lookup_drop. by replace (k + (level - k)) with level by lia. }
    rewrite (take_S_r _ _ _ Hd), zsum_app. simpl. lia.
Qed.

(** X5: after construction the generators' targets are the
    [hyper_params] of the levels below [unify_level - 1], one by one,
    followed by the sum over all other levels; [param_groups] lists exactly
    these targets, and the decoder's [hyper_params] is the sum over all
    levels: unifying generators does not change the number of generated
    parameters. *)
Theorem init_param_groups level_params unify_level signal_channels
    weight_groups (self : decoder F) :
  (1 ≤ unify_level)%Z → (unify_level ≤ Z.of_nat (length level_params))%Z →
  init initial_weight level_params unify_level signal_channels weight_groups
  = ok self →
  let k := Z.to_nat (unify_level - 1) in
  WeightLayer.target_params <$> weight_blocks self
  = take k level_params ++ [zsum (drop k level_params)]
  ∧ param_groups self = WeightLayer.target_params <$> weight_blocks self
  ∧ hyper_params self = zsum level_params.
Proof.
  intros Hu Hul Hinit k.
  destruct (decoder_init_inv _ _ _ _ _ Hu Hul Hinit)
    as (_ & _ & _ & _ & Hpg & Hhp & mu & feats & _ & _ & Hblocks).
  fold k in Hpg. apply init_signal2weights_targets in Hblocks.
  rewrite <-list_fmap_compose in Hblocks.
  assert (WeightLayer.target_params ∘ WeightLayer.new (F:=F) <$> param_groups self
          = param_groups self) as Hid by apply list_fmap_id.
  rewrite Hid in Hblocks. split_and!.
  - by rewrite Hblocks.
  - done.
  - rewrite Hhp, Hpg, zsum_app. simpl.
    rewrite <-(take_drop k level_params) at 3. rewrite zsum_app. lia.
Qed.


(** The layers [init_signal2weights] returns, one by one. *)
Lemma init_signal2weights_lookup (blocks blocks' : list (WeightLayer.weight_layer F))
    signal_features weight_groups signal_index :
  init_signal2weights initial_weight blocks signal_features weight_groups
    signal_index = ok blocks' →
  length blocks' = length blocks
  ∧ ∀ j m', blocks' !! j = Some m' →
      ∃ m a g, blocks !! j = Some m
        ∧ signal_features !! j = Some a ∧ weight_groups !! j = Some g
        ∧ WeightLayer.init_signal2weights initial_weight m a
            (signal_index + zsum (take j signal_features)) g = ok m'.
Proof.
  revert blocks' signal_features weight_groups signal_index.
  induction blocks as [|m blocks IH];
    intros blocks' feats groups index Hinit; simpl in Hinit.
  { injection Hinit as <-. split; [done|]. intros j m' Hj. done. }
  destruct feats as [|a feats]; [done|].
  destruct groups as [|g groups]; [done|].
  destruct (WeightLayer.init_signal2weights _ _ _ _ _) as [e|m'] eqn:Hm; [done|].
  cbn [rbind] in Hinit.
  destruct (init_signal2weights _ _ _ _ _) as [e|rest] eqn:Hrest; [done|].
  injection Hinit as <-.
  destruct (IH _ _ _ _ Hrest) as [Hlen Hlook].
  split; [simpl; by rewrite Hlen|].
  intros [|j] m0 Hj.
  - injection Hj as <-. exists m, a, g. split_and!; try done.
    simpl. by rewrite Z.add_0_r.
  - destruct (Hlook j m0 Hj) as (m1 & a1 & g1 & ? & ? & ? & Hm1).
    exists m1, a1, g1. split_and!; try done.
    rewrite <-Hm1. f_equal. simpl. lia.
Qed.

Lemma foldl_max_ge (l : list Z) (y : Z) :
  (y ≤ foldl Z.max y l)%Z ∧ ∀ x, x ∈ l → (x ≤ foldl Z.max y l)%Z.
Proof.
  revert y. induction l as [|z l IH]; intros y; simpl.
  { split; [lia|]. by intros x ?%elem_of_nil. }
  destruct (IH (Z.max y z)) as [IH1 IH2]. split; [lia|].
  intros x [Hx|Hx]%elem_of_cons; [subst; lia|by apply IH2].
Qed.

Lemma py_max_list_ge (l : list Z) (x mu : Z) :
  py_max_list l = ok mu → x ∈ l → (x ≤ mu)%Z.
Proof.
  destruct l as [|y l]; [done|]. simpl. intros [= <-].
  destruct (foldl_max_ge l y) as [H1 H2].
  intros [Hx|Hx]%elem_of_cons; [by subst|by apply H2].
Qed.

Lemma zsum_take_nonneg (l : list Z) (j : nat) :
  Forall (λ a, 0 ≤ a)%Z l → (0 ≤ zsum (take j l) ≤ zsum l)%Z.
Proof.
  intros Hl. revert j. induction Hl as [|a l Ha Hl IH]; intros [|j]; simpl; try lia.
  - assert (0 ≤ zsum l)%Z by (specialize (IH 0); simpl in IH; lia). lia.
  - specialize (IH j). lia.
Qed.

(** X6: the signal slices that construction assigns to the generators
    follow each other without gap or overlap: generator [j] reads
    [signal_channels_j] channels from [signal_index_j], the sum of the
    channels of the generators before it, with the channels taken from
    [divide_feature(signal_channels, param_groups, max(weight_groups))];
    all of them together take at most [signal_channels] channels.  When
    the signal holds at least one unit of [max(weight_groups)] channels for
    each generator, every slice is non-empty and lies inside the signal. *)
Theorem signal_slices_tile level_params unify_level signal_channels
    weight_groups (self : decoder F) :
  (1 ≤ unify_level)%Z → (unify_level ≤ Z.of_nat (length level_params))%Z →
  init initial_weight level_params unify_level signal_channels weight_groups
  = ok self →
  ∃ min_unit signal_features,
    py_max_list weight_groups = ok min_unit ∧ (0 < min_unit)%Z
    ∧ Alloc.divide_feature signal_channels (param_groups self) min_unit
      = ok signal_features
    ∧ (zsum signal_features ≤ signal_channels)%Z
    ∧ (∀ j m, weight_blocks self !! j = Some m →
         ∃ a, signal_features !! j = Some a
           ∧ WeightLayer.signal_channels m = Some a
           ∧ WeightLayer.signal_index m = Some (zsum (take j signal_features)))
    ∧ ((Z.of_nat (length (weight_blocks self)) ≤ signal_channels `div` min_unit)%Z →
       ∀ j m, weight_blocks self !! j = Some m →
         ∃ index channels,
           WeightLayer.signal_index m = Some index
           ∧ WeightLayer.signal_channels m = Some channels
           ∧ (0 ≤ index)%Z ∧ (0 < channels)%Z
           ∧ (index + channels ≤ signal_channels)%Z).
Proof.
  intros Hu Hul Hinit.
  destruct (decoder_init_inv _ _ _ _ _ Hu Hul Hinit)
    as (_ & _ & _ & _ & Hpg & _ & mu & feats & Hmu & Hfeats & Hblocks).
  destruct (init_signal2weights_lookup _ _ _ _ _ Hblocks) as [Hlen Hlook].
  rewrite length_fmap in Hlen.
  assert (0 < mu)%Z as Hpos.
  { destruct (lookup_lt_is_Some_2 (weight_blocks self) 0) as [m0 Hm0].
    { rewrite Hlen, Hpg, length_app. simpl. lia. }
    destruct (Hlook 0 m0 Hm0) as (m & a & g & _ & _ & Hg & Hm).
    apply WeightLayerFacts.init_signal2weights_inv in Hm as (Hgpos & _).
    pose proof (py_max_list_ge _ g _ Hmu (list_elem_of_lookup_2 _ _ _ Hg)).
    lia. }
  assert (∀ j m, weight_blocks self !! j = Some m →
            ∃ a, feats !! j = Some a
              ∧ WeightLayer.signal_channels m = Some a
              ∧ WeightLayer.signal_index m = Some (zsum (take j feats))) as Hsl.
  { intros j m Hj. destruct (Hlook j m Hj) as (m1 & a & g & _ & Ha & _ & Hm).
    apply WeightLayerFacts.init_signal2weights_inv in Hm
      as (_ & _ & _ & Hsc & Hsi & _).
    exists a. split_and!; [done|done|]. by rewrite Hsi, Z.add_0_l. }
  exists mu, feats. split_and!; try done.
  - by eapply AllocMore.divide_feature_sum_le.
  - intros Hunits j m Hj. destruct (Hsl j m Hj) as (a & Ha & Hsc & Hsi).
    pose proof (AllocMore.divide_feature_length _ _ _ _ _ Hfeats) as Hfl.
    assert (Forall (λ a, mu ≤ a)%Z feats) as Hall.
    { eapply AllocMore.divide_feature_min_entries; [done| |exact Hfeats].
      rewrite <-Hfl. rewrite <-Hlen in Hfl. lia. }
    assert (Forall (λ a, 0 ≤ a)%Z feats) as Hnn.
    { eapply Forall_impl; [exact Hall|]. simpl. intros; lia. }
    exists (zsum (take j feats)), a. split_and!; try done.
    + apply (zsum_take_nonneg _ j Hnn).
    + rewrite Forall_forall in Hall.
      specialize (Hall a (list_elem_of_lookup_2 _ _ _ Ha)). lia.
    + pose proof (zsum_take_nonneg _ (S j) Hnn) as Hs.
      rewrite (take_S_r _ _ _ Ha), zsum_app in Hs. simpl in Hs.
      pose proof (AllocMore.divide_feature_sum_le _ _ _ _ _ Hpos Hfeats). lia.
Qed.

End construction.

Section pass.
Context `{FloatOps F} `{TensorOps T}.
Variable level_block : nat → T → list (WeightLayer.plane F) → res T.
Variable image_coordinates : nat → nat * nat → T.
Variable out_fc : option (T → list (WeightLayer.plane F) → res T).

Implicit Types (self : decoder F) (s w : list (WeightLayer.plane F))
  (tr : list (event F)) (st : option T * option (list (WeightLayer.plane F))).

(** After the loop [forward] logs nothing more; it returns when the loop
    has, [out_fc] has and [x] is not empty. *)
Lemma forward_run self x s tr tr' r :
  forward level_block image_coordinates out_fc self x s tr = (tr', r) →
  ∃ r0, forward_levels level_block image_coordinates self x s
          (seq 0 (levels self)) (None, None) tr = (tr', r0)
    ∧ ∀ p, r = ok p →
        ∃ st' p0 p1 x0, r0 = ok st' ∧ st'.1 = Some p0
          ∧ match out_fc with Some fc => fc p0 s | None => ok p0 end = ok p1
          ∧ py_index x 0 = ok x0
          ∧ p = if decide (spatial p1 ≠ spatial x0)
                then interpolate p1 (spatial x0) else p1.
Proof.
  unfold forward. unfold mbind at 1.
  destruct (forward_levels _ _ _ _ _ _ _ _) as [tr0 [e|st']] eqn:Hloop.
  { intros [= <- <-]. eexists. split; [done|]. done. }
  rewrite mbind_lift. destruct st'.1 as [p0|] eqn:Hp0.
  2:{ intros [= <- <-]. eexists. split; [done|]. done. }
  cbv beta iota delta [ok]. rewrite mbind_lift.
  destruct (match out_fc with Some fc => fc p0 s | None => inr p0 end)
    as [e|p1] eqn:Hfc.
  { intros [= <- <-]. eexists. split; [done|]. done. }
  rewrite mbind_lift. destruct (py_index x 0) as [e|x0] eqn:Hx0.
  { intros [= <- <-]. eexists. split; [done|]. done. }
  intros [= <- <-]. eexists. split; [done|].
  intros p [= <-]. exists st', p0, p1, x0. split_and!; try done.
Qed.

Lemma forward_levels_calls self x s (n a : nat) st st' tr tr' :
  (1 ≤ unify_level self)%Z →
  forward_levels level_block image_coordinates self x s (seq a n) st tr
  = (tr', ok st') →
  ∃ evs, tr' = tr ++ evs
    ∧ DecoderLog.calls evs
      = mjoin (DecoderLog.level_calls (Z.to_nat (unify_level self - 1))
                 <$> seq a n).
Proof.
  intros Hu. revert a st tr.
  induction n as [|n IH]; intros a st tr Hrun.
  { injection Hrun as <- <-. exists []. by rewrite app_nil_r. }
  simpl in Hrun. unfold mbind in Hrun at 1.
  destruct (forward_level _ _ _ _ _ _ _ _) as [tr1 [e|st1]] eqn:Hstep; [done|].
  destruct (forward_level_run _ _ _ _ _ _ _ _ _ _ Hu Hstep)
    as (evs1 & -> & _ & _ & _ & Hok).
  destruct (Hok st1 eq_refl) as (w & _ & _ & Hded & Hsh).
  destruct (IH _ _ _ Hrun) as (evs2 & -> & Hc2).
  exists (evs1 ++ evs2). rewrite (assoc_L (++)). split; [done|].
  unfold DecoderLog.calls in *. rewrite fmap_app, Hc2. csimpl. f_equal.
  unfold DecoderLog.level_calls.
  set (k := Z.to_nat (unify_level self - 1)) in *.
  destruct (decide (a < k)) as [Hlt|Hge].
  - rewrite (Hded Hlt). by rewrite decide_True by lia.
  - destruct (Hsh ltac:(lia)) as (r0 & r1 & _ & _ & -> & _).
    destruct (decide (a = k)) as [->|Hne].
    + by rewrite decide_True by lia.
    + by rewrite decide_False by lia.
Qed.

(** X7: a forward pass that returns has called, in this order and nothing
    else: for each level from 0 up, the generator of the level when the
    level is at most [unify_level - 1], then the level block.  So every
    level block runs once, in order, and the generators [0 .. unify_level - 1]
    run once each, just before the first level that uses them. *)
Theorem forward_schedule self x s tr p :
  (1 ≤ unify_level self)%Z →
  forward level_block image_coordinates out_fc self x s [] = (tr, ok p) →
  DecoderLog.calls tr
  = DecoderLog.schedule (Z.to_nat (unify_level self - 1)) (levels self).
Proof.
  intros Hu Hrun.
  destruct (forward_run _ _ _ _ _ _ Hrun) as (r0 & Hloop & Hok).
  destruct (Hok p eq_refl) as (st' & _ & _ & _ & -> & _).
  destruct (forward_levels_calls _ _ _ _ _ _ _ _ _ Hu Hloop) as (evs & -> & Hc).
  done.
Qed.

(** X8: a decoder with [unify_level <= 0] and at least one level cannot
    run: [forward] raises before any generator or level block is called,
    whatever the input.  When [weight_blocks[unify_level - 1]] and [x[-1]]
    exist, the exception is [UnboundLocalError]: level 0 reads [w] and no
    level ever assigns it. *)
Theorem forward_unify_level_nonpositive self x s tr :
  (unify_level self ≤ 0)%Z → 0 < levels self →
  ∃ e, forward level_block image_coordinates out_fc self x s tr = (tr, inl e)
       ∧ ((1 - unify_level self ≤ Z.of_nat (length (weight_blocks self)))%Z →
          x ≠ [] → e = UnboundLocalError).
Proof.
  intros Hu Hl. unfold forward.
  destruct (levels self) as [|n]; [lia|]. simpl.
  unfold mbind at 1. unfold mbind at 1. unfold forward_level.
  rewrite mbind_lift.
  destruct (py_resolve _ _) as [e|block] eqn:Hblock.
  { eexists. split; [done|]. intros Hlen _. exfalso.
    unfold py_resolve in Hblock.
    replace (Z.min (Z.of_nat 0) (unify_level self - 1))
      with (unify_level self - 1)%Z in Hblock by lia.
    destruct (Z.ltb_spec (unify_level self - 1) 0); [|lia].
    destruct (Z.ltb_spec (unify_level self - 1 + Z.of_nat (length (weight_blocks self))) 0);
      [lia|].
    destruct (Z.leb_spec (Z.of_nat (length (weight_blocks self)))
                (unify_level self - 1 + Z.of_nat (length (weight_blocks self))));
      [lia|done]. }
  rewrite mbind_lift.
  destruct (py_index x _) as [e|x_level] eqn:Hx.
  { eexists. split; [done|]. intros _ Hne. exfalso.
    destruct x as [|x0 x _] using rev_ind; [done|].
    change (- Z.of_nat 0 - 1)%Z with (-1)%Z in Hx.
    by rewrite py_index_last in Hx. }
  cbv zeta.
  destruct (Z.ltb_spec (Z.of_nat 0) (unify_level self - 1)); [lia|].
  destruct (Z.eqb_spec (Z.of_nat 0) (unify_level self - 1)); [lia|].
  eexists. split; [reflexivity|]. done.
Qed.

(** X9: whatever the level blocks return, the result of [forward] has
    the spatial size of [x[0]], the finest feature map (a resize yields the
    size it is asked for). *)
Theorem forward_output_size self x s tr tr' p :
  (∀ (t : T) size, spatial (interpolate t size) = size) →
  forward level_block image_coordinates out_fc self x s tr = (tr', ok p) →
  ∃ x0, x !! 0 = Some x0 ∧ spatial p = spatial x0.
Proof.
  intros Hlaw Hrun.
  destruct (forward_run _ _ _ _ _ _ Hrun) as (r0 & _ & Hok).
  destruct (Hok p eq_refl) as (st' & p0 & p1 & x0 & _ & _ & _ & Hx0 & ->).
  exists x0. split; [by apply (py_index_nonneg x 0 x0) in Hx0|].
  case_decide as Hne; [apply Hlaw|done].
Qed.

End pass.

Section end_to_end.
Context `{FloatOps F} `{TensorOps T}.
Variable initial_weight : Z → Z → list (list F).
Variable level_block : nat → T → list (WeightLayer.plane F) → res T.
Variable image_coordinates : nat → nat * nat → T.
Variable out_fc : option (T → list (WeightLayer.plane F) → res T).

Implicit Types (self : decoder F) (s w : list (WeightLayer.plane F))
  (tr : list (event F)) (st : option T * option (list (WeightLayer.plane F))).



Section widths.
Variables (self : decoder F) (s : list (WeightLayer.plane F)).
Variable P : nat → list (WeightLayer.plane F) → Prop.
Let k := Z.to_nat (unify_level self - 1).
Hypothesis Hu : (1 ≤ unify_level self)%Z.
Hypothesis Hded : ∀ level m w,
  level < k → weight_blocks self !! level = Some m →
  WeightLayer.forward m s = ok w → P level w.
Hypothesis Hsh : ∀ level m w r0 r1,
  k ≤ level < levels self → weight_blocks self !! k = Some m →
  WeightLayer.forward m s = ok w →
  _ranges self !! (level - k) = Some r0 →
  _ranges self !! (level - k + 1) = Some r1 →
  P level (py_slice r0 r1 w).

End widths.






Section progress.
Variables (self : decoder F) (x : list T) (s : list (WeightLayer.plane F)).
Let k := Z.to_nat (unify_level self - 1).
Hypothesis Hu : (1 ≤ unify_level self)%Z.
Hypothesis Hblocks : length (weight_blocks self) = S k.
Hypothesis Hgen : ∀ j m, weight_blocks self !! j = Some m →
  ∃ w, WeightLayer.forward m s = ok w.
Hypothesis Hranges : length (_ranges self) = levels self - k + 1.
Hypothesis Hx : length x = levels self.
Hypothesis Hlevel : ∀ level p w, ∃ p', level_block level p w = ok p'.


End progress.


End end_to_end.
Lemma init_range_widths_witness :
  ∃ self : decoder Q,
    init (λ out n, replicate (Z.to_nat out) (replicate (Z.to_nat n) 1%Q))
      [8; 6; 4]%Z 2 16 [2; 2]%Z = ok self
    ∧ let k := Z.to_nat (2 - 1) in
      _ranges self !! 0 = Some 0%Z
      ∧ length (_ranges self) = length [8; 6; 4]%Z - k + 1
      ∧ ∀ level hp, k ≤ level → [8; 6; 4]%Z !! level = Some hp →
          ∃ r0, _ranges self !! (level - k) = Some r0
                ∧ _ranges self !! (level - k + 1) = Some (r0 + hp)%Z.
Proof.
  eexists. split; [vm_compute; reflexivity|].
  apply (init_range_widths (λ out n, replicate (Z.to_nat out) (replicate (Z.to_nat n) 1%Q))
           [8; 6; 4]%Z 2 16 [2; 2]%Z).
  - lia.
  - simpl. lia.
  - vm_compute. reflexivity.
Defined.

Lemma init_param_groups_witness :
  ∃ self : decoder Q,
    init (λ out n, replicate (Z.to_nat out) (replicate (Z.to_nat n) 1%Q))
      [8; 6; 4]%Z 2 16 [2; 2]%Z = ok self
    ∧ let k := Z.to_nat (2 - 1) in
      WeightLayer.target_params <$> weight_blocks self
      = take k [8; 6; 4]%Z ++ [zsum (drop k [8; 6; 4]%Z)]
      ∧ param_groups self = WeightLayer.target_params <$> weight_blocks self
      ∧ hyper_params self = zsum [8; 6; 4]%Z.
Proof.
  eexists. split; [vm_compute; reflexivity|].
  apply (init_param_groups (λ out n, replicate (Z.to_nat out) (replicate (Z.to_nat n) 1%Q))
           [8; 6; 4]%Z 2 16 [2; 2]%Z).
  - lia.
  - simpl. lia.
  - vm_compute. reflexivity.
Defined.

Lemma signal_slices_tile_witness :
  ∃ self : decoder Q,
    init (λ out n, replicate (Z.to_nat out) (replicate (Z.to_nat n) 1%Q))
      [8; 6; 4]%Z 2 16 [2; 2]%Z = ok self
    ∧ ∃ min_unit signal_features,
        py_max_list [2; 2]%Z = ok min_unit ∧ (0 < min_unit)%Z
        ∧ Alloc.divide_feature 16 (param_groups self) min_unit
          = ok signal_features
        ∧ (zsum signal_features ≤ 16)%Z
        ∧ (∀ j m, weight_blocks self !! j = Some m →
             ∃ a, signal_features !! j = Some a
               ∧ WeightLayer.signal_channels m = Some a
               ∧ WeightLayer.signal_index m = Some (zsum (take j signal_features)))
        ∧ ((Z.of_nat (length (weight_blocks self)) ≤ 16 `div` min_unit)%Z →
           ∀ j m, weight_blocks self !! j = Some m →
             ∃ index channels,
               WeightLayer.signal_index m = Some index
               ∧ WeightLayer.signal_channels m = Some channels
               ∧ (0 ≤ index)%Z ∧ (0 < channels)%Z
               ∧ (index + channels ≤ 16)%Z).
Proof.
  eexists. split; [vm_compute; reflexivity|].
  apply (signal_slices_tile (λ out n, replicate (Z.to_nat out) (replicate (Z.to_nat n) 1%Q))
           [8; 6; 4]%Z 2 16 [2; 2]%Z).
  - lia.
  - simpl. lia.
  - vm_compute. reflexivity.
Defined.

Lemma forward_schedule_witness :
  ∃ self : decoder Q,
    init (λ out n, replicate (Z.to_nat out) (replicate (Z.to_nat n) 1%Q))
      [8; 6; 4]%Z 2 16 [2; 2]%Z = ok self
    ∧ DecoderLog.calls
        (forward (λ _ p _, ok (p.1.1.1, 7, p.1.2, p.2))
           (λ b size, (b, 2, size.1, size.2))
           None self [(1, 3, 8, 8); (1, 4, 4, 4); (1, 5, 2, 2)]
           (replicate 16 [1%Q]) []).1
      = DecoderLog.schedule (Z.to_nat (unify_level self - 1)) (levels self).
Proof.
  eexists. split; [vm_compute; reflexivity|].
  apply (forward_schedule (λ _ p _, ok (p.1.1.1, 7, p.1.2, p.2)) (λ b size, (b, 2, size.1, size.2))
           None _ [(1, 3, 8, 8); (1, 4, 4, 4); (1, 5, 2, 2)]
           (replicate 16 [1%Q]) _ (1, 7, 8, 8)).
  - simpl. lia.
  - vm_compute. reflexivity.
Defined.

Lemma forward_unify_level_nonpositive_witness :
  ∃ self : decoder Q,
    init (λ out n, replicate (Z.to_nat out) (replicate (Z.to_nat n) 1%Q))
      [8; 6; 4]%Z 0 16 [2; 2]%Z = ok self
    ∧ ∃ e, forward (λ _ p _, ok (p.1.1.1, 7, p.1.2, p.2))
           (λ b size, (b, 2, size.1, size.2))
           None self [(1, 3, 8, 8); (1, 4, 4, 4); (1, 5, 2, 2)]
           (replicate 16 [1%Q]) []
           = ([], inl e)
           ∧ ((1 - unify_level self ≤ Z.of_nat (length (weight_blocks self)))%Z →
              [(1, 3, 8, 8); (1, 4, 4, 4); (1, 5, 2, 2)] ≠ [] → e = UnboundLocalError).
Proof.
  eexists. split; [vm_compute; reflexivity|].
  apply (forward_unify_level_nonpositive (λ _ p _, ok (p.1.1.1, 7, p.1.2, p.2))
           (λ b size, (b, 2, size.1, size.2)) None _
           [(1, 3, 8, 8); (1, 4, 4, 4); (1, 5, 2, 2)] (replicate 16 [1%Q]) []).
  - simpl. lia.
  - simpl. lia.
Defined.

(** One level whose block returns a 4x4 map for an 8x8 input: the result
    is resized to 8x8. *)
Lemma forward_output_size_witness :
  ∃ x0, [(1, 3, 8, 8)] !! 0 = Some x0 ∧ spatial (1, 7, 8, 8) = spatial x0.
Proof.
  apply (forward_output_size (F:=Q)
           (λ _ (p : Patch.shape4) _, ok (p.1.1.1, 7, 4, 4))
           (λ b size, (b, 2, size.1, size.2)) None
           {| levels := 1; unify_level := 1; level_params := [4]%Z;
              weight_blocks := [WeightLayer.new 4]; _ranges := [0; 4]%Z;
              param_groups := [4]%Z; hyper_params := 4 |}
           [(1, 3, 8, 8)] [[1%Q]] []
           [EvGenerate 0; EvLevel 0 [[1%Q]]] (1, 7, 8, 8)).
  - intros t [h w]. reflexivity.
  - vm_compute. reflexivity.
Defined.



End DecoderMore.

(** ** Further facts about the coordinate buffers *)

Module CoordsMore.
Import Coords CoordsNames.

Lemma pretty_N_char_no_separator (x : N) : String (pretty_N_char x) "" ≠ "_".
Proof. unfold pretty_N_char. by repeat case_match. Qed.

Lemma pretty_N_go_no_separator (x : N) (s : string) :
  no_separator s → no_separator (pretty_N_go x s).
Proof.
  revert s. induction (N.lt_wf_0 x) as [x _ IH]; intros s Hs.
  destruct (decide (x = 0)%N) as [->|Hx]; [by rewrite pretty_N_go_0|].
  rewrite pretty_N_go_step by lia. apply IH.
  - apply N.div_lt; lia.
  - split; [apply pretty_N_char_no_separator|done].
Qed.

Lemma pretty_nat_no_separator (n : nat) : no_separator (pretty n).
Proof.
  unfold pretty, pretty_nat, pretty, pretty_N.
  case_decide; [by split|]. by apply pretty_N_go_no_separator.
Qed.

Lemma append_nil_l (t : string) : "" +:+ t = t.
Proof. reflexivity. Qed.

Lemma separator_split (s1 s2 t1 t2 : string) :
  no_separator s1 → no_separator s2 →
  s1 +:+ "_" +:+ t1 = s2 +:+ "_" +:+ t2 → s1 = s2 ∧ t1 = t2.
Proof.
  revert s2. induction s1 as [|c s1 IH]; intros [|d s2] H1 H2 Heq.
  - rewrite !append_nil_l in Heq. split; [done|].
    cbv [String.append] in Heq. by injection Heq.
  - exfalso. destruct H2 as [H2 _]. apply H2.
    cbv [String.append] in Heq. by injection Heq as <- _.
  - exfalso. destruct H1 as [H1 _]. apply H1.
    cbv [String.append] in Heq. by injection Heq as -> _.
  - destruct H1 as [_ H1], H2 as [_ H2].
    assert (c = d ∧ s1 +:+ "_" +:+ t1 = s2 +:+ "_" +:+ t2) as [-> Heq'].
    { change (String c (s1 +:+ "_" +:+ t1) = String d (s2 +:+ "_" +:+ t2)) in Heq.
      by injection Heq. }
    destruct (IH s2 H1 H2 Heq') as [-> ->]. done.
Qed.

(** Different resolutions have different buffer names. *)
Lemma cache_name_inj (h w h' w' : nat) :
  cache_name h w = cache_name h' w' → h = h' ∧ w = w'.
Proof.
  unfold cache_name. simpl. intros [= Heq].
  apply separator_split in Heq as [Hh Hw]; try apply pretty_nat_no_separator.
  split; by apply (inj pretty).
Qed.

Lemma register_resolution_well_named levels rs (self : gmap string grid) r :
  r ∈ rs → well_named levels (Some rs) self →
  well_named levels (Some rs) (register_resolution levels self r).
Proof.
  intros Hr. unfold register_resolution.
  assert (∀ i, i ∈ seq 0 levels → i < levels) as Hjs
    by (intros i ?%elem_of_seq; lia).
  revert self Hjs. induction (seq 0 levels) as [|j js IH]; intros self Hjs Hwn.
  { done. }
  simpl. apply IH; [intros; apply Hjs; by right|].
  intros name t Hname. apply lookup_insert_Some in Hname as [[<- <-]|[_ Hname]].
  - eexists _, _. split_and!; [done|done|].
    exists rs, r, j. split_and!; try done. apply Hjs. left.
  - by apply Hwn.
Qed.

Lemma register_fold_well_named levels rs rs0 (self : gmap string grid) :
  (∀ r, r ∈ rs0 → r ∈ rs) → well_named levels (Some rs) self →
  well_named levels (Some rs) (foldl (register_resolution levels) self rs0).
Proof.
  revert self. induction rs0 as [|r rs0 IH]; intros self Hsub Hwn; simpl; [done|].
  apply IH; [intros; apply Hsub; by right|].
  apply register_resolution_well_named; [apply Hsub; left|done].
Qed.

Lemma register_coords_well_named levels coords_res :
  well_named levels coords_res (register_coords levels coords_res ∅).
Proof.
  destruct coords_res as [rs|]; simpl.
  - apply register_fold_well_named; [done|].
    intros name t Hname. by rewrite lookup_empty in Hname.
  - intros name t Hname. by rewrite lookup_empty in Hname.
Qed.

(** X12: the coordinate buffers are transparent.  On a decoder as
    [__init__] leaves it, [get_image_coordinates(b, h, w)] returns the grid
    a fresh computation for [(h, w)] gives, whether or not a buffer
    answers the call; and a buffer answers exactly for the resolutions of
    [coords_res] and their halvings [res // 2 ** i] with [i < levels]
    (no two resolutions share a buffer name). *)
Theorem get_image_coordinates_transparent levels coords_res (b h w : nat) :
  value (get_image_coordinates (register_coords levels coords_res ∅) b h w)
  = expand b (cache_image_coordinates h w)
  ∧ (origin (get_image_coordinates (register_coords levels coords_res ∅) b h w)
     = Stored
     ↔ registered levels coords_res h w).
Proof.
  pose proof (register_coords_well_named levels coords_res) as Hwn.
  unfold get_image_coordinates.
  destruct (register_coords levels coords_res ∅ !! cache_name h w)
    as [t|] eqn:Hc; simpl.
  - destruct (Hwn _ _ Hc) as (h' & w' & Hname & -> & Hreg).
    apply cache_name_inj in Hname as [-> ->]. done.
  - split; [done|]. split; [done|].
    intros (rs & r & i & -> & Hr & Hi & -> & ->).
    pose proof (CoordsFacts.register_coords_lookup levels rs ∅ r i Hr Hi) as [t Ht].
    congruence.
Qed.

Lemma linspace_lookup (steps j : nat) :
  j < steps →
  linspace steps !! j
  = Some (if decide (steps = 1) then (-1)%Q
          else (-1 + 2 * inject_Z (Z.of_nat j)
                         / inject_Z (Z.of_nat steps - 1))%Q).
Proof.
  intros Hj. unfold linspace. rewrite list_lookup_fmap.
  by rewrite (proj2 (lookup_seq 0 steps j j)) by lia.
Qed.

Lemma linspace_range (steps j : nat) (v : Q) :
  linspace steps !! j = Some v → (-1 <= v)%Q ∧ (v <= 1)%Q.
Proof.
  intros Hv. assert (j < steps) as Hj.
  { apply lookup_lt_Some in Hv. unfold linspace in Hv.
    by rewrite length_fmap, length_seq in Hv. }
  rewrite linspace_lookup in Hv by done. injection Hv as <-.
  case_decide as Hs; [done|].
  destruct (Z.of_nat steps - 1)%Z as [|d|d] eqn:Hd; [lia| |lia].
  assert (Z.of_nat j ≤ Z.pos d)%Z as Hjd by lia.
  assert (0 ≤ Z.of_nat j)%Z as Hj0 by lia.
  revert Hjd Hj0. generalize (Z.of_nat j). intros z Hjd Hj0.
  unfold Qle, Qplus, Qmult, Qdiv, Qinv, inject_Z. simpl. split; nia.
Qed.

(** X13: the grid of [cache_image_coordinates(h, w)] has the shape
    [(1, 2, h, w)]; at row [i] and column [j] its first channel holds the
    [j]-th of the [w] equally spaced values from -1 to 1 (the horizontal
    coordinate) and its second channel the [i]-th of the [h] values (the
    vertical coordinate); every entry lies between -1 and 1. *)
Theorem cache_image_coordinates_entries (h w i j : nat) :
  i < h → j < w →
  ∃ X Y x y,
    cache_image_coordinates h w = [[X; Y]]
    ∧ length X = h ∧ length Y = h
    ∧ Forall (λ row, length row = w) X ∧ Forall (λ row, length row = w) Y
    ∧ X !! i ≫= (.!! j) = Some x ∧ Y !! i ≫= (.!! j) = Some y
    ∧ linspace w !! j = Some x ∧ linspace h !! i = Some y
    ∧ (-1 <= x)%Q ∧ (x <= 1)%Q ∧ (-1 <= y)%Q ∧ (y <= 1)%Q.
Proof.
  intros Hi Hj.
  destruct (lookup_lt_is_Some_2 (linspace w) j) as [x Hx].
  { unfold linspace. by rewrite length_fmap, length_seq. }
  destruct (lookup_lt_is_Some_2 (linspace h) i) as [y Hy].
  { unfold linspace. by rewrite length_fmap, length_seq. }
  destruct (linspace_range _ _ _ Hx) as [Hx1 Hx2].
  destruct (linspace_range _ _ _ Hy) as [Hy1 Hy2].
  eexists _, _, x, y. split; [reflexivity|].
  split_and!; try done.
  - by rewrite length_replicate.
  - unfold linspace. by rewrite !length_fmap, length_seq.
  - apply Forall_replicate. unfold linspace. by rewrite length_fmap, length_seq.
  - apply Forall_fmap, Forall_forall. intros v _. simpl. apply length_replicate.
  - rewrite lookup_replicate_2 by done. done.
  - rewrite list_lookup_fmap, Hy. simpl. by apply lookup_replicate_2.
Qed.

Lemma cache_image_coordinates_entries_witness :
  ∃ X Y x y,
    cache_image_coordinates 2 3 = [[X; Y]]
    ∧ length X = 2 ∧ length Y = 2
    ∧ Forall (λ row, length row = 3) X ∧ Forall (λ row, length row = 3) Y
    ∧ X !! 1 ≫= (.!! 2) = Some x ∧ Y !! 1 ≫= (.!! 2) = Some y
    ∧ linspace 3 !! 2 = Some x ∧ linspace 2 !! 1 = Some y
    ∧ (-1 <= x)%Q ∧ (x <= 1)%Q ∧ (-1 <= y)%Q ∧ (y <= 1)%Q.
Proof. apply (cache_image_coordinates_entries 2 3 1 2); lia. Defined.

End CoordsMore.

(** ** Further facts about the patch engine *)

Module PatchMore.
Import Patch PatchFacts.

Lemma infer_dim_mul (numel known q : nat) :
  known ≠ 0 → numel = q * known → infer_dim numel known = ok q.
Proof.
  intros Hk ->. unfold infer_dim.
  rewrite decide_False by done.
  rewrite decide_True by (by apply Nat.Div0.mod_mul).
  by rewrite Nat.div_mul.
Qed.

Section forward.
Variable hyper_module : shape4 → nat * nat → res shape4.

(** X14: [HyperPatch] accepts [padding_mode='zeros'] at construction, but
    its [forward] can never return with it: [F.pad] knows no mode of that
    name.  On a non-empty weight grid with at least one parameter per
    patch the exception is [NotImplementedError]. *)
Theorem forward_zeros_never_returns (padding : nat * nat) (x : shape4)
    (wb params fh fw : nat) :
  ∃ self, new padding "zeros" = ok self
    ∧ (∃ e, forward hyper_module self x (wb, params, fh, fw) = inl e)
    ∧ (fh ≠ 0 → fw ≠ 0 → params ≠ 0 →
       forward hyper_module self x (wb, params, fh, fw)
       = raise NotImplementedError).
Proof.
  eexists. split; [reflexivity|].
  destruct x as [[[b c] h] w].
  unfold forward. cbn [Patch.padding Patch.padding_mode fst snd].
  assert (pad (b, c, h, w) (padding.1, padding.2, padding.1, padding.2) "zeros"
          = raise NotImplementedError) as Hpad by reflexivity.
  case_decide as Hf.
  { split; [by eexists|]. intros. lia. }
  destruct (infer_dim (wb * fh * fw * params) params) as [e|rows] eqn:Hrows.
  - split; [by eexists|]. intros _ _ Hparams. exfalso.
    by rewrite (infer_dim_mul _ _ (wb * fh * fw)) in Hrows.
  - cbn [rbind]. rewrite Hpad. split; [by eexists|]. done.
Qed.

(** X15: the shape protocol of [HyperPatch.forward].  With symmetric
    padding [p] that [F.pad] accepts, patches of [ph = H // fh] by
    [pw = W // fw] positions and [H // ph = fh], [W // pw = fw] (as when
    [fh] divides [H] and [fw] divides [W]), the hyper module is called once,
    on the [b * fh * fw] patches of size [(ph + 2p, pw + 2p)] as a batch
    and with one row of [params] weights for each weight-grid position;
    when it returns [oc] channels of size [(ph, pw)] for every patch, the
    result has the shape [(b, oc, H, W)]. *)
Theorem forward_shape (self : hyper_patch) (b c h w wb params fh fw oc : nat) s0 :
  (padding self).1 = (padding self).2 →
  pad (b, c, h, w)
    ((padding self).1, (padding self).2, (padding self).1, (padding self).2)
    (padding_mode self) = ok s0 →
  0 < b → 0 < c → 0 < params →
  0 < h `div` fh → 0 < w `div` fw →
  h `div` (h `div` fh) = fh → w `div` (w `div` fw) = fw →
  hyper_module
    (b * (fh * fw), c, h `div` fh + (padding self).1 * 2,
     w `div` fw + (padding self).2 * 2)
    (wb * fh * fw, params)
  = ok (b * (fh * fw), oc, h `div` fh, w `div` fw) →
  forward hyper_module self (b, c, h, w) (wb, params, fh, fw)
  = ok (b, oc, h, w).
Proof.
  intros Hpad Hp0 Hb Hc Hparams Hph Hpw Hfh Hfw Hmod.
  set (ph := h `div` fh) in *. set (pw := w `div` fw) in *.
  assert (fh ≠ 0) as Hfh0 by (intros ->; unfold ph in Hph; simpl in Hph; lia).
  assert (fw ≠ 0) as Hfw0 by (intros ->; unfold pw in Hpw; simpl in Hpw; lia).
  assert (ph ≤ h) as Hphh.
  { pose proof (Nat.Div0.mul_div_le h fh). fold ph in H. nia. }
  assert (pw ≤ w) as Hpww.
  { pose proof (Nat.Div0.mul_div_le w fw). fold pw in H. nia. }
  unfold forward. rewrite <-Hpad in *. set (p := (padding self).1) in *.
  fold ph pw. rewrite decide_False by lia.
  rewrite (infer_dim_mul _ _ (wb * fh * fw)) by lia. cbn [rbind].
  unfold ok at 1. cbn [rbind].
  destruct (pad_larger _ _ _ _ h w _ _ _ Hp0 (le_n _) (le_n _)) as [-> _].
  rewrite Hp0. unfold ok at 1. cbn [rbind].
  rewrite unfold_patches by lia. rewrite Hfh, Hfw.
  unfold ok at 1. cbn [rbind fst snd].
  rewrite (infer_dim_mul _ _ (b * (fh * fw))) by nia.
  unfold ok at 1. cbn [rbind]. rewrite Hmod. unfold ok at 1. cbn [rbind].
  rewrite (infer_dim_mul _ _ oc) by nia. unfold ok at 1. cbn [rbind].
  rewrite (infer_dim_mul _ _ (oc * (ph * pw))) by nia.
  unfold ok at 1. cbn [rbind].
  rewrite fold_patches; try lia.
  - by rewrite Nat.div_mul by nia.
  - by apply Nat.Div0.mod_mul.
Qed.

End forward.
Lemma forward_shape_witness :
  forward (λ x _, ok (x.1.1.1, 5, x.1.2 - 2, x.2 - 2))
    {| padding := (1, 1); padding_mode := "reflect" |}
    (1, 4, 9, 6) (1, 180, 3, 2)
  = ok (1, 5, 9, 6).
Proof.
  apply (forward_shape (λ x _, ok (x.1.1.1, 5, x.1.2 - 2, x.2 - 2))
           {| padding := (1, 1); padding_mode := "reflect" |}
           1 4 9 6 1 180 3 2 5 (1, 4, 11, 8)).
  - reflexivity.
  - vm_compute. reflexivity.
  - lia.
  - lia.
  - lia.
  - simpl. lia.
  - simpl. lia.
  - reflexivity.
  - reflexivity.
  - vm_compute. reflexivity.
Defined.

End PatchMore.

(** ** Facts about the patch convolution without padding *)

Module NoPaddingFacts.
Import Patch NoPadding.

(** X16: unlike [HyperPatch], [HyperPatchNoPadding.forward] does reject a
    feature map that the weight grid does not divide: for a non-empty
    tensor, when [fh] does not divide [H] or [fw] does not divide [W] the
    call raises [RuntimeError] (the [view] into [fh * ph] by [fw * pw]
    positions does not fit, if the weight reshape has not failed before). *)
Theorem forward_rejects_remainder (self : hyper_patch_no_padding)
    (b c h w wb wc fh fw : nat) :
  0 < b → 0 < c → 0 < h → 0 < w → 0 < fh → 0 < fw →
  h `mod` fh ≠ 0 ∨ w `mod` fw ≠ 0 →
  forward self (b, c, h, w) (wb, wc, fh, fw) = raise RuntimeError.
Proof.
  intros Hb Hc Hh Hw Hfh Hfw Hrem. unfold forward.
  rewrite decide_False by lia.
  case_decide; [done|].
  rewrite decide_True; [done|].
  pose proof (Nat.div_mod h fh ltac:(lia)) as Hdh.
  pose proof (Nat.div_mod w fw ltac:(lia)) as Hdw.
  set (ph := h `div` fh) in *. set (pw := w `div` fw) in *.
  assert (fh * ph * (fw * pw) < h * w) as Hlt.
  { destruct Hrem as [Hr|Hr].
    - assert (fh * ph < h) by lia. assert (fw * pw ≤ w) by lia. nia.
    - assert (fw * pw < w) by lia. assert (fh * ph ≤ h) by lia. nia. }
  nia.
Qed.

Lemma forward_rejects_remainder_witness :
  forward {| in_channels := 4; out_channels := 5; kernel_size := (1, 1);
             stride := (1, 1); dilation := (1, 1); groups := 1;
             hyper_params := 20 |}
    (1, 4, 10, 6) (1, 20, 3, 2)
  = raise RuntimeError.
Proof.
  apply (forward_rejects_remainder _ 1 4 10 6 1 20 3 2); try lia.
  left. vm_compute. discriminate.
Defined.



End NoPaddingFacts.

(** ** Facts about the traversals of the model tree *)

Module ModuleTreeFacts.
Import ModuleTree.
Local Open Scope Z_scope.

Section tree.
Context `{FloatOps F}.
Variable initial_weight : Z → Z → list (list F).

Lemma module_ind (P : module (F:=F) → Prop) :
  (∀ m, P (Layer m)) →
  (∀ ms, Forall P ms → P (Children ms)) →
  ∀ model, P model.
Proof.
  intros HL HC. fix IH 1. intros [m|ms]; [apply HL|].
  apply HC. induction ms as [|m ms IHms]; constructor; [apply IH|apply IHms].
Qed.

Lemma get_hyper_params_cons (m0 : module (F:=F)) (ms : list module) :
  get_hyper_params (Children (m0 :: ms))
  = match m0 with
    | Layer w => WeightLayer.target_params w :: get_hyper_params (Children ms)
    | Children _ => get_hyper_params m0 ++ get_hyper_params (Children ms)
    end.
Proof. by destruct m0. Qed.

Lemma layers_cons (m0 : module (F:=F)) (ms : list module) :
  layers (Children (m0 :: ms))
  = match m0 with
    | Layer w => w :: layers (Children ms)
    | Children _ => layers m0 ++ layers (Children ms)
    end.
Proof. by destruct m0. Qed.

Lemma init_signal2weights_children (cs : list module) sf idx wg (r : module * (list Z * list Z)) :
  init_signal2weights initial_weight (Children cs) sf idx wg = ok r →
  ∃ cs', r.1 = Children cs'.
Proof.
  simpl. destruct (init_children _ _ _ _ _ _) as [e|r0]; [done|].
  intros [= <-]. by eexists.
Qed.

Lemma init_children_cons_children recurse (cs ms : list module) sf idx wg :
  init_children initial_weight recurse (Children cs :: ms) sf idx wg
  = rbind (recurse (Children cs) sf idx wg) (λ r1,
      rbind (init_children initial_weight recurse ms r1.2.1 idx r1.2.2) (λ r,
        ok (r1.1 :: r.1, r.2))).
Proof. reflexivity. Qed.

Lemma init_children_served (ms : list module) :
  Forall (λ model, ∀ sf idx wg model' sf' wg',
            init_signal2weights initial_weight model sf idx wg
            = ok (model', (sf', wg')) →
            served model model' sf wg sf' wg') ms →
  ∀ sf idx wg ms' sf' wg',
    init_children initial_weight (init_signal2weights initial_weight)
      ms sf idx wg = ok (ms', (sf', wg')) →
    served (Children ms) (Children ms') sf wg sf' wg'.
Proof.
  unfold served. induction 1 as [|m ms Hm Hms IH];
    intros sf idx wg ms' sf' wg' Hinit.
  { injection Hinit as <- <- <-. simpl. rewrite !drop_0. split_and!; done || lia. }
  destruct m as [m|cs].
  - simpl in Hinit. destruct sf as [|f sf]; [done|].
    destruct wg as [|g wg]; [done|].
    destruct (WeightLayer.init_signal2weights _ _ _ _ _) as [e|m1] eqn:Hm1; [done|].
    cbn [rbind] in Hinit.
    destruct (init_children _ _ _ _ _ _) as [e|[ms1 [sf1 wg1]]] eqn:Hrest; [done|].
    injection Hinit as <- <- <-.
    destruct (IH _ _ _ _ _ _ Hrest) as (Hhp & -> & -> & Hlf & Hlg & Htp & Hsc).
    apply WeightLayerFacts.init_signal2weights_inv in Hm1
      as (_ & _ & Htm & Hsm & _).
    rewrite !get_hyper_params_cons, !layers_cons, !fmap_cons.
    rewrite Hhp, Htm, Hsm, Htp, Hsc. cbn [length drop take fmap list_fmap].
    split_and!; done || lia.
  - rewrite init_children_cons_children in Hinit.
    destruct (init_signal2weights initial_weight _ _ _ _)
      as [e|[m1 [sf1 wg1]]] eqn:Hm1; [done|].
    cbn [rbind fst snd] in Hinit.
    destruct (init_children _ _ _ _ _ _) as [e|[ms1 [sf2 wg2]]] eqn:Hrest; [done|].
    injection Hinit as <- <- <-.
    destruct (init_signal2weights_children _ _ _ _ _ Hm1) as [cs1 Hcs1].
    simpl in Hcs1. subst m1.
    destruct (Hm _ _ _ _ _ _ Hm1) as (Hhp1 & -> & -> & Hlf1 & Hlg1 & Htp1 & Hsc1).
    destruct (IH _ _ _ _ _ _ Hrest) as (Hhp & -> & -> & Hlf & Hlg & Htp & Hsc).
    rewrite !length_drop in Hlf, Hlg.
    rewrite !get_hyper_params_cons, !layers_cons, !fmap_app.
    rewrite Hhp1, Hhp, Htp1, Htp, Hsc1, Hsc.
    rewrite length_app, !drop_drop.
    set (n1 := length (get_hyper_params (Children cs))) in *.
    set (n2 := length (get_hyper_params (Children ms))) in *.
    split_and!; try done; try lia.
    rewrite <-fmap_app. f_equal.
    rewrite <-(take_drop n1 sf) at 3.
    rewrite take_app_add'; [done|]. rewrite length_take. lia.
Qed.

(** X18: [init_signal2weights] hands the entries of [signal_features] (and
    of [weight_groups]) to the weight layers in the order in which
    [get_hyper_params] lists their [target_params]: when the call returns,
    the [j]-th layer has the [j]-th entry as its [signal_channels], the
    [target_params] of the layers are unchanged, and each of the two list
    objects has lost exactly one leading entry per layer. *)
Theorem init_signal2weights_order (model model' : module)
    (signal_features weight_groups signal_features' weight_groups' : list Z)
    (signal_index : Z) :
  init_signal2weights initial_weight model signal_features signal_index
    weight_groups = ok (model', (signal_features', weight_groups')) →
  let n := length (get_hyper_params model) in
  get_hyper_params model' = get_hyper_params model
  ∧ signal_features' = drop n signal_features
  ∧ weight_groups' = drop n weight_groups
  ∧ (n ≤ length signal_features)%nat ∧ (n ≤ length weight_groups)%nat
  ∧ WeightLayer.target_params <$> layers model' = get_hyper_params model
  ∧ WeightLayer.signal_channels <$> layers model'
    = Some <$> take n signal_features.
Proof.
  revert signal_features weight_groups signal_features' weight_groups'
    signal_index model'.
  induction model as [m|ms IH] using module_ind;
    intros sf wg sf' wg' idx model' Hinit.
  - injection Hinit as <- <- <-. simpl. rewrite !drop_0. split_and!; done || lia.
  - simpl in Hinit.
    destruct (init_children _ _ _ _ _ _) as [e|[ms1 [sf1 wg1]]] eqn:Hrest; [done|].
    injection Hinit as <- <- <-.
    eapply (init_children_served ms); [|exact Hrest].
    eapply Forall_impl; [exact IH|]. simpl.
    intros m Hm sf0 idx0 wg0 m' sf0' wg0' Hinit0. by eapply Hm.
Qed.

Lemma get_hyper_params_layers (blocks : list (WeightLayer.weight_layer F)) :
  get_hyper_params (Children (Layer <$> blocks))
  = WeightLayer.target_params <$> blocks.
Proof.
  induction blocks as [|m blocks IH]; [done|].
  rewrite fmap_cons, get_hyper_params_cons, IH. done.
Qed.

Lemma layers_layers (blocks : list (WeightLayer.weight_layer F)) :
  layers (Children (Layer <$> blocks)) = blocks.
Proof.
  induction blocks as [|m blocks IH]; [done|].
  rewrite fmap_cons, layers_cons, IH. done.
Qed.

(** On a list of weight layers the loop is the pass of
    [Decoder.init_signal2weights]. *)
Lemma init_children_layers recurse (blocks : list (WeightLayer.weight_layer F))
    sf idx wg :
  init_children initial_weight recurse (Layer <$> blocks) sf idx wg
  = rbind (Decoder.init_signal2weights initial_weight blocks sf wg idx)
      (λ blocks', ok (Layer <$> blocks',
                      (drop (length blocks) sf, drop (length blocks) wg))).
Proof.
  revert sf idx wg. induction blocks as [|m blocks IH]; intros sf idx wg.
  { simpl. by rewrite !drop_0. }
  rewrite fmap_cons. simpl.
  destruct sf as [|f sf]; [done|]. destruct wg as [|g wg]; [done|].
  destruct (WeightLayer.init_signal2weights _ _ _ _ _) as [e|m']; [done|].
  cbn [rbind]. rewrite IH.
  by destruct (Decoder.init_signal2weights _ _ _ _ _) as [e|blocks'].
Qed.

(** X19: on the decoder, whose weight layers are the children of
    [weight_blocks] (the level blocks hold none), the two generic
    traversals are one pass over [weight_blocks] from left to right:
    [get_hyper_params] is the list of their [target_params], and
    [init_signal2weights] gives them consecutive signal slices from
    [signal_index] on, one entry of [signal_features] and of
    [weight_groups] each, and fails exactly when that pass fails. *)
Theorem decoder_tree_pass (blocks : list (WeightLayer.weight_layer F))
    (signal_features weight_groups : list Z) (signal_index : Z) :
  get_hyper_params (DecoderArgs.tree blocks)
  = WeightLayer.target_params <$> blocks
  ∧ init_signal2weights initial_weight (DecoderArgs.tree blocks)
      signal_features signal_index weight_groups
    = rbind (Decoder.init_signal2weights initial_weight blocks
               signal_features weight_groups signal_index)
        (λ blocks', ok (DecoderArgs.tree blocks',
                        (drop (length blocks) signal_features,
                         drop (length blocks) weight_groups))).
Proof.
  unfold DecoderArgs.tree. split.
  - rewrite get_hyper_params_cons, get_hyper_params_cons.
    rewrite get_hyper_params_layers. simpl. by rewrite app_nil_r.
  - change (init_signal2weights initial_weight (Children ?ms) ?sf ?idx ?wg)
      with (rbind (init_children initial_weight
                     (init_signal2weights initial_weight) ms sf idx wg)
              (λ r, ok (Children r.1, r.2))).
    rewrite init_children_cons_children.
    change (init_signal2weights initial_weight (Children []) ?sf ?idx ?wg)
      with (ok (Children (F:=F) [], (sf, wg))).
    unfold ok at 1. cbn [rbind fst snd].
    rewrite init_children_cons_children.
    change (init_signal2weights initial_weight (Children ?ms) ?sf ?idx ?wg)
      with (rbind (init_children initial_weight
                     (init_signal2weights initial_weight) ms sf idx wg)
              (λ r, ok (Children r.1, r.2))).
    rewrite init_children_layers.
    by destruct (Decoder.init_signal2weights _ _ _ _ _) as [e|blocks'].
Qed.

End tree.

(** Three layers, the second inside a child module. *)
Lemma init_signal2weights_order_witness :
  ∃ model' : module (F:=Q),
    init_signal2weights
      (λ out n, replicate (Z.to_nat out) (replicate (Z.to_nat n) 1%Q))
      (Children [Layer (WeightLayer.new 5);
                 Children [Layer (WeightLayer.new 3)];
                 Layer (WeightLayer.new 4)])
      [4; 2; 6; 8] 0 [2; 1; 3; 7]
    = ok (model', ([8], [7]))
    ∧ let n := length (get_hyper_params
                         (Children [Layer (WeightLayer.new (F:=Q) 5);
                                    Children [Layer (WeightLayer.new 3)];
                                    Layer (WeightLayer.new 4)])) in
      get_hyper_params model'
      = get_hyper_params (Children [Layer (WeightLayer.new (F:=Q) 5);
                                    Children [Layer (WeightLayer.new 3)];
                                    Layer (WeightLayer.new 4)])
      ∧ [8] = drop n [4; 2; 6; 8]
      ∧ [7] = drop n [2; 1; 3; 7]
      ∧ (n ≤ length [4; 2; 6; 8])%nat ∧ (n ≤ length [2; 1; 3; 7])%nat
      ∧ WeightLayer.target_params <$> layers model'
        = get_hyper_params (Children [Layer (WeightLayer.new (F:=Q) 5);
                                      Children [Layer (WeightLayer.new 3)];
                                      Layer (WeightLayer.new 4)])
      ∧ WeightLayer.signal_channels <$> layers model'
        = Some <$> take n [4; 2; 6; 8].
Proof.
  eexists. split; [vm_compute; reflexivity|].
  apply (init_signal2weights_order
           (λ out n, replicate (Z.to_nat out) (replicate (Z.to_nat n) 1%Q))
           (Children [Layer (WeightLayer.new 5);
                      Children [Layer (WeightLayer.new 3)];
                      Layer (WeightLayer.new 4)])
           _ [4; 2; 6; 8] [2; 1; 3; 7] [8] [7] 0).
  vm_compute. reflexivity.
Defined.

(** [signal_index] is passed down by value: the layer inside the child
    module and the layer after it both start at channel 4. *)
Example nested_slices_overlap :
  rbind (init_signal2weights
           (λ out n, replicate (Z.to_nat out) (replicate (Z.to_nat n) 1%Q))
           (Children [Layer (WeightLayer.new 5);
                      Children [Layer (WeightLayer.new 3)];
                      Layer (WeightLayer.new 4)])
           [4; 2; 6; 8] 0 [2; 1; 3; 7])
    (λ r, ok (WeightLayer.signal_index <$> layers r.1))
  = ok [Some 0; Some 4; Some 4].
Proof. vm_compute. reflexivity. Qed.

End ModuleTreeFacts.

(** ** Facts about the arguments of the decoder's constructor *)

Module DecoderArgsFacts.
Import Decoder DecoderArgs.
Local Open Scope Z_scope.

Section init.
Context `{FloatOps F}.
Variable initial_weight : Z → Z → list (list F).

Lemma tree_hyper_params (blocks : list (WeightLayer.weight_layer F)) :
  ModuleTree.get_hyper_params (tree blocks)
  = WeightLayer.target_params <$> blocks.
Proof.
  unfold tree. rewrite !ModuleTreeFacts.get_hyper_params_cons.
  rewrite ModuleTreeFacts.get_hyper_params_layers. simpl. by rewrite app_nil_r.
Qed.

Lemma tree_layers (blocks : list (WeightLayer.weight_layer F)) :
  ModuleTree.layers (tree blocks) = blocks.
Proof.
  unfold tree. rewrite !ModuleTreeFacts.layers_cons.
  rewrite ModuleTreeFacts.layers_layers. simpl. by rewrite app_nil_r.
Qed.

(** With an integer [unify_level] and a list [weight_groups] the
    constructor is [Decoder.init], and the list loses one entry for each
    weight block. *)
Lemma init_list level_params unify_level signal_channels (l : list Z) :
  init initial_weight level_params (Some unify_level) signal_channels
    (GroupsList l)
  = rbind (Decoder.init initial_weight level_params unify_level
             signal_channels l)
      (λ self, ok (self, GroupsList (drop (length (weight_blocks self)) l))).
Proof.
  unfold init, Decoder.init.
  destruct (init_levels _ _ _ _) as [e|built]; [done|]. cbn [rbind].
  rewrite tree_hyper_params.
  destruct (py_max_list l) as [e|min_unit]; [done|]. cbn [rbind].
  destruct (Alloc.divide_feature _ _ _) as [e|feats]; [done|]. cbn [rbind].
  destruct (ModuleTreeFacts.decoder_tree_pass initial_weight built.1 feats l 0)
    as [_ ->].
  destruct (Decoder.init_signal2weights _ _ _ _ _) as [e|blocks] eqn:Hblocks;
    [done|].
  cbv beta iota delta [rbind ok fst snd]. rewrite tree_layers.
  cbn [weight_blocks default].
  apply DecoderMore.init_signal2weights_lookup in Hblocks as [-> _]. done.
Qed.

Lemma divide_feature_no_consumer in_feature min_unit alloc :
  Alloc.divide_feature in_feature [] min_unit ≠ ok alloc.
Proof. by intros (_ & _ & ? & _)%AllocFacts.divide_feature_inv. Qed.

(** X20: the defaults of the constructor do not construct anything:
    [MultiScaleDecoder.__init__] returns only when [unify_level] is given
    as an integer and [weight_groups] as a list.  With [unify_level=None]
    the first level raises [TypeError] (and without levels there is nothing
    to allocate to); with a number for [weight_groups], as the default 1,
    [max(weight_groups)] raises. *)
Theorem init_needs_explicit_arguments level_params unify_level
    signal_channels weight_groups :
  (∀ r, init initial_weight level_params unify_level signal_channels
          weight_groups = ok r →
        ∃ u l, unify_level = Some u ∧ weight_groups = GroupsList l)
  ∧ (unify_level = None → level_params ≠ [] →
     init initial_weight level_params unify_level signal_channels
       weight_groups = raise TypeError)
  ∧ (∀ u g (built : list (WeightLayer.weight_layer F) * list Z),
       unify_level = Some u → weight_groups = GroupsNumber g →
       init_levels level_params u (seq 0 (length level_params)) ([], [0])
       = ok built →
       init initial_weight level_params unify_level signal_channels
         weight_groups = raise TypeError).
Proof.
  split_and!.
  - intros r. unfold init.
    destruct unify_level as [u|].
    + destruct weight_groups as [g|l]; [|by eauto].
      by destruct (init_levels _ _ _ _).
    + case_decide as Hl; [|done].
      destruct weight_groups as [g|l]; [done|].
      unfold ok at 1. cbn [rbind fst].
      destruct (py_max_list l) as [e|min_unit]; [done|]. cbn [rbind].
      destruct (Alloc.divide_feature _ _ _) as [e|feats] eqn:Hf; [done|].
      by apply divide_feature_no_consumer in Hf.
  - intros -> Hne. unfold init.
    rewrite decide_False; [done|]. by destruct level_params.
  - intros u g built -> -> Hbuilt. unfold init. by rewrite Hbuilt.
Qed.

(** X21: construction consumes the caller's [weight_groups] list.  When
    [__init__] returns, the decoder is the one [Decoder.init] describes
    and the list object has lost its first [len(weight_blocks)] entries
    ([init_signal2weights] pops them).  A list with exactly one entry for
    each weight block is left empty, and no decoder can be constructed
    from an empty list: the same list object cannot configure a second
    decoder. *)
Theorem init_consumes_weight_groups level_params unify_level signal_channels
    (l : list Z) (self : decoder F) (weight_groups' : weight_groups_arg) :
  init initial_weight level_params (Some unify_level) signal_channels
    (GroupsList l) = ok (self, weight_groups') →
  Decoder.init initial_weight level_params unify_level signal_channels l
  = ok self
  ∧ weight_groups' = GroupsList (drop (length (weight_blocks self)) l)
  ∧ (length l = length (weight_blocks self) →
     ∀ level_params2 unify_level2 signal_channels2 r,
       init initial_weight level_params2 unify_level2 signal_channels2
         weight_groups' ≠ ok r).
Proof.
  rewrite init_list.
  destruct (Decoder.init _ _ _ _ _) as [e|self0]; [done|].
  cbn [rbind]. intros [= <- <-]. split_and!; [done..|].
  intros Hlen lp2 u2 sc2 r. rewrite drop_ge by lia.
  unfold init. destruct (match u2 with Some _ => _ | None => _ end); [done|].
  done.
Qed.

End init.

Lemma init_consumes_weight_groups_witness :
  ∃ self : decoder Q,
    init (λ out n, replicate (Z.to_nat out) (replicate (Z.to_nat n) 1%Q))
      [8; 6; 4] (Some 2) 16 (GroupsList [2; 2]) = ok (self, GroupsList [])
    ∧ Decoder.init (λ out n, replicate (Z.to_nat out) (replicate (Z.to_nat n) 1%Q))
        [8; 6; 4] 2 16 [2; 2] = ok self
    ∧ GroupsList [] = GroupsList (drop (length (weight_blocks self)) [2; 2])
    ∧ (length [2; 2] = length (weight_blocks self) →
       ∀ level_params2 unify_level2 signal_channels2 r,
         init (λ out n, replicate (Z.to_nat out) (replicate (Z.to_nat n) 1%Q))
           level_params2 unify_level2 signal_channels2 (GroupsList [])
         ≠ ok r).
Proof.
  eexists. split; [vm_compute; reflexivity|].
  apply (init_consumes_weight_groups
           (λ out n, replicate (Z.to_nat out) (replicate (Z.to_nat n) 1%Q))
           [8; 6; 4] 2 16 [2; 2]).
  vm_compute. reflexivity.
Defined.

End DecoderArgsFacts.

(** ** Facts about the inference over a pyramid *)

Module InferenceFacts.
Import HyperGen Inference.

Lemma qsum_app (l k : list Q) : (qsum (l ++ k) == qsum l + qsum k)%Q.
Proof.
  induction l as [|a l IH]; simpl; [ring|]. rewrite IH. ring.
Qed.

Lemma qsum_scale (c : Q) (l k : list Q) :
  Forall2 (λ a b, a == b * c)%Q l k → (qsum l == qsum k * c)%Q.
Proof.
  induction 1 as [|a b l k Hab _ IH]; simpl; [ring|]. rewrite Hab, IH. ring.
Qed.

Lemma mean_weight_S (n i : nat) :
  (0 < n)%nat → (i < n)%nat →
  (mean_weight (S n) i == mean_weight n i * (1 # 2))%Q.
Proof.
  intros Hn Hi. unfold mean_weight.
  replace (Z.of_nat (S n - i `max` 1)) with (Z.succ (Z.of_nat (n - i `max` 1)))
    by lia.
  rewrite Z.pow_succ_r by lia.
  assert (0 < 2 ^ Z.of_nat (n - i `max` 1))%Z as Hpos
    by (apply Z.pow_pos_nonneg; lia).
  unfold Qeq, Qmult. simpl.
  rewrite Pos2Z.inj_mul, !Z2Pos.id by lia. lia.
Qed.

Lemma mean_weight_last (n : nat) :
  (0 < n)%nat → (mean_weight (S n) n == 1 # 2)%Q.
Proof.
  intros Hn. unfold mean_weight.
  replace (Z.of_nat (S n - n `max` 1)) with 1%Z by lia. done.
Qed.

(** The running mean of lines 69 and 91 on one entry, in closed form. *)
Lemma running_mean (v0 : Q) (vs : list Q) :
  (foldl (λ a v, (v + a) * (1 # 2)) v0 vs
   == qsum (zip_with Qmult
              (mean_weight (S (length vs)) <$> seq 0 (S (length vs)))
              (v0 :: vs)))%Q.
Proof.
  induction vs as [|v vs IH] using rev_ind.
  { unfold mean_weight. simpl. ring. }
  rewrite foldl_app. cbn [foldl]. rewrite IH.
  rewrite length_app. cbn [length].
  replace (length vs + 1)%nat with (S (length vs)) by lia.
  set (n := S (length vs)).
  rewrite (seq_S n 0), fmap_app.
  change (v0 :: vs ++ [v]) with ((v0 :: vs) ++ [v]).
  rewrite zip_with_app by (rewrite length_fmap, length_seq; simpl; lia).
  rewrite qsum_app.
  rewrite (qsum_scale (1 # 2)
             (zip_with Qmult (mean_weight (S n) <$> seq 0 n) (v0 :: vs))
             (zip_with Qmult (mean_weight n <$> seq 0 n) (v0 :: vs))).
  - change (0 + n)%nat with n.
    change (qsum (zip_with Qmult (mean_weight (S n) <$> [n]) [v]))
      with (mean_weight (S n) n * v + 0)%Q.
    rewrite mean_weight_last by lia. ring.
  - apply Forall2_same_length_lookup_2.
    { by rewrite !length_zip_with, !length_fmap. }
    intros i a b Ha Hb.
    apply lookup_zip_with_Some in Ha as (w1 & u1 & -> & Hw1 & Hu1).
    apply lookup_zip_with_Some in Hb as (w2 & u2 & -> & Hw2 & Hu2).
    assert (u1 = u2) as -> by congruence.
    apply list_lookup_fmap_Some in Hw1 as (i1 & -> & Hi1).
    apply list_lookup_fmap_Some in Hw2 as (i2 & -> & Hi2).
    apply lookup_seq in Hi1 as [-> Hlt]. apply lookup_seq in Hi2 as [-> _].
    change (0 + i)%nat with i. rewrite mean_weight_S by lia. ring.
Qed.

Section forward.
Variable spatial : tensor Q → nat * nat.
Variable interpolate : tensor Q → nat * nat → tensor Q.
Variable process_single_tensor : tensor Q → bool → res (tensor Q).

Lemma forward_loop_mean (self : hypergen) out_res (r0 : tensor Q)
    (xs qs : list (tensor Q)) :
  inference_gather self = "mean" →
  Forall2 (λ x q, prediction spatial interpolate process_single_tensor
                    self out_res x = ok q) xs qs →
  forward_loop spatial interpolate process_single_tensor self out_res
    (Some r0) xs
  = ok (Some (foldl (λ out q, tensor_scale (tensor_add q out) fhalf) r0 qs)).
Proof.
  intros Hmean Hqs. revert r0.
  induction Hqs as [|x q xs qs Hq _ IH]; intros r0; [done|].
  simpl. rewrite Hq. cbn [rbind]. unfold ok at 1. cbn [rbind].
  unfold gather_results. rewrite decide_True by done.
  unfold ok at 1. cbn [rbind]. apply IH.
Qed.

Lemma fuse_lookup (r0 q : tensor Q) (j : nat) (a b : Q) :
  r0 !! j = Some a → q !! j = Some b →
  tensor_scale (tensor_add q r0) fhalf !! j = Some ((b + a) * (1 # 2))%Q.
Proof.
  intros Ha Hb. unfold tensor_scale, tensor_add.
  rewrite list_lookup_fmap.
  rewrite (proj2 (lookup_zip_with_Some fadd q r0 j (b + a)%Q)); [done|].
  by exists b, a.
Qed.

Lemma fuse_fold (m j : nat) (r0 : tensor Q) (qs : list (tensor Q)) :
  length r0 = m → Forall (λ q, length q = m) qs → j < m →
  length (foldl (λ out q, tensor_scale (tensor_add q out) fhalf) r0 qs) = m
  ∧ default 0%Q
      (foldl (λ out q, tensor_scale (tensor_add q out) fhalf) r0 qs !! j)
    = foldl (λ a v, (v + a) * (1 # 2))%Q (default 0%Q (r0 !! j))
        ((λ q, default 0%Q (q !! j)) <$> qs).
Proof.
  intros Hr0 Hqs Hj. revert r0 Hr0.
  induction Hqs as [|q qs Hq _ IH]; intros r0 Hr0; [done|].
  rewrite fmap_cons. cbn [foldl].
  destruct (lookup_lt_is_Some_2 r0 j ltac:(lia)) as [a Ha].
  destruct (lookup_lt_is_Some_2 q j ltac:(lia)) as [b Hb].
  destruct (IH (tensor_scale (tensor_add q r0) fhalf)) as [Hlen Hentry].
  { unfold tensor_scale, tensor_add.
    rewrite length_fmap, length_zip_with. lia. }
  split; [done|]. rewrite Hentry, (fuse_lookup _ _ _ _ _ Ha Hb).
  unfold tensor in *. by rewrite Ha, Hb.
Qed.

(** X22: the ['mean'] fusion of [HyperGen.forward] is a running mean, not
    the mean of the pyramid: of [n] predictions (each at the output
    resolution, the horizontal flip included when it is enabled) the
    result holds, entry by entry, the [i]-th with weight [1 / 2 ^ (n - i)]
    and the first with weight [1 / 2 ^ (n - 1)].  So the last pyramid
    counts for one half, and with three pyramids or more the predictions
    do not count equally. *)
Theorem forward_mean_weights (self : hypergen) (xs qs : list (tensor Q))
    (x0 : tensor Q) (m : nat) :
  inference_gather self = "mean" →
  xs !! 0 = Some x0 →
  Forall2 (λ x q, prediction spatial interpolate process_single_tensor
                    self (spatial x0) x = ok q) xs qs →
  Forall (λ q, length q = m) qs →
  ∃ r, forward spatial interpolate process_single_tensor self (Pyramid xs)
       = ok (Some r)
    ∧ length r = m
    ∧ ∀ j, j < m →
        (default 0 (r !! j)
         == qsum (zip_with Qmult
                    (mean_weight (length qs) <$> seq 0 (length qs))
                    ((λ q, default 0 (q !! j)) <$> qs)))%Q.
Proof.
  intros Hmean Hx0 Hqs Hlen.
  destruct Hqs as [|x q xs qs Hq Hqs]; [done|].
  injection Hx0 as ->. apply Forall_cons in Hlen as [Hq0 Hlen].
  exists (foldl (λ out q, tensor_scale (tensor_add q out) fhalf) q qs).
  split_and!.
  - unfold forward.
    change (py_index (x0 :: xs) 0) with (py_index (x0 :: xs) (Z.of_nat 0)).
    rewrite (DecoderFacts.py_index_lookup (x0 :: xs) 0 x0 eq_refl).
    unfold ok at 1. cbn [rbind]. simpl. rewrite Hq.
    unfold ok at 1. cbn [rbind]. by apply forward_loop_mean.
  - destruct m as [|m].
    + clear -Hq0 Hlen. revert q Hq0.
      induction Hlen as [|q1 qs Hq1 _ IH]; intros q Hq0; [done|].
      simpl. apply IH. unfold tensor_scale, tensor_add.
      rewrite length_fmap, length_zip_with. lia.
    + by destruct (fuse_fold (S m) 0 q qs Hq0 Hlen ltac:(lia)).
  - intros j Hj.
    destruct (fuse_fold m j q qs Hq0 Hlen Hj) as [_ ->].
    rewrite running_mean. simpl. by rewrite length_fmap.
Qed.

End forward.

(** Three pyramids of one entry each: [(3 + (2 + 1) / 2) / 2]. *)
Lemma forward_mean_weights_witness :
  ∃ r, forward (λ _, (1, 1)) (λ t _, t) (λ x _, ok x)
         {| inference_hflip := false; inference_gather := "mean" |}
         (Pyramid [[1]; [2]; [3]]%Q)
       = ok (Some r)
    ∧ length r = 1
    ∧ ∀ j, j < 1 →
        (default 0 (r !! j)
         == qsum (zip_with Qmult
                    (mean_weight (length [[1]; [2]; [3]]%Q)
                       <$> seq 0 (length [[1]; [2]; [3]]%Q))
                    ((λ q, default 0 (q !! j)) <$> [[1]; [2]; [3]])))%Q.
Proof.
  apply (forward_mean_weights (λ _, (1, 1)) (λ t _, t) (λ x _, ok x)
           {| inference_hflip := false; inference_gather := "mean" |}
           [[1]; [2]; [3]]%Q [[1]; [2]; [3]]%Q [1%Q] 1).
  - reflexivity.
  - reflexivity.
  - repeat constructor.
  - repeat constructor.
Defined.

Example forward_mean_three :
  forward (λ _, (1, 1)) (λ t _, t) (λ x _, ok x)
    {| inference_hflip := false; inference_gather := "mean" |}
    (Pyramid [[1]; [2]; [3]]%Q)
  = ok (Some [(3 + (2 + 1) * (1 # 2)) * (1 # 2)]%Q).
Proof. reflexivity. Qed.

End InferenceFacts.

(** ** Facts about the shapes of the inverted-residual block *)

Module InvertedResidualConvFacts.
Import Patch InvertedResidual InvertedResidualConv.



Lemma conv2d_ok (n c h w oc ic kh kw s1 s2 g : nat) :
  0 < g → 0 < s1 → 0 < s2 → 0 < kh → 0 < kw →
  c = ic * g → oc `mod` g = 0 → kh ≤ h → kw ≤ w →
  NoPadding.conv2d (n, c, h, w) (oc, ic, kh, kw) (s1, s2) (1, 1) g
  = ok (n, oc, (h - kh) `div` s1 + 1, (w - kw) `div` s2 + 1).
Proof.
  intros Hg Hs1 Hs2 Hkh Hkw Hc Hoc Hh Hw. unfold NoPadding.conv2d. simpl.
  rewrite decide_False by lia. rewrite decide_False by lia.
  rewrite decide_False by lia. rewrite decide_False by lia.
  replace (h - (kh - 1 + 0) - 1) with (h - kh) by lia.
  by replace (w - (kw - 1 + 0) - 1) with (w - kw) by lia.
Qed.




Lemma infer_dim_inv (numel known q : nat) :
  infer_dim numel known = ok q → known ≠ 0 ∧ numel = q * known.
Proof.
  unfold infer_dim. case_decide as Hk; [done|].
  case_decide as Hm; [|done]. intros [= <-]. split; [done|].
  pose proof (Nat.div_mod numel known Hk). lia.
Qed.

Lemma conv2d_inv (n c h w oc ic kh kw s1 s2 g : nat) y :
  NoPadding.conv2d (n, c, h, w) (oc, ic, kh, kw) (s1, s2) (1, 1) g = ok y →
  y = (n, oc, (h - kh) `div` s1 + 1, (w - kw) `div` s2 + 1)
  ∧ 0 < s1 ∧ 0 < s2 ∧ 0 < kh ∧ 0 < kw ∧ kh ≤ h ∧ kw ≤ w.
Proof.
  unfold NoPadding.conv2d. simpl.
  case_decide as H1; [done|]. case_decide as H2; [done|].
  case_decide as H3; [done|]. case_decide as H4; [done|].
  intros [= <-].
  replace (h - (kh - 1 + 0) - 1) with (h - kh) by lia.
  replace (w - (kw - 1 + 0) - 1) with (w - kw) by lia.
  split_and!; done || lia.
Qed.

Lemma norm_inv (num_features : nat) (x y : shape4) :
  norm num_features x = ok y → y = x ∧ x.1.1.2 = num_features.
Proof. unfold norm. case_decide; [|done]. by intros [= <-]. Qed.

(** X24: what [HyperPatchInvertedResidual.conv] cannot do.  The padding
    of one pixel is fixed, so whenever the call returns for a block with a
    square kernel [k] and a positive hidden dimension, stride 1 forces
    [k = 3]; and with stride 2, which the constructor admits, a 3x3 block
    returns only on patches of a single pixel ([H // fh = W // fw = 1]). *)
Theorem conv_kernel_and_stride (self : block) (padding_mode : string)
    (b c h w wb wc fh fw : nat) (k : Z) (s : shape4) :
  conv self padding_mode (b, c, h, w) (wb, wc, fh, fw) = ok s →
  InvertedResidual.kernel_size self = (k, k) → (0 < hidden_dim self)%Z →
  (InvertedResidual.stride self = 1%Z → k = 3%Z)
  ∧ (InvertedResidual.stride self = 2%Z → k = 3%Z →
     h `div` fh = 1 ∧ w `div` fw = 1).
Proof.
  intros Hconv Hks Hhid. unfold conv in Hconv. rewrite Hks in Hconv.
  cbn [fst snd] in Hconv.
  set (ph := h `div` fh) in *. set (pw := w `div` fw) in *.
  set (Hd := Z.to_nat (hidden_dim self)) in *.
  set (K := Z.to_nat k) in *. set (S := Z.to_nat (stride self)) in *.
  case_decide as Hf; [done|].
  repeat match type of Hconv with
         | rbind ?m _ = ok _ =>
             lazymatch m with
             | NoPadding.conv2d _ (_, 1, _, _) _ _ _ => fail
             | _ => destruct m as [?|?]; [done|]; cbn [rbind] in Hconv
             end
         end.
  destruct (NoPadding.conv2d _ _ _ _ _) as [e|y2] eqn:Hy2 in Hconv; [done|].
  cbn [rbind] in Hconv.
  apply conv2d_inv in Hy2 as (-> & HS & _ & HK & _ & Hkh & Hkw).
  destruct (infer_dim _ _) as [e|c2] eqn:Hc2 in Hconv; [done|].
  cbn [rbind] in Hconv.
  destruct (norm _ _) as [e|y] eqn:Hn in Hconv; [done|].
  apply norm_inv in Hn as [_ Hn]. cbn [fst snd] in Hn. subst c2.
  apply infer_dim_inv in Hc2 as [Hknown Hnumel].
  unfold numel in Hnumel. cbn [fst snd] in Hnumel.
  assert (0 < Hd) as HHd by (unfold Hd; lia).
  assert (0 < b * fh * fw * ph * pw) as Hpos by lia.
  assert (0 < ph ∧ 0 < pw ∧ 0 < b * fh * fw) as (Hph & Hpw & Hbf) by nia.
  set (oh := (ph + 1 * 2 - K) `div` S + 1) in *.
  set (ow := (pw + 1 * 2 - K) `div` S + 1) in *.
  assert (oh * ow = ph * pw) as Heq.
  { apply (Nat.mul_cancel_l _ _ (b * fh * fw * Hd)); [nia|]. nia. }
  split.
  - intros Hs. assert (S = 1) as HS1 by (unfold S; lia).
    unfold oh, ow in Heq. rewrite HS1, !Nat.div_1_r in Heq.
    assert (K = 3) by nia. unfold K in *. lia.
  - intros Hs Hk. assert (S = 2) as HS2 by (unfold S; lia).
    assert (K = 3) as HK3 by (unfold K; lia).
    unfold oh, ow in Heq. rewrite HS2, HK3 in Heq.
    replace (ph + 1 * 2 - 3) with (ph - 1) in Heq by lia.
    replace (pw + 1 * 2 - 3) with (pw - 1) in Heq by lia.
    pose proof (Nat.div_mod (ph - 1) 2 ltac:(lia)) as Hd1.
    pose proof (Nat.div_mod (pw - 1) 2 ltac:(lia)) as Hd2.
    pose proof (Nat.mod_upper_bound (ph - 1) 2 ltac:(lia)).
    pose proof (Nat.mod_upper_bound (pw - 1) 2 ltac:(lia)).
    assert ((ph - 1) `div` 2 + 1 ≤ ph) by lia.
    assert ((pw - 1) `div` 2 + 1 ≤ pw) by lia.
    nia.
Qed.


Lemma conv_kernel_and_stride_witness :
  (InvertedResidual.stride
     {| stride := 1; in_nc := 4; out_nc := 5; kernel_size := (3, 3)%Z;
        hidden_dim := 4; use_res_connect := false; hyper_params := 72;
        ranges := [0; 16; 52; 72]%Z |} = 1%Z → 3%Z = 3%Z)
  ∧ (InvertedResidual.stride
       {| stride := 1; in_nc := 4; out_nc := 5; kernel_size := (3, 3)%Z;
          hidden_dim := 4; use_res_connect := false; hyper_params := 72;
          ranges := [0; 16; 52; 72]%Z |} = 2%Z → 3%Z = 3%Z →
     6 `div` 3 = 1 ∧ 4 `div` 2 = 1).
Proof.
  apply (conv_kernel_and_stride _ "reflect" 1 4 6 4 1 72 3 2 3 (1, 5, 6, 4)).
  - vm_compute. reflexivity.
  - reflexivity.
  - simpl. lia.
Defined.

(** A 5x5 block as the decoder builds it for [kernel_sizes=5] does not
    run. *)
Example conv_kernel_5 :
  rbind (init 4 5 (5, 5)%Z 1 1%Q)
    (λ self, conv self "reflect" (1, 4, 6, 4)
               (1, Z.to_nat (hyper_params self), 3, 2))
  = raise RuntimeError.
Proof. vm_compute. reflexivity. Qed.

End InvertedResidualConvFacts.

(** ** Facts about the shapes of the weight mapper *)

Module WeightMapperFacts.
Import Patch WeightMapper.

Lemma new_inv (c : nat) (oc : list Z) (L : Z) wg (self : weight_mapper) :
  new c oc L wg = ok self →
  in_channels self = c ∧ levels self = Z.to_nat L ∧ (0 < L)%Z
  ∧ c `mod` 2 = 0.
Proof.
  unfold new.
  destruct (0 <? L)%Z eqn:HL; [|done].
  destruct (c `mod` 2 =? 0) eqn:Hc; [|done]. simpl.
  destruct (negb _); [done|]. intros [= <-]. simpl.
  apply Z.ltb_lt in HL. apply Nat.eqb_eq in Hc. done.
Qed.

Lemma half_twice (c : nat) : c `mod` 2 = 0 → c `div` 2 + c `div` 2 = c.
Proof. intros Hc. pose proof (Nat.div_mod_eq c 2). lia. Qed.

Lemma div_pow2_S (h k : nat) : (h `div` 2 ^ k) `div` 2 = h `div` 2 ^ S k.
Proof. rewrite Nat.Div0.div_div. f_equal. rewrite Nat.pow_succ_r'. lia. Qed.

Lemma div_pow2_ge (h K k : nat) :
  k ≤ K → 1 ≤ h `div` 2 ^ K → 2 ^ (K - k) ≤ h `div` 2 ^ k.
Proof.
  intros Hk HK.
  assert (2 ^ K ≤ h) as Hh.
  { destruct (decide (2 ^ K ≤ h)); [done|].
    rewrite Nat.div_small in HK by lia. lia. }
  assert (2 ^ k ≠ 0) by (apply Nat.pow_nonzero; lia).
  apply Nat.div_le_lower_bound; [done|].
  rewrite <-Nat.pow_add_r. by replace (k + (K - k)) with K by lia.
Qed.

Lemma div_pow2_ge_2 (h K k : nat) :
  k < K → 1 ≤ h `div` 2 ^ K → 2 ≤ h `div` 2 ^ k.
Proof.
  intros Hk HK. pose proof (div_pow2_ge h K k ltac:(lia) HK) as Hge.
  replace (K - k) with (S (K - k - 1)) in Hge by lia.
  rewrite Nat.pow_succ_r' in Hge.
  assert (1 ≤ 2 ^ (K - k - 1)); [|lia].
  assert (2 ^ (K - k - 1) ≠ 0) by (apply Nat.pow_nonzero; lia). lia.
Qed.

Lemma div_pow2_double (h K k : nat) :
  k < K → h `mod` 2 ^ K = 0 → 2 * (h `div` 2 ^ S k) = h `div` 2 ^ k.
Proof.
  intros Hk Hm.
  assert (2 ^ K ≠ 0) by (apply Nat.pow_nonzero; lia).
  assert (2 ^ k ≠ 0) by (apply Nat.pow_nonzero; lia).
  pose proof (Nat.div_mod_eq h (2 ^ K)) as Hh. rewrite Hm, Nat.add_0_r in Hh.
  set (q := h `div` 2 ^ K) in *.
  assert (2 ^ K = 2 ^ S k * 2 ^ (K - S k)) as HK.
  { rewrite <-Nat.pow_add_r. f_equal. lia. }
  assert (h = 2 ^ (K - S k) * q * 2 ^ S k) as Hh1 by (rewrite Hh, HK; lia).
  assert (h = 2 * 2 ^ (K - S k) * q * 2 ^ k) as Hh2.
  { rewrite Hh1, Nat.pow_succ_r'. lia. }
  rewrite Hh1 at 1. rewrite Nat.div_mul by (apply Nat.pow_nonzero; lia).
  rewrite Hh2 at 1. rewrite Nat.div_mul by done. lia.
Qed.

Lemma batch_norm_ok (training : bool) (b c h w : nat) :
  training = false ∨ b * h * w ≠ 1 →
  batch_norm training c (b, c, h, w) = ok (b, c, h, w).
Proof.
  intros Hbn. unfold batch_norm. cbn [fst snd].
  replace (training && (b * h * w =? 1)) with false.
  - unfold InvertedResidualConv.norm. cbn [fst snd]. by rewrite decide_True.
  - symmetry. destruct Hbn as [->|Hne]; [done|].
    apply andb_false_iff. right. by apply Nat.eqb_neq.
Qed.

Lemma pyramid_S (b c h w n : nat) :
  pyramid b c h w (S n)
  = pyramid b c h w n ++ [(b, c, h `div` 2 ^ n, w `div` 2 ^ n)].
Proof. unfold pyramid. by rewrite seq_S, fmap_app. Qed.

Lemma pyramid_length (b c h w n : nat) : length (pyramid b c h w n) = n.
Proof. unfold pyramid. by rewrite length_fmap, length_seq. Qed.

Lemma py_index_snoc {A} (l : list A) (x : A) : py_index (l ++ [x]) (-1) = ok x.
Proof.
  unfold py_index, py_resolve. rewrite length_app. simpl length.
  destruct (Z.ltb_spec (-1) 0); [|lia].
  destruct (Z.ltb_spec (-1 + Z.of_nat (length l + 1)) 0); [lia|].
  destruct (Z.leb_spec (Z.of_nat (length l + 1))
              (-1 + Z.of_nat (length l + 1))); [lia|].
  simpl. unfold ok at 1. cbn [rbind].
  replace (Z.to_nat (-1 + Z.of_nat (length l + 1))) with (length l) by lia.
  by rewrite list_lookup_middle.
Qed.

Lemma pop_last {A} (l : list A) (x : A) : pop (l ++ [x]) = ok (x, l).
Proof.
  unfold pop. rewrite last_snoc, length_app. simpl length.
  replace (length l + 1 - 1) with (length l) by lia.
  by rewrite take_app_length.
Qed.

Lemma level_batch (b h w K k : nat) :
  1 ≤ h `div` 2 ^ K → 1 ≤ w `div` 2 ^ K →
  k < K → b * (h `div` 2 ^ k) * (w `div` 2 ^ k) ≠ 1.
Proof.
  intros Hh Hw Hk. pose proof (div_pow2_ge_2 h K k Hk Hh).
  pose proof (div_pow2_ge_2 w K k Hk Hw).
  generalize dependent (h `div` 2 ^ k). generalize dependent (w `div` 2 ^ k).
  intros x Hx y Hy. intros Hone.
  apply Nat.eq_mul_1 in Hone as [Hone _].
  apply Nat.eq_mul_1 in Hone as [_ Hone]. lia.
Qed.

Section blocks.
Variable self : weight_mapper.
Let c2 := in_channels self `div` 2.

Lemma pointwise_block_ok (c_in c_out b h w : nat) :
  0 < h → 0 < w → training self = false ∨ b * h * w ≠ 1 →
  conv_block self c_in c_out 1 1 (b, c_in, h, w) = ok (b, c_out, h, w).
Proof.
  intros Hh Hw Hbn. unfold conv_block.
  rewrite InvertedResidualConvFacts.conv2d_ok; [|lia..| |lia|lia]; last first.
  { apply Nat.mod_1_r. }
  unfold ok at 1. cbn [rbind].
  rewrite !Nat.div_1_r.
  replace (h - 1 + 1) with h by lia. replace (w - 1 + 1) with w by lia.
  by apply batch_norm_ok.
Qed.

Lemma down_block_conv (b h w : nat) :
  2 ≤ h → 2 ≤ w →
  down_block self (b, c2, h, w)
  = batch_norm (training self) c2 (b, c2, h `div` 2, w `div` 2).
Proof.
  intros Hh Hw. unfold down_block, conv_block. fold c2.
  rewrite InvertedResidualConvFacts.conv2d_ok; [|lia..| |lia|lia]; last first.
  { apply Nat.mod_1_r. }
  unfold ok at 1. cbn [rbind].
  assert (∀ n, 2 ≤ n → (n - 2) `div` 2 + 1 = n `div` 2) as Hhalf.
  { intros n Hn. replace n with ((n - 2) + 1 * 2) at 2 by lia.
    rewrite Nat.div_add by lia. done. }
  by rewrite !Hhalf by done.
Qed.

Section maps.
Variables b h w K : nat.
Hypothesis Hh : 1 ≤ h `div` 2 ^ K.
Hypothesis Hw : 1 ≤ w `div` 2 ^ K.

Lemma down_stream_ok (n m : nat) :
  m + n = K →
  training self = false ∨ b * (h `div` 2 ^ K) * (w `div` 2 ^ K) ≠ 1 →
  down_stream self n (pyramid b c2 h w (S m))
  = ok (pyramid b c2 h w (S (m + n))).
Proof.
  intros Hmn Hbn. revert m Hmn.
  induction n as [|n IH]; intros m Hmn.
  { simpl. by rewrite Nat.add_0_r. }
  cbn [down_stream]. rewrite pyramid_S, py_index_snoc.
  unfold ok at 1. cbn [rbind].
  rewrite down_block_conv by (apply (div_pow2_ge_2 _ K); [lia|done]).
  rewrite !div_pow2_S. rewrite batch_norm_ok; last first.
  { destruct (decide (S m = K)) as [<-|]; [done|].
    right. apply (level_batch _ _ _ K); [done|done|lia]. }
  unfold ok at 1. cbn [rbind].
  rewrite <-pyramid_S, <-(pyramid_S _ _ _ _ (S m)).
  rewrite IH by lia. do 2 f_equal. lia.
Qed.

Lemma down_stream_one_value (n m : nat) :
  m + n = K → 1 ≤ n → training self = true → b = 1 →
  h `div` 2 ^ K = 1 → w `div` 2 ^ K = 1 →
  down_stream self n (pyramid b c2 h w (S m)) = raise ValueError.
Proof.
  intros Hmn Hn Htr Hb HhK HwK. revert m Hmn.
  induction n as [|n IH]; intros m Hmn; [lia|].
  cbn [down_stream]. rewrite pyramid_S, py_index_snoc.
  unfold ok at 1. cbn [rbind].
  rewrite down_block_conv by (apply (div_pow2_ge_2 _ K); [lia|done]).
  rewrite !div_pow2_S.
  destruct (decide (S m = K)) as [HmK|HmK].
  - rewrite HmK, HhK, HwK, Hb. unfold batch_norm. by rewrite Htr.
  - rewrite batch_norm_ok by (right; apply (level_batch _ _ _ K); [done|done|lia]).
    unfold ok at 1. cbn [rbind].
    rewrite <-pyramid_S, <-(pyramid_S _ _ _ _ (S m)).
    apply IH; lia.
Qed.

Lemma up_stream_ok (n : nat) :
  n ≤ K → h `mod` 2 ^ K = 0 → w `mod` 2 ^ K = 0 →
  in_channels self `mod` 2 = 0 →
  training self = false ∨ b * (h `div` 2 ^ K) * (w `div` 2 ^ K) ≠ 1 →
  up_stream self n (b, c2, h `div` 2 ^ n, w `div` 2 ^ n)
    (pyramid b c2 h w (S n))
  = ok ((b, c2, h, w), pyramid b c2 h w 1).
Proof.
  intros Hn Hmh Hmw Hc Hbn.
  induction n as [|n IH].
  { cbn [up_stream]. change (2 ^ 0) with 1. by rewrite !Nat.div_1_r. }
  cbn [up_stream]. rewrite pyramid_S, pop_last.
  unfold ok at 1. cbn [rbind fst snd].
  unfold cat. cbn [fst snd]. rewrite decide_True by done.
  unfold ok at 1. cbn [rbind].
  replace (c2 + c2) with (in_channels self) by (symmetry; by apply half_twice).
  unfold up_block. rewrite pointwise_block_ok; last first.
  { destruct (decide (S n = K)) as [<-|]; [done|].
    right. apply (level_batch _ _ _ K); [done|done|lia]. }
  { pose proof (div_pow2_ge w K (S n) Hn Hw).
    assert (2 ^ (K - S n) ≠ 0) by (apply Nat.pow_nonzero; lia). lia. }
  { pose proof (div_pow2_ge h K (S n) Hn Hh).
    assert (2 ^ (K - S n) ≠ 0) by (apply Nat.pow_nonzero; lia). lia. }
  unfold ok at 1. cbn [rbind]. unfold upsample. cbn [fst snd].
  rewrite (div_pow2_double h K n), (div_pow2_double w K n) by (lia || done).
  apply IH. lia.
Qed.

End maps.
End blocks.

Lemma train_fields (mode : bool) (self : weight_mapper) :
  in_channels (train mode self) = in_channels self
  ∧ levels (train mode self) = levels self
  ∧ training (train mode self) = mode.
Proof. done. Qed.

Lemma pyramid_last (b c h w K : nat) :
  py_index (pyramid b c h w (S K)) (-1)
  = ok (b, c, h `div` 2 ^ K, w `div` 2 ^ K).
Proof. by rewrite pyramid_S, py_index_snoc. Qed.

Lemma pyramid_1 (b c h w : nat) : pyramid b c h w 1 = [(b, c, h, w)].
Proof.
  unfold pyramid. cbn [seq fmap list_fmap]. change (2 ^ 0) with 1.
  by rewrite !Nat.div_1_r.
Qed.

(** X25: the shape protocol of [WeightMapper.forward].  A mapper that the
    constructor accepts ([levels] positive, [in_channels] even; here also
    positive), in training or evaluation mode, maps a tensor
    [(b, in_channels, h, w)] whose height and width are multiples of
    [2 ^ (levels - 1)] to a tensor of the same shape: every feature map
    of the down stream is met again by an upsampled map of its size, and
    the two halves of the channels are concatenated at the end.  This
    needs the coarsest map to be larger than one pixel, or a mapper of one
    level which is in evaluation mode or sees a batch of more than one
    tensor. *)
Theorem mapper_forward_shape (c : nat) (oc : list Z) (L : Z)
    (wg : option (list Z)) (self : weight_mapper) (mode : bool)
    (b h w : nat) :
  new c oc L wg = ok self →
  0 < c → 0 < b → 0 < h → 0 < w →
  h `mod` 2 ^ (Z.to_nat L - 1) = 0 → w `mod` 2 ^ (Z.to_nat L - 1) = 0 →
  (h `div` 2 ^ (Z.to_nat L - 1), w `div` 2 ^ (Z.to_nat L - 1)) ≠ (1, 1)
  ∨ (L = 1%Z ∧ (mode = false ∨ 1 < b)) →
  forward (train mode self) (b, c, h, w) = ok (b, c, h, w).
Proof.
  intros Hnew Hc Hb Hh Hw Hmh Hmw Hcoarse.
  apply new_inv in Hnew as (Hic & HL & HLpos & Heven).
  destruct (train_fields mode self) as (Hic' & HL' & Htr).
  set (K := Z.to_nat L - 1) in *.
  set (c2 := c `div` 2).
  assert (2 ^ K ≠ 0) as HK by (apply Nat.pow_nonzero; lia).
  assert (1 ≤ h `div` 2 ^ K) as HhK.
  { pose proof (Nat.div_mod_eq h (2 ^ K)) as E. rewrite Hmh in E.
    destruct (h `div` 2 ^ K); lia. }
  assert (1 ≤ w `div` 2 ^ K) as HwK.
  { pose proof (Nat.div_mod_eq w (2 ^ K)) as E. rewrite Hmw in E.
    destruct (w `div` 2 ^ K); lia. }
  assert (mode = false ∨ b * (h `div` 2 ^ K) * (w `div` 2 ^ K) ≠ 1) as Hbn.
  { destruct Hcoarse as [Hne|[_ [->|Hb1]]]; [|by left|].
    - right. intros Hone.
      apply Nat.eq_mul_1 in Hone as [Hone Hone2].
      apply Nat.eq_mul_1 in Hone as [_ Hone]. apply Hne. congruence.
    - right. intros Hone.
      apply Nat.eq_mul_1 in Hone as [Hone _].
      apply Nat.eq_mul_1 in Hone as [Hone _]. lia. }
  unfold forward, in_conv. rewrite Hic', HL', Hic, HL. fold K c2.
  rewrite pointwise_block_ok; [|done|done|]; last first.
  { rewrite Htr. destruct (decide (K = 0)) as [HK0|HK0].
    - rewrite HK0 in Hbn. change (2 ^ 0) with 1 in Hbn.
      by rewrite !Nat.div_1_r in Hbn.
    - right. pose proof (level_batch b h w K 0 HhK HwK ltac:(lia)) as Hl.
      change (2 ^ 0) with 1 in Hl. by rewrite !Nat.div_1_r in Hl. }
  unfold ok at 1. cbn [rbind].
  rewrite <-pyramid_1.
  pose proof (down_stream_ok (train mode self) b h w K HhK HwK K 0
                ltac:(lia)) as Hdown.
  rewrite Hic', Hic, Htr in Hdown. fold c2 in Hdown.
  rewrite Hdown by done. clear Hdown.
  unfold ok at 1. cbn [rbind]. rewrite Nat.add_0_l, pyramid_last.
  unfold ok at 1. cbn [rbind fst snd].
  match goal with
  | |- context [up_stream _ _ ?x _] =>
      assert (x = (b, c2, h `div` 2 ^ K, w `div` 2 ^ K)) as ->
  end.
  { case_decide as Hd; [done|].
    destruct Hcoarse as [Hne|[HL1 _]]; [done|].
    assert (K = 0) as -> by lia. change (2 ^ 0) with 1.
    by rewrite !Nat.div_1_r. }
  pose proof (up_stream_ok (train mode self) b h w K HhK HwK K
                (le_n _) Hmh Hmw) as Hup.
  rewrite Hic', Hic, Htr in Hup. fold c2 in Hup.
  rewrite Hup by done. clear Hup.
  unfold ok at 1. cbn [rbind fst snd].
  rewrite pyramid_1. change [(b, c2, h, w)] with ([] ++ [(b, c2, h, w)]).
  rewrite pop_last. unfold ok at 1. cbn [rbind fst snd].
  unfold cat. cbn [fst snd]. rewrite decide_True by done.
  unfold c2. by rewrite half_twice.
Qed.

Lemma mapper_forward_shape_witness :
  forward (train false {| in_channels := 4; out_channels := [8; 8]%Z;
                          levels := 3; training := true |}) (1, 4, 8, 4)
  = ok (1, 4, 8, 4).
Proof.
  apply (mapper_forward_shape 4 [8; 8]%Z 3 None);
    try (simpl; lia); try reflexivity.
  left. vm_compute. discriminate.
Defined.

(** X26: a coarsest feature map of one pixel.  When a mapper of two or more
    levels halves its input down to exactly one pixel, [forward] never
    returns: the pooled map is not computed, [x] is still the output of
    [in_conv] at full size, and the first concatenation of the up stream
    meets maps of different sizes (RuntimeError); in training mode with a
    batch of one tensor the batch normalisation of the last down block
    refuses the single value per channel before that (ValueError). *)
Theorem mapper_forward_one_pixel (c : nat) (oc : list Z) (L : Z)
    (wg : option (list Z)) (self : weight_mapper) (mode : bool)
    (b h w : nat) :
  new c oc L wg = ok self →
  (2 ≤ L)%Z → 0 < c → 0 < b →
  h `div` 2 ^ (Z.to_nat L - 1) = 1 → w `div` 2 ^ (Z.to_nat L - 1) = 1 →
  forward (train mode self) (b, c, h, w)
  = raise (if mode && (b =? 1) then ValueError else RuntimeError).
Proof.
  intros Hnew HL2 Hc Hb HhK HwK.
  apply new_inv in Hnew as (Hic & HL & HLpos & Heven).
  destruct (train_fields mode self) as (Hic' & HL' & Htr).
  set (K := Z.to_nat L - 1) in *.
  set (c2 := c `div` 2).
  assert (0 < K) as HK by lia.
  assert (1 ≤ h `div` 2 ^ K) as HhK1 by lia.
  assert (1 ≤ w `div` 2 ^ K) as HwK1 by lia.
  pose proof (div_pow2_ge_2 h K 0 HK HhK1) as Hh2.
  pose proof (div_pow2_ge_2 w K 0 HK HwK1) as Hw2.
  change (2 ^ 0) with 1 in Hh2, Hw2. rewrite Nat.div_1_r in Hh2, Hw2.
  unfold forward, in_conv. rewrite Hic', HL', Hic, HL. fold K c2.
  rewrite pointwise_block_ok; [|lia|lia|]; last first.
  { right. intros Hone. apply Nat.eq_mul_1 in Hone as [_ Hone]. lia. }
  unfold ok at 1. cbn [rbind].
  rewrite <-pyramid_1.
  destruct (mode && (b =? 1)) eqn:Hcase.
  - apply andb_true_iff in Hcase as [-> Hb1]. apply Nat.eqb_eq in Hb1.
    pose proof (down_stream_one_value (train true self) b h w K HhK1 HwK1
                  K 0 ltac:(lia) HK eq_refl Hb1 HhK HwK) as Hdown.
    rewrite Hic', Hic in Hdown. fold c2 in Hdown.
    by rewrite Hdown.
  - pose proof (down_stream_ok (train mode self) b h w K HhK1 HwK1 K 0
                  ltac:(lia)) as Hdown.
    rewrite Hic', Hic, Htr in Hdown. fold c2 in Hdown.
    rewrite Hdown; last first.
    { apply andb_false_iff in Hcase as [->|Hb1]; [by left|].
      right. apply Nat.eqb_neq in Hb1. rewrite HhK, HwK. lia. }
    clear Hdown.
    unfold ok at 1. cbn [rbind]. rewrite Nat.add_0_l, pyramid_last.
    unfold ok at 1. cbn [rbind fst snd].
    rewrite HhK, HwK. rewrite decide_False by (intros Hne; by apply Hne).
    destruct K as [|K']; [lia|].
    cbn [up_stream]. rewrite pyramid_S, pop_last.
    unfold ok at 1. cbn [rbind fst snd].
    unfold cat. cbn [fst snd]. rewrite HhK.
    rewrite decide_False by lia. done.
Qed.

Lemma mapper_forward_one_pixel_witness :
  forward (train false {| in_channels := 4; out_channels := [8; 8]%Z;
                          levels := 3; training := true |}) (2, 4, 4, 4)
  = raise RuntimeError.
Proof.
  apply (mapper_forward_one_pixel 4 [8; 8]%Z 3 None _ false 2 4 4);
    try (simpl; lia); reflexivity.
Defined.

End WeightMapperFacts.
